(** * MiniC IR generation: a shallow embedding of [IRGenerator.cpp]

    The translator of [src/ir/Generator/IRGenerator.cpp] walks an AST and
    writes, for every node, an instruction buffer ([blockInsts]) and a value
    slot ([val]); it threads a symbol table (the [Module]), a stack of loop
    contexts and a label counter.  The handlers below follow the C++ text
    statement by statement.  Mutable C++ state is passed explicitly in a
    state-and-failure monad: a computation that dereferences a null pointer,
    indexes [sons] out of range or overflows the label counter has no
    defined result and is [None]. *)

From stdpp Require Import base strings gmap list pretty.
From Stdlib Require Import ZArith Lia.

Open Scope Z_scope.

(** ** Types, values, instructions *)

(** Modelled from the spec: the type classes (section 2, "integer-32,
    boolean/one-bit, void" with singleton accessors), reached in the source
    through [IntegerType::getTypeInt()], [IntegerType::getTypeBool()] and
    [VoidType::getType()]. *)
Inductive Ty : Set :=
| IntegerType_Int
| IntegerType_Bool
| VoidType.

Definition isVoidType (t : Ty) : bool :=
  match t with VoidType => true | _ => false end.

(** Every object created by [new] gets its own address; two objects with the
    same contents stay different, as two C++ pointers do. *)
Definition addr := nat.

(** Modelled from the spec: the [Value] classes, section 3.2.  A [Value *]
    is a constant, a variable, or an instruction used as a value (Binary,
    Unary, FuncCall, Move), which is referred to by its address. *)
Inductive Value : Set :=
| ConstInt (v : Z)
| LocalVariable (a : addr) (ty : Ty) (id : string)
| GlobalVariable (a : addr) (ty : Ty) (id : string)
| FormalParameter (a : addr) (ty : Ty) (id : string)
| InstValue (a : addr).

(** Modelled from the spec: the operators of section 3.3 that are passed to
    the Binary, Unary and Branch constructors. *)
Inductive IRInstOperator : Set :=
| IRINST_OP_ADD_I | IRINST_OP_SUB_I | IRINST_OP_MUL_I | IRINST_OP_DIV_I
| IRINST_OP_MOD_I | IRINST_OP_NEG_I
| IRINST_OP_EQ_I | IRINST_OP_NE_I | IRINST_OP_LT_I | IRINST_OP_LE_I
| IRINST_OP_GT_I | IRINST_OP_GE_I
| IRINST_OP_BC | IRINST_OP_BT | IRINST_OP_BF.

(** Modelled from the spec: a [LabelInstruction] object (section 3.3): its
    address, the owning function and the name given to the two-argument
    constructor (the one-argument constructor used for the function exit
    gives none). *)
Record Label : Set := mkLabel {
  label_addr : addr;
  label_func : option string;
  label_name : option string
}.

(** Modelled from the spec: the instruction classes of section 3.3, with
    the fields their constructors are given in the source.  [func] is the
    [Function *] handed to the constructor, possibly null.  A
    [BranchInstruction] has the fields of [BranchInstruction.cpp]: the
    condition and the three targets. *)
Inductive Instruction : Set :=
| EntryInstruction (a : addr) (func : option string)
| ExitInstruction (a : addr) (func : option string) (result : option Value)
| LabelInstruction (l : Label)
| MoveInstruction (a : addr) (func : option string) (result src : option Value)
| BinaryInstruction (a : addr) (func : option string) (op : IRInstOperator)
    (src1 src2 : option Value) (ty : Ty)
| UnaryInstruction (a : addr) (func : option string) (op : IRInstOperator)
    (src : option Value) (ty : Ty)
| BranchInstruction (a : addr) (func : option string) (op : IRInstOperator)
    (condVar : option Value) (trueTarget falseTarget Target : option Label)
| GotoInstruction (a : addr) (func : option string) (target : option Label)
| FuncCallInstruction (a : addr) (func : option string) (calledFunc : string)
    (args : list (option Value)) (ty : Ty).

Definition inst_addr (i : Instruction) : addr :=
  match i with
  | EntryInstruction a _ | ExitInstruction a _ _ | MoveInstruction a _ _ _
  | BinaryInstruction a _ _ _ _ _ | UnaryInstruction a _ _ _ _
  | BranchInstruction a _ _ _ _ _ _ | GotoInstruction a _ _
  | FuncCallInstruction a _ _ _ _ => a
  | LabelInstruction l => label_addr l
  end.

(** ** Functions and the module *)

(** Modelled from the spec: a formal parameter of a [Function], section
    3.4. *)
Record FormalParam : Set := mkFormalParam {
  fp_type : Ty;
  fp_name : string
}.

(** Modelled from the spec: the [Function] class, section 3.4: "name, return
    type, ordered list of formal parameters, a linear instruction sequence,
    the exit-Label reference, a nullable return-value Value, a flag
    existFuncCall, and maxFuncCallArgCnt". *)
Record Function : Set := mkFunction {
  fname : string;
  returnType : Ty;
  params : list FormalParam;
  code : list Instruction;          (* the InterCode *)
  exitLabel : option Label;
  returnValue : option Value;
  existFuncCall : bool;
  maxFuncCallArgCnt : Z
}.

(** Modelled from the spec: the [Module] class (its header and source are not
    part of the sources at hand).  Section 3.5: a registry of functions keyed
    by name, a stack of scopes mapping identifiers to values, and the
    current-function slot.  A [Function *] is the key of the function in the
    registry. *)
Record Module_ : Type := mkModule {
  functions : gmap string Function;
  scopeStack : list (gmap string Value);
  currentFunc : option string
}.

(** Modelled from the spec: the [LoopContext] of the generator's header,
    section 2: the triple of label names of one loop. *)
Record LoopContext : Set := mkLoopContext {
  loop_entry_label : string;
  loop_body_label : string;
  loop_exit_label : string
}.

(** Modelled from the spec: the arguments of a [minic_log] call, section
    6.4. *)
Inductive LogArg : Set :=
| LogStr (s : string)
| LogInt (z : Z).

(** Modelled from the spec: one message of the logging sink of section 6.4,
    [minic_log(LOG_ERROR, fmt, args...)]. *)
Record LogEntry : Set := LOG_ERROR {
  log_fmt : string;
  log_args : list LogArg
}.

(** ** The AST *)

(** Modelled from the spec: the AST operator enumeration, section 6.1; the
    tags are the keys of the handler table of the constructor.  A tag for
    which the table has no entry is [AST_OP_OTHER]. *)
Inductive ast_operator_type : Set :=
| AST_OP_LEAF_LITERAL_UINT | AST_OP_LEAF_VAR_ID | AST_OP_LEAF_TYPE
| AST_OP_SUB | AST_OP_ADD | AST_OP_MUL | AST_OP_DIV | AST_OP_MOD | AST_OP_NEG
| AST_OP_AND | AST_OP_OR | AST_OP_NOT
| AST_OP_EQ | AST_OP_NE | AST_OP_LT | AST_OP_LE | AST_OP_GT | AST_OP_GE
| AST_OP_ASSIGN | AST_OP_RETURN
| AST_OP_IF | AST_OP_WHILE | AST_OP_BREAK | AST_OP_CONTINUE
| AST_OP_FUNC_CALL
| AST_OP_FUNC_DEF | AST_OP_FUNC_FORMAL_PARAMS
| AST_OP_DECL_STMT | AST_OP_VAR_DECL
| AST_OP_BLOCK
| AST_OP_COMPILE_UNIT
| AST_OP_OTHER (tag : nat).

(** Modelled from the spec: the input part of an [ast_node], section 3.1.
    [sons] holds no null pointer.  The two fields the translator writes,
    [blockInsts] and [val], are the result of visiting the node (see
    [NodeOut]); a tree node is visited at most once, so its buffer is empty
    when its handler starts. *)
#[warnings="-register-all"] Inductive ast_node : Set := mk_ast_node {
  node_type : ast_operator_type;
  sons : list ast_node;
  name : string;
  integer_val : Z;
  type : Ty;
  line_no : Z;
  needScope : bool
}.

(** What a handler leaves on its node: the [bool] it returns, and the node's
    [blockInsts] and [val] at that moment, also when it returns [false]
    (a parent that ignores the failure still reads them). *)
Record NodeOut : Set := mkOut {
  ok : bool;
  blockInsts : list Instruction;
  val : option Value
}.

(** ** Translator state *)

Record GenState : Type := mkGenState {
  module : Module_;
  labelCount : Z;                       (* static int labelCount *)
  loop_contexts : list LoopContext;     (* std::stack, top first *)
  next_addr : addr;                     (* allocator behind [new] *)
  log : list LogEntry                   (* minic_log output, oldest first *)
}.

Definition M (A : Type) : Type := GenState -> option (A * GenState).

Definition ret {A} (a : A) : M A := fun s => Some (a, s).

Definition bind {A B} (m : M A) (k : A -> M B) : M B :=
  fun s => match m s with
           | Some (a, s') => k a s'
           | None => None
           end.

(** Undefined behaviour of the C++ program. *)
Definition crash {A} : M A := fun _ => None.

Notation "'let*' x ':=' y 'in' z" := (bind y (fun x => z))
  (at level 10, x name, y at level 100, z at level 200).

Definition with_module (f : Module_ -> Module_) : M unit :=
  fun s => Some (tt, mkGenState (f (module s)) (labelCount s) (loop_contexts s)
                       (next_addr s) (log s)).

Definition alloc : M addr :=
  fun s => Some (next_addr s,
                 mkGenState (module s) (labelCount s) (loop_contexts s)
                   (S (next_addr s)) (log s)).

(** Modelled from the spec: [minic_log] at level ERROR appends to the
    sink. *)
Definition minic_log (fmt : string) (args : list LogArg) : M unit :=
  fun s => Some (tt, mkGenState (module s) (labelCount s) (loop_contexts s)
                       (next_addr s) (log s ++ [LOG_ERROR fmt args])).

Definition INT_MAX : Z := 2147483647.

(** [(int32_t) x]: reduction to the signed 32-bit range. *)
Definition to_int32 (x : Z) : Z :=
  (x + 2147483648) mod 4294967296 - 2147483648.

(** [generateLabel]: ["L" + std::to_string(labelCount++)].  Incrementing an
    [int] that holds [INT_MAX] is undefined. *)
Definition generateLabel : M string :=
  fun s =>
    if labelCount s <? INT_MAX then
      Some ("L" +:+ pretty (labelCount s),
            mkGenState (module s) (labelCount s + 1) (loop_contexts s)
              (next_addr s) (log s))
    else None.

Definition loop_contexts_push (c : LoopContext) : M unit :=
  fun s => Some (tt, mkGenState (module s) (labelCount s) (c :: loop_contexts s)
                       (next_addr s) (log s)).

Definition loop_contexts_pop : M unit :=
  fun s => Some (tt, mkGenState (module s) (labelCount s) (tail (loop_contexts s))
                       (next_addr s) (log s)).

Definition loop_contexts_top : M (option LoopContext) :=
  fun s => Some (head (loop_contexts s), s).

(** *** Module operations *)

(** Modelled from the spec: [Module::getCurrentFunction], the "current
    function" slot of section 3.5. *)
Definition getCurrentFunction : M (option string) :=
  fun s => Some (currentFunc (module s), s).

(** Modelled from the spec: [Module::setCurrentFunction]. *)
Definition setCurrentFunction (f : option string) : M unit :=
  with_module (fun m => mkModule (functions m) (scopeStack m) f).

(** Modelled from the spec: [Module::enterScope] pushes an empty scope
    frame. *)
Definition enterScope : M unit :=
  with_module (fun m => mkModule (functions m) (∅ :: scopeStack m) (currentFunc m)).

(** Modelled from the spec: [Module::leaveScope] pops the innermost
    frame. *)
Definition leaveScope : M unit :=
  with_module (fun m => mkModule (functions m) (tail (scopeStack m)) (currentFunc m)).

(** Modelled from the spec: [Module::newFunction] "fails if the name is
    taken"; otherwise it registers a function without formal parameters and
    with an empty instruction sequence, and returns it. *)
Definition newFunction (n : string) (t : Ty) : M (option string) :=
  fun s =>
    match functions (module s) !! n with
    | Some _ => Some (None, s)
    | None =>
        let f := mkFunction n t [] [] None None false 0 in
        let m := module s in
        Some (Some n,
              mkGenState (mkModule (<[n := f]> (functions m)) (scopeStack m) (currentFunc m))
                (labelCount s) (loop_contexts s) (next_addr s) (log s))
    end.

(** Modelled from the spec: [Module::findFunction], lookup by name. *)
Definition findFunction (n : string) : M (option string) :=
  fun s => Some (match functions (module s) !! n with
                 | Some _ => Some n
                 | None => None
                 end, s).

Definition bind_in_scope (id : string) (v : Value)
    (st : list (gmap string Value)) : list (gmap string Value) :=
  match st with
  | [] => []
  | frame :: rest => <[id := v]> frame :: rest
  end.

(** Modelled from the spec: [Module::newVarValue(type, name)] "declares a
    fresh local in the current scope"; at top level, where there is no
    current function, the value is a global.  A temporary (empty name) is
    bound to no identifier. *)
Definition newVarValue (t : Ty) (id : string) : M Value :=
  let* a := alloc in
  let* cur := getCurrentFunction in
  let v := match cur with
           | Some _ => LocalVariable a t id
           | None => GlobalVariable a t id
           end in
  let* _ := (if String.eqb id "" then ret tt
             else with_module (fun m => mkModule (functions m)
                                 (bind_in_scope id v (scopeStack m)) (currentFunc m))) in
  ret v.

Fixpoint lookup_scopes (id : string) (st : list (gmap string Value)) : option Value :=
  match st with
  | [] => None
  | frame :: rest =>
      match frame !! id with
      | Some v => Some v
      | None => lookup_scopes id rest
      end
  end.

(** Modelled from the spec: [Module::findVarValue], "identifier lookup scans
    scope frames from innermost outward; first hit wins". *)
Definition findVarValue (id : string) : M (option Value) :=
  fun s => Some (lookup_scopes id (scopeStack (module s)), s).

(** Modelled from the spec: [Module::newConstInt], the constant of the
    pool for this integer. *)
Definition newConstInt (v : Z) : M Value := ret (ConstInt v).

(** *** Function operations through a [Function *] *)

(** Dereferencing a [Function *]: undefined for the null pointer. *)
Definition getFunction (f : option string) : M Function :=
  fun s => match f with
           | Some n => match functions (module s) !! n with
                       | Some fn => Some (fn, s)
                       | None => None
                       end
           | None => None
           end.

(** Writing through a [Function *]. *)
Definition update_function (f : option string) (g : Function -> Function) : M unit :=
  let* fn := getFunction f in
  match f with
  | Some n =>
      with_module (fun m => mkModule (<[n := g fn]> (functions m)) (scopeStack m)
                              (currentFunc m))
  | None => crash
  end.

(** Modelled from the spec: [Function::setExitLabel]. *)
Definition setExitLabel (f : option string) (l : Label) : M unit :=
  update_function f (fun fn =>
    mkFunction (fname fn) (returnType fn) (params fn) (code fn) (Some l)
      (returnValue fn) (existFuncCall fn) (maxFuncCallArgCnt fn)).

(** Modelled from the spec: [Function::setReturnValue]. *)
Definition setReturnValue (f : option string) (v : option Value) : M unit :=
  update_function f (fun fn =>
    mkFunction (fname fn) (returnType fn) (params fn) (code fn) (exitLabel fn)
      v (existFuncCall fn) (maxFuncCallArgCnt fn)).

(** Modelled from the spec: [Function::setExistFuncCall]. *)
Definition setExistFuncCall (f : option string) (b : bool) : M unit :=
  update_function f (fun fn =>
    mkFunction (fname fn) (returnType fn) (params fn) (code fn) (exitLabel fn)
      (returnValue fn) b (maxFuncCallArgCnt fn)).

(** Modelled from the spec: [Function::setMaxFuncCallArgCnt]. *)
Definition setMaxFuncCallArgCnt (f : option string) (n : Z) : M unit :=
  update_function f (fun fn =>
    mkFunction (fname fn) (returnType fn) (params fn) (code fn) (exitLabel fn)
      (returnValue fn) (existFuncCall fn) n).

(** Modelled from the spec: [InterCode::addInst] on the function's
    instruction sequence appends at the end. *)
Definition irCode_addInst (f : option string) (insts : list Instruction) : M unit :=
  update_function f (fun fn =>
    mkFunction (fname fn) (returnType fn) (params fn) (code fn ++ insts) (exitLabel fn)
      (returnValue fn) (existFuncCall fn) (maxFuncCallArgCnt fn)).

(** *** [new] of the instruction classes

    Modelled from the spec (section 3.3), but for the two constructors of
    [BranchInstruction.cpp]: each [new] takes a fresh address and stores
    its arguments. *)

(** Modelled from the spec: [new EntryInstruction(func)]. *)
Definition new_EntryInstruction (func : option string) : M Instruction :=
  let* a := alloc in ret (EntryInstruction a func).

(** Modelled from the spec: [new ExitInstruction(func, result)]. *)
Definition new_ExitInstruction (func : option string) (result : option Value)
    : M Instruction :=
  let* a := alloc in ret (ExitInstruction a func result).

(** Modelled from the spec: [new LabelInstruction(func)] and
    [new LabelInstruction(func, name)]. *)
Definition new_LabelInstruction (func : option string) (nm : option string) : M Label :=
  let* a := alloc in ret (mkLabel a func nm).

(** Modelled from the spec: [new MoveInstruction(func, result, src)]. *)
Definition new_MoveInstruction (func : option string) (result src : option Value)
    : M Instruction :=
  let* a := alloc in ret (MoveInstruction a func result src).

(** Modelled from the spec: [new BinaryInstruction(func, op, src1, src2,
    type)]. *)
Definition new_BinaryInstruction (func : option string) (op : IRInstOperator)
    (src1 src2 : option Value) (t : Ty) : M Instruction :=
  let* a := alloc in ret (BinaryInstruction a func op src1 src2 t).

(** Modelled from the spec: [new UnaryInstruction(func, op, src, type)]. *)
Definition new_UnaryInstruction (func : option string) (op : IRInstOperator)
    (src : option Value) (t : Ty) : M Instruction :=
  let* a := alloc in ret (UnaryInstruction a func op src t).

(** The one-target constructor of [BranchInstruction.cpp] (bt / bf):
    [trueTarget(nullptr), falseTarget(nullptr), Target(_Target)]. *)
Definition new_BranchInstruction (func : option string) (op : IRInstOperator)
    (condVar : option Value) (target : Label) : M Instruction :=
  let* a := alloc in ret (BranchInstruction a func op condVar None None (Some target)).

(** The two-target constructor (bc): [Target(nullptr)]. *)
Definition new_BranchInstruction_bc (func : option string) (op : IRInstOperator)
    (condVar : option Value) (trueTarget falseTarget : Label) : M Instruction :=
  let* a := alloc in
  ret (BranchInstruction a func op condVar (Some trueTarget) (Some falseTarget) None).

(** Modelled from the spec: [new GotoInstruction(func, target)]. *)
Definition new_GotoInstruction (func : option string) (target : option Label)
    : M Instruction :=
  let* a := alloc in ret (GotoInstruction a func target).

(** Modelled from the spec: [new FuncCallInstruction(func, callee, args,
    type)]. *)
Definition new_FuncCallInstruction (func : option string) (callee : string)
    (args : list (option Value)) (t : Ty) : M Instruction :=
  let* a := alloc in ret (FuncCallInstruction a func callee args t).

(** An instruction stored in a [Value *] slot. *)
Definition as_value (i : Instruction) : option Value := Some (InstValue (inst_addr i)).

(** Modelled from the spec: the getters of [Function]. *)
Definition getMaxFuncCallArgCnt (f : option string) : M Z :=
  let* fn := getFunction f in ret (maxFuncCallArgCnt fn).

Definition getReturnValue (f : option string) : M (option Value) :=
  let* fn := getFunction f in ret (returnValue fn).

Definition getExitLabel (f : option string) : M (option Label) :=
  let* fn := getFunction f in ret (exitLabel fn).

Definition getParams (f : option string) : M (list FormalParam) :=
  let* fn := getFunction f in ret (params fn).

Definition getReturnType (f : option string) : M Ty :=
  let* fn := getFunction f in ret (returnType fn).

(** ** The handlers

    Each handler takes the visitor it recurses through, [visit], as its first
    argument; [ir_visit_ast_node] below ties the knot. *)

Section Handlers.

Variable visit : ast_node -> M NodeOut.

(** [ir_default]: report the unknown tag on stdout and succeed. *)
Definition ir_default (node : ast_node) : M NodeOut :=
  ret (mkOut true [] None).

Fixpoint ir_compile_unit_loop (l : list ast_node) : M bool :=
  match l with
  | [] => ret true
  | son :: rest =>
      let* son_node := visit son in
      if ok son_node then ir_compile_unit_loop rest else ret false
  end.

Definition ir_compile_unit (node : ast_node) : M NodeOut :=
  let* _ := setCurrentFunction None in
  let* r := ir_compile_unit_loop (sons node) in
  ret (mkOut r [] None).

(** [ir_function_formal_params]: "formal parameters are not supported yet,
    return true directly". *)
Definition ir_function_formal_params (node : ast_node) : M NodeOut :=
  ret (mkOut true [] None).

(** The loop of [ir_block]; [insts] is [node->blockInsts] so far. *)
Fixpoint ir_block_loop (l : list ast_node) (insts : list Instruction)
    : M (bool * list Instruction) :=
  match l with
  | [] => ret (true, insts)
  | son :: rest =>
      let* temp := visit son in
      if ok temp then ir_block_loop rest (insts ++ blockInsts temp)
      else ret (false, insts)
  end.

(** [ir_block]; [ns] is [node->needScope] when the handler runs. *)
Definition ir_block (ns : bool) (node : ast_node) : M NodeOut :=
  let* _ := (if ns then enterScope else ret tt) in
  let* r := ir_block_loop (sons node) [] in
  if fst r then
    let* _ := (if ns then leaveScope else ret tt) in
    ret (mkOut true (snd r) None)
  else ret (mkOut false (snd r) None).

Definition ir_function_define (node : ast_node) : M NodeOut :=
  let* cur := getCurrentFunction in
  match cur with
  | Some _ => ret (mkOut false [] None)
  | None =>
      match sons node with
      | type_node :: name_node :: param_node :: block_node :: _ =>
          let* newFunc := newFunction (name name_node) (type type_node) in
          match newFunc with
          | None => ret (mkOut false [] None)
          | Some _ =>
              let* _ := setCurrentFunction newFunc in
              let* _ := enterScope in
              let* entry := new_EntryInstruction newFunc in
              let* _ := irCode_addInst newFunc [entry] in
              let* exitLabelInst := new_LabelInstruction newFunc None in
              let* _ := setExitLabel newFunc exitLabelInst in
              let* pr := ir_function_formal_params param_node in
              if negb (ok pr) then ret (mkOut false [] None)
              else
                let insts := blockInsts pr in
                let* retValue :=
                  (if negb (isVoidType (type type_node)) then
                     let* v := newVarValue (type type_node) "" in ret (Some v)
                   else ret None) in
                let* _ := setReturnValue newFunc retValue in
                let* br := ir_block false block_node in
                if negb (ok br) then ret (mkOut false insts None)
                else
                  let insts := insts ++ blockInsts br in
                  let* _ := irCode_addInst newFunc insts in
                  let* _ := irCode_addInst newFunc [LabelInstruction exitLabelInst] in
                  let* ex := new_ExitInstruction newFunc retValue in
                  let* _ := irCode_addInst newFunc [ex] in
                  let* _ := setCurrentFunction None in
                  let* _ := leaveScope in
                  ret (mkOut true [] None)
          end
      | _ => crash
      end
  end.

(** The argument loop of [ir_function_call]. *)
Fixpoint ir_function_call_loop (l : list ast_node)
    (realParams : list (option Value)) (insts : list Instruction)
    : M (bool * (list (option Value) * list Instruction)) :=
  match l with
  | [] => ret (true, (realParams, insts))
  | son :: rest =>
      let* temp := visit son in
      if ok temp then
        ir_function_call_loop rest (realParams ++ [val temp]) (insts ++ blockInsts temp)
      else ret (false, (realParams, insts))
  end.

Definition ir_function_call (node : ast_node) : M NodeOut :=
  let* currentFunc := getCurrentFunction in
  match sons node with
  | name_node :: paramsNode :: _ =>
      let funcName := name name_node in
      let lineno := line_no name_node in
      let* calledFunction := findFunction funcName in
      match calledFunction with
      | None =>
          let* _ := minic_log "函数(%s)未定义或声明" [LogStr funcName] in
          ret (mkOut false [] None)
      | Some _ =>
          let* _ := setExistFuncCall currentFunc true in
          let* r :=
            (match sons paramsNode with
             | [] => ret (true, ([], []))
             | _ :: _ =>
                 let argsCount := to_int32 (Z.of_nat (length (sons paramsNode))) in
                 let* mx := getMaxFuncCallArgCnt currentFunc in
                 let* _ := (if argsCount >? mx
                            then setMaxFuncCallArgCnt currentFunc argsCount
                            else ret tt) in
                 ir_function_call_loop (sons paramsNode) [] []
             end) in
          let realParams := fst (snd r) in
          let insts := snd (snd r) in
          if negb (fst r) then ret (mkOut false insts None)
          else
            let* ps := getParams calledFunction in
            if negb (Nat.eqb (length realParams) (length ps)) then
              let* _ := minic_log "第%lld行的被调用函数(%s)未定义或声明"
                          [LogInt lineno; LogStr funcName] in
              ret (mkOut false insts None)
            else
              let* t := getReturnType calledFunction in
              let* funcCallInst :=
                new_FuncCallInstruction currentFunc funcName realParams t in
              ret (mkOut true (insts ++ [funcCallInst]) (as_value funcCallInst))
      end
  | _ => crash
  end.

Definition ir_if (node : ast_node) : M NodeOut :=
  let* currentFunc := getCurrentFunction in
  match currentFunc with
  | None => ret (mkOut false [] None)
  | Some _ =>
      let* true_label := generateLabel in
      let* false_label := generateLabel in
      let* end_label := generateLabel in
      match sons node with
      | condNode :: thenNode :: rest =>
          let* c := visit condNode in
          let* trueLabelInst := new_LabelInstruction currentFunc (Some true_label) in
          let* falseLabelInst := new_LabelInstruction currentFunc (Some false_label) in
          let* endLabelInst := new_LabelInstruction currentFunc (Some end_label) in
          let insts := blockInsts c in
          let* bf := new_BranchInstruction currentFunc IRINST_OP_BF (val c) falseLabelInst in
          let insts := insts ++ [bf] in
          let insts := insts ++ [LabelInstruction trueLabelInst] in
          let* t := visit thenNode in
          let insts := insts ++ blockInsts t in
          let* g1 := new_GotoInstruction currentFunc (Some endLabelInst) in
          let insts := insts ++ [g1] in
          let insts := insts ++ [LabelInstruction falseLabelInst] in
          let* insts :=
            (match rest with
             | elseNode :: _ =>
                 let* e := visit elseNode in ret (insts ++ blockInsts e)
             | [] => ret insts
             end) in
          let* g2 := new_GotoInstruction currentFunc (Some endLabelInst) in
          let insts := insts ++ [g2] in
          let insts := insts ++ [LabelInstruction endLabelInst] in
          ret (mkOut true insts None)
      | _ => crash
      end
  end.

Definition ir_while (node : ast_node) : M NodeOut :=
  let* currentFunc := getCurrentFunction in
  match currentFunc with
  | None => ret (mkOut false [] None)
  | Some _ =>
      let* entry_label := generateLabel in
      let* body_label := generateLabel in
      let* exit_label := generateLabel in
      let* _ := loop_contexts_push (mkLoopContext entry_label body_label exit_label) in
      let* loopEntryLabel := new_LabelInstruction currentFunc (Some entry_label) in
      let insts := [LabelInstruction loopEntryLabel] in
      match sons node with
      | condNode :: bodyNode :: _ =>
          let* c := visit condNode in
          let insts := insts ++ blockInsts c in
          let* loopBodyLabel := new_LabelInstruction currentFunc (Some body_label) in
          let* bt := new_BranchInstruction currentFunc IRINST_OP_BT (val c) loopBodyLabel in
          let insts := insts ++ [bt] in
          let* loopExitLabel := new_LabelInstruction currentFunc (Some exit_label) in
          let insts := insts ++ [LabelInstruction loopExitLabel] in
          let insts := insts ++ [LabelInstruction loopBodyLabel] in
          let* b := visit bodyNode in
          let insts := insts ++ blockInsts b in
          let* g := new_GotoInstruction currentFunc (Some loopEntryLabel) in
          let insts := insts ++ [g] in
          let* _ := loop_contexts_pop in
          ret (mkOut true insts None)
      | _ => crash
      end
  end.

Definition ir_break (node : ast_node) : M NodeOut :=
  let* currentFunc := getCurrentFunction in
  let* top := loop_contexts_top in
  match currentFunc, top with
  | Some _, Some context =>
      let* loopExitLabel :=
        new_LabelInstruction currentFunc (Some (loop_exit_label context)) in
      let* g := new_GotoInstruction currentFunc (Some loopExitLabel) in
      ret (mkOut true [g] None)
  | _, _ =>
      let* _ := minic_log "break语句不在循环内部" [] in
      ret (mkOut false [] None)
  end.

Definition ir_continue (node : ast_node) : M NodeOut :=
  let* currentFunc := getCurrentFunction in
  let* top := loop_contexts_top in
  match currentFunc, top with
  | Some _, Some context =>
      let* loopEntryLabel :=
        new_LabelInstruction currentFunc (Some (loop_entry_label context)) in
      let* g := new_GotoInstruction currentFunc (Some loopEntryLabel) in
      ret (mkOut true [g] None)
  | _, _ =>
      let* _ := minic_log "continue语句不在循环内部" [] in
      ret (mkOut false [] None)
  end.

Definition ir_and (node : ast_node) : M NodeOut :=
  let* currentFunc := getCurrentFunction in
  match currentFunc with
  | None => ret (mkOut false [] None)
  | Some _ =>
      let* left_true_label := generateLabel in
      let* left_false_label := generateLabel in
      let* end_label := generateLabel in
      match sons node with
      | left_node :: right_node :: _ =>
          let* l := visit left_node in
          let insts := blockInsts l in
          let* falseLabel := new_LabelInstruction currentFunc (Some left_false_label) in
          let* bf1 := new_BranchInstruction currentFunc IRINST_OP_BF (val l) falseLabel in
          let insts := insts ++ [bf1] in
          let* trueLabel := new_LabelInstruction currentFunc (Some left_true_label) in
          let insts := insts ++ [LabelInstruction trueLabel] in
          let* endLabel := new_LabelInstruction currentFunc (Some end_label) in
          let* r := visit right_node in
          let insts := insts ++ blockInsts r in
          let* bf2 := new_BranchInstruction currentFunc IRINST_OP_BF (val r) falseLabel in
          let insts := insts ++ [bf2] in
          let insts := insts ++ [LabelInstruction trueLabel] in
          let* result := newVarValue IntegerType_Int "" in
          let* m1 := new_MoveInstruction currentFunc (Some result) (Some (ConstInt 1)) in
          let insts := insts ++ [m1] in
          let* g1 := new_GotoInstruction currentFunc (Some endLabel) in
          let insts := insts ++ [g1] in
          let insts := insts ++ [LabelInstruction falseLabel] in
          let* m0 := new_MoveInstruction currentFunc (Some result) (Some (ConstInt 0)) in
          let insts := insts ++ [m0] in
          let* g2 := new_GotoInstruction currentFunc (Some endLabel) in
          let insts := insts ++ [g2] in
          let* endLabel2 := new_LabelInstruction currentFunc (Some end_label) in
          let insts := insts ++ [LabelInstruction endLabel2] in
          ret (mkOut true insts (Some result))
      | _ => crash
      end
  end.

Definition ir_or (node : ast_node) : M NodeOut :=
  let* currentFunc := getCurrentFunction in
  match currentFunc with
  | None => ret (mkOut false [] None)
  | Some _ =>
      let* left_true_label := generateLabel in
      let* left_false_label := generateLabel in
      let* end_label := generateLabel in
      match sons node with
      | left_node :: right_node :: _ =>
          let* l := visit left_node in
          let insts := blockInsts l in
          let* trueLabel := new_LabelInstruction currentFunc (Some left_true_label) in
          let* bt1 := new_BranchInstruction currentFunc IRINST_OP_BT (val l) trueLabel in
          let insts := insts ++ [bt1] in
          let* falseLabel := new_LabelInstruction currentFunc (Some left_false_label) in
          let* endLabel := new_LabelInstruction currentFunc (Some end_label) in
          let insts := insts ++ [LabelInstruction falseLabel] in
          let* r := visit right_node in
          let insts := insts ++ blockInsts r in
          let* bt2 := new_BranchInstruction currentFunc IRINST_OP_BT (val r) trueLabel in
          let insts := insts ++ [bt2] in
          let insts := insts ++ [LabelInstruction trueLabel] in
          let* result := newVarValue IntegerType_Int "" in
          let* m1 := new_MoveInstruction currentFunc (Some result) (Some (ConstInt 1)) in
          let insts := insts ++ [m1] in
          let* g1 := new_GotoInstruction currentFunc (Some endLabel) in
          let insts := insts ++ [g1] in
          let* endLabel2 := new_LabelInstruction currentFunc (Some end_label) in
          let insts := insts ++ [LabelInstruction endLabel2] in
          let* m0 := new_MoveInstruction currentFunc (Some result) (Some (ConstInt 0)) in
          let insts := insts ++ [m0] in
          ret (mkOut true insts (Some result))
      | _ => crash
      end
  end.

(** [ir_not]: swaps the node's label slots (read by no handler) and returns
    whether the operand could be visited; nothing is spliced into the node. *)
Definition ir_not (node : ast_node) : M NodeOut :=
  let* currentFunc := getCurrentFunction in
  match currentFunc with
  | None => ret (mkOut false [] None)
  | Some _ =>
      match sons node with
      | operand :: _ =>
          let* r := visit operand in
          ret (mkOut (ok r) [] None)
      | [] => crash
      end
  end.

Definition ir_relop (op : IRInstOperator) (node : ast_node) : M NodeOut :=
  let* currentFunc := getCurrentFunction in
  match currentFunc with
  | None => ret (mkOut false [] None)
  | Some _ =>
      match sons node with
      | src1_node :: src2_node :: _ =>
          let* left := visit src1_node in
          let* right := visit src2_node in
          if negb (ok left) || negb (ok right) then ret (mkOut false [] None)
          else
            let* cmpInst :=
              new_BinaryInstruction currentFunc op (val left) (val right)
                IntegerType_Bool in
            ret (mkOut true (blockInsts left ++ blockInsts right ++ [cmpInst])
                   (as_value cmpInst))
      | _ => crash
      end
  end.

Definition ir_eq := ir_relop IRINST_OP_EQ_I.
Definition ir_ne := ir_relop IRINST_OP_NE_I.
Definition ir_lt := ir_relop IRINST_OP_LT_I.
Definition ir_gt := ir_relop IRINST_OP_GT_I.
Definition ir_le := ir_relop IRINST_OP_LE_I.
Definition ir_ge := ir_relop IRINST_OP_GE_I.

(** The common text of [ir_add], [ir_sub], [ir_mul], [ir_div], [ir_mod],
    which differ in the operator only. *)
Definition ir_arith (op : IRInstOperator) (node : ast_node) : M NodeOut :=
  match sons node with
  | src1_node :: src2_node :: _ =>
      let* left := visit src1_node in
      if negb (ok left) then ret (mkOut false [] None)
      else
        let* right := visit src2_node in
        if negb (ok right) then ret (mkOut false [] None)
        else
          let* currentFunc := getCurrentFunction in
          let* inst :=
            new_BinaryInstruction currentFunc op (val left) (val right)
              IntegerType_Int in
          ret (mkOut true (blockInsts left ++ blockInsts right ++ [inst])
                 (as_value inst))
  | _ => crash
  end.

Definition ir_add := ir_arith IRINST_OP_ADD_I.
Definition ir_sub := ir_arith IRINST_OP_SUB_I.
Definition ir_mul := ir_arith IRINST_OP_MUL_I.
Definition ir_div := ir_arith IRINST_OP_DIV_I.
Definition ir_mod := ir_arith IRINST_OP_MOD_I.

Definition ir_neg (node : ast_node) : M NodeOut :=
  match sons node with
  | src_node :: _ =>
      let* operand := visit src_node in
      if negb (ok operand) then ret (mkOut false [] None)
      else
        let* currentFunc := getCurrentFunction in
        let* negInst :=
          new_UnaryInstruction currentFunc IRINST_OP_NEG_I (val operand)
            IntegerType_Int in
        ret (mkOut true (blockInsts operand ++ [negInst]) (as_value negInst))
  | [] => crash
  end.

Definition ir_assign (node : ast_node) : M NodeOut :=
  match sons node with
  | son1_node :: son2_node :: _ =>
      let* left := visit son1_node in
      if negb (ok left) then ret (mkOut false [] None)
      else
        let* right := visit son2_node in
        if negb (ok right) then ret (mkOut false [] None)
        else
          let* currentFunc := getCurrentFunction in
          let* movInst := new_MoveInstruction currentFunc (val left) (val right) in
          ret (mkOut true (blockInsts right ++ blockInsts left ++ [movInst])
                 (as_value movInst))
  | _ => crash
  end.

Definition ir_return (node : ast_node) : M NodeOut :=
  match sons node with
  | son_node :: _ =>
      let* right := visit son_node in
      if negb (ok right) then ret (mkOut false [] None)
      else
        let* currentFunc := getCurrentFunction in
        let insts := blockInsts right in
        let* rv := getReturnValue currentFunc in
        let* mv := new_MoveInstruction currentFunc rv (val right) in
        let insts := insts ++ [mv] in
        let* el := getExitLabel currentFunc in
        let* g := new_GotoInstruction currentFunc el in
        ret (mkOut true (insts ++ [g]) (val right))
  | [] =>
      let* currentFunc := getCurrentFunction in
      let* el := getExitLabel currentFunc in
      let* g := new_GotoInstruction currentFunc el in
      ret (mkOut true [g] None)
  end.

Definition ir_leaf_node_type (node : ast_node) : M NodeOut :=
  ret (mkOut true [] None).

Definition ir_leaf_node_var_id (node : ast_node) : M NodeOut :=
  let* v := findVarValue (name node) in
  ret (mkOut true [] v).

Definition ir_leaf_node_uint (node : ast_node) : M NodeOut :=
  let* v := newConstInt (to_int32 (integer_val node)) in
  ret (mkOut true [] (Some v)).

Definition ir_variable_declare (node : ast_node) : M NodeOut :=
  match sons node with
  | type_node :: name_node :: _ =>
      let* v := newVarValue (type type_node) (name name_node) in
      ret (mkOut true [] (Some v))
  | _ => crash
  end.

(** The loop of [ir_declare_statment]; [result] is the local flag. *)
Fixpoint ir_declare_statment_loop (l : list ast_node) (result : bool) : M bool :=
  match l with
  | [] => ret result
  | child :: rest =>
      let* r := ir_variable_declare child in
      if ok r then ir_declare_statment_loop rest (ok r) else ret (ok r)
  end.

Definition ir_declare_statment (node : ast_node) : M NodeOut :=
  let* result := ir_declare_statment_loop (sons node) false in
  ret (mkOut result [] None).

(** The handler table built by the constructor, with [ir_default] for a tag
    the table does not hold. *)
Definition dispatch (node : ast_node) : M NodeOut :=
  match node_type node with
  | AST_OP_LEAF_LITERAL_UINT => ir_leaf_node_uint node
  | AST_OP_LEAF_VAR_ID => ir_leaf_node_var_id node
  | AST_OP_LEAF_TYPE => ir_leaf_node_type node
  | AST_OP_SUB => ir_sub node
  | AST_OP_ADD => ir_add node
  | AST_OP_MUL => ir_mul node
  | AST_OP_DIV => ir_div node
  | AST_OP_MOD => ir_mod node
  | AST_OP_NEG => ir_neg node
  | AST_OP_AND => ir_and node
  | AST_OP_OR => ir_or node
  | AST_OP_NOT => ir_not node
  | AST_OP_EQ => ir_eq node
  | AST_OP_NE => ir_ne node
  | AST_OP_LT => ir_lt node
  | AST_OP_LE => ir_le node
  | AST_OP_GT => ir_gt node
  | AST_OP_GE => ir_ge node
  | AST_OP_ASSIGN => ir_assign node
  | AST_OP_RETURN => ir_return node
  | AST_OP_IF => ir_if node
  | AST_OP_WHILE => ir_while node
  | AST_OP_BREAK => ir_break node
  | AST_OP_CONTINUE => ir_continue node
  | AST_OP_FUNC_CALL => ir_function_call node
  | AST_OP_FUNC_DEF => ir_function_define node
  | AST_OP_FUNC_FORMAL_PARAMS => ir_function_formal_params node
  | AST_OP_DECL_STMT => ir_declare_statment node
  | AST_OP_VAR_DECL => ir_variable_declare node
  | AST_OP_BLOCK => ir_block (needScope node) node
  | AST_OP_COMPILE_UNIT => ir_compile_unit node
  | AST_OP_OTHER _ => ir_default node
  end.

End Handlers.

(** [ir_visit_ast_node]: look the handler up and run it.  The result's [ok]
    is [false] exactly when the C++ function returns [nullptr]. *)
Fixpoint ir_visit_ast_node (node : ast_node) {struct node} : M NodeOut :=
  dispatch ir_visit_ast_node node.

(** [IRGenerator::run] on the root of the AST. *)
Definition run (root : ast_node) : M bool :=
  let* node := ir_visit_ast_node root in
  ret (ok node).

(** ** Building ASTs and the initial state *)

(** An inner node as the parser builds it: no payload, [needScope] set. *)
Definition new_ast_node (t : ast_operator_type) (ss : list ast_node) : ast_node :=
  mk_ast_node t ss "" 0 VoidType (-1) true.

Definition new_ast_leaf_uint (v : Z) (line : Z) : ast_node :=
  mk_ast_node AST_OP_LEAF_LITERAL_UINT [] "" v IntegerType_Int line true.

Definition new_ast_leaf_var_id (id : string) (line : Z) : ast_node :=
  mk_ast_node AST_OP_LEAF_VAR_ID [] id 0 VoidType line true.

Definition new_ast_leaf_type (t : Ty) (line : Z) : ast_node :=
  mk_ast_node AST_OP_LEAF_TYPE [] "" 0 t line true.

(** A module with the given registered functions, the global scope entered
    and no current function; counters at their start values. *)
Definition init_state (fs : gmap string Function) : GenState :=
  mkGenState (mkModule fs [∅] None) 0 [] 0%nat [].

(** ** [BranchInstruction.cpp]: the conditional branch and its printer *)

(** A [BranchInstruction] object: what the base-class constructor is given
    (the function, the operator and [VoidType::getType()]) and the four
    fields of the class.  The targets are [Instruction *] in the source; the
    generator only ever passes label instructions. *)
Record Branch : Set := mkBranch {
  br_func : option string;
  br_op : IRInstOperator;
  br_type : Ty;
  condVar : option Value;
  trueTarget : option Label;
  falseTarget : option Label;
  Target : option Label
}.

(** The two-target constructor (bc); the asserts on the operator and on the
    type of the condition are commented out in the source. *)
Definition BranchInstruction_bc (_func : option string) (_op : IRInstOperator)
    (_condVar : option Value) (_trueTarget _falseTarget : option Label) : Branch :=
  mkBranch _func _op VoidType _condVar _trueTarget _falseTarget None.

(** The one-target constructor (bt / bf). *)
Definition BranchInstruction_bt_bf (_func : option string) (_op : IRInstOperator)
    (_condVar : option Value) (_Target : option Label) : Branch :=
  mkBranch _func _op VoidType _condVar None None _Target.

Definition getCondVar (b : Branch) : option Value := condVar b.
Definition getTrueTarget (b : Branch) : option Label := trueTarget b.
Definition getFalseTarget (b : Branch) : option Label := falseTarget b.
Definition getTarget (b : Branch) : option Label := Target b.

(** What [toString] writes to [std::cerr]: the two pointers it prints for bt
    and bf. *)
Inductive cerr_item : Set :=
| cerr_value (p : option Value)
| cerr_instruction (p : option Label).

(** [BranchInstruction::toString]: the lines written to [std::cerr] and the
    string stored in [str]; [None] when a null pointer is dereferenced.
    [getIRName] of values and of instructions and the base-class
    [Instruction::toString] belong to other classes and are parameters. *)
Definition toString (Value_getIRName : Value -> string)
    (Instruction_getIRName : Label -> string)
    (Instruction_toString : Branch -> string)
    (b : Branch) : option (list cerr_item * string) :=
  match br_op b with
  | IRINST_OP_BC =>
      match condVar b, trueTarget b, falseTarget b with
      | Some c, Some t, Some f =>
          Some ([], "bc " +:+ Value_getIRName c +:+ ", " +:+
                    Instruction_getIRName t +:+ ", " +:+ Instruction_getIRName f)
      | _, _, _ => None
      end
  | IRINST_OP_BT =>
      match condVar b, Target b with
      | Some c, Some t =>
          Some ([cerr_value (condVar b); cerr_instruction (Target b)],
                "bt " +:+ Value_getIRName c +:+ ", " +:+ Instruction_getIRName t)
      | _, _ => None
      end
  | IRINST_OP_BF =>
      match condVar b, Target b with
      | Some c, Some t =>
          Some ([cerr_value (condVar b); cerr_instruction (Target b)],
                "bf " +:+ Value_getIRName c +:+ ", " +:+ Instruction_getIRName t)
      | _, _ => None
      end
  | _ => Some ([], Instruction_toString b)
  end.

(** * Notions used in the statements *)

(** Partial-correctness triples: from a state in [P], a defined result
    satisfies [Q]. *)
Definition hoare {A} (P : GenState -> Prop) (m : M A)
    (Q : A -> GenState -> Prop) : Prop :=
  forall s a s', P s -> m s = Some (a, s') -> Q a s'.

(** What visiting a node cannot change: a function that is registered stays
    registered; of its fields only the two call statistics may change, and
    only upwards. *)
Definition Function_le (f f' : Function) : Prop :=
  fname f' = fname f /\ returnType f' = returnType f /\ params f' = params f /\
  code f' = code f /\ exitLabel f' = exitLabel f /\
  returnValue f' = returnValue f /\
  (existFuncCall f = true -> existFuncCall f' = true) /\
  maxFuncCallArgCnt f <= maxFuncCallArgCnt f'.

Definition funcs_le (m m' : gmap string Function) : Prop :=
  forall n f, m !! n = Some f -> exists f', m' !! n = Some f' /\ Function_le f f'.

(** The invariant: relative to a registry [m0] and a loop-context stack [L]
    fixed beforehand. *)
Definition Inv (m0 : gmap string Function) (L : list LoopContext) (s : GenState) : Prop :=
  funcs_le m0 (functions (module s)) /\ loop_contexts s = L.

(** A computation that leaves the registry and the loop contexts alone. *)
Definition frame {A} (m : M A) : Prop :=
  forall s a s', m s = Some (a, s') ->
    functions (module s') = functions (module s) /\
    loop_contexts s' = loop_contexts s.

Abbreviation keeps m := (forall m0 L, hoare (Inv m0 L) m (fun _ => Inv m0 L)).

(** The height of a node bounds its sons' and their sons' heights, so that
    a handler may recurse into either. *)
Fixpoint height (node : ast_node) : nat :=
  S (max_list (height <$> sons node)).

(** Visiting the nodes of [l] one after the other, from left to right, each
    visit succeeding: the results and the state threaded through. *)
Inductive visit_seq : list ast_node -> GenState -> list NodeOut -> GenState -> Prop :=
| visit_seq_nil s : visit_seq [] s [] s
| visit_seq_cons c l s o s1 os s2 :
    ir_visit_ast_node c s = Some (o, s1) -> ok o = true ->
    visit_seq l s1 os s2 ->
    visit_seq (c :: l) s (o :: os) s2.




Definition formal_of (formal : ast_node) : option (Ty * string) :=
  match sons formal with
  | type_node :: name_node :: _ => Some (type type_node, name name_node)
  | _ => None
  end.

(** The formal-parameter claim as the specification words it, for one
    FUNC_DEF node and start state: every formal [(type, name)] of a
    successfully translated definition has its Move, from a
    [FormalParameter] into a local of that type and name, in the function's
    instruction sequence. *)
Definition formal_params_moved (node : ast_node) (s : GenState) : Prop :=
  forall out s' type_node name_node param_node block_node rest fn,
    sons node = type_node :: name_node :: param_node :: block_node :: rest ->
    ir_visit_ast_node node s = Some (out, s') -> ok out = true ->
    functions (module s') !! name name_node = Some fn ->
    forall formal t id,
      formal ∈ sons param_node -> formal_of formal = Some (t, id) ->
      exists a_move a_local a_formal,
        MoveInstruction a_move (Some (name name_node))
          (Some (LocalVariable a_local t id))
          (Some (FormalParameter a_formal t id)) ∈ code fn.

(** [int f(int x) { }] *)
Definition func_with_formal : ast_node :=
  new_ast_node AST_OP_FUNC_DEF
    [new_ast_leaf_type IntegerType_Int 1; new_ast_leaf_var_id "f" 1;
     new_ast_node AST_OP_FUNC_FORMAL_PARAMS
       [new_ast_node (AST_OP_OTHER 0)
          [new_ast_leaf_type IntegerType_Int 1; new_ast_leaf_var_id "x" 1]];
     new_ast_node AST_OP_BLOCK []].

(** The result and the final state of a computation, for stating what a
    concrete run gives. *)
Definition out_of (r : option (NodeOut * GenState)) : NodeOut :=
  match r with Some (o, _) => o | None => mkOut false [] None end.

Definition state_of (r : option (NodeOut * GenState)) : GenState :=
  match r with Some (_, s) => s | None => init_state ∅ end.

Definition function_of (f : string) (s : GenState) : Function :=
  default (mkFunction "" VoidType [] [] None None false 0) (functions (module s) !! f).

(** [int main() { body }] as a compile unit. *)
Definition int_main (body : list ast_node) : ast_node :=
  new_ast_node AST_OP_COMPILE_UNIT
    [new_ast_node AST_OP_FUNC_DEF
       [new_ast_leaf_type IntegerType_Int 1; new_ast_leaf_var_id "main" 1;
        new_ast_node AST_OP_FUNC_FORMAL_PARAMS [];
        new_ast_node AST_OP_BLOCK body]].

(** [int main() { int a; a = 1 && 2; }] *)
Definition prog_and : ast_node :=
  int_main
    [new_ast_node AST_OP_DECL_STMT
       [new_ast_node AST_OP_VAR_DECL
          [new_ast_leaf_type IntegerType_Int 1; new_ast_leaf_var_id "a" 1]];
     new_ast_node AST_OP_ASSIGN
       [new_ast_leaf_var_id "a" 1;
        new_ast_node AST_OP_AND [new_ast_leaf_uint 1 1; new_ast_leaf_uint 2 1]]].

(** [int main() { if (1) { break; } }] *)
Definition prog_if_break : ast_node :=
  int_main
    [new_ast_node AST_OP_IF
       [new_ast_leaf_uint 1 1;
        new_ast_node AST_OP_BLOCK [new_ast_node AST_OP_BREAK []]]].

(** [int main() { while (g()) { } }], [g] not declared. *)
Definition prog_while_undefined : ast_node :=
  int_main
    [new_ast_node AST_OP_WHILE
       [new_ast_node AST_OP_FUNC_CALL
          [new_ast_leaf_var_id "g" 1; new_ast_node (AST_OP_OTHER 0) []];
        new_ast_node AST_OP_BLOCK []]].

(** [int main() { break; }] *)
Definition prog_break : ast_node :=
  int_main [new_ast_node AST_OP_BREAK []].

(** [int main() { while (1) { break; } }] *)
Definition prog_while_break : ast_node :=
  int_main
    [new_ast_node AST_OP_WHILE
       [new_ast_leaf_uint 1 1;
        new_ast_node AST_OP_BLOCK [new_ast_node AST_OP_BREAK []]]].

Definition option_eqb {A} (eqb : A -> A -> bool) (x y : option A) : bool :=
  match x, y with
  | Some a, Some b => eqb a b
  | None, None => true
  | _, _ => false
  end.

(** Two [Label *] are equal when they point to the same object. *)
Definition Label_eqb (l1 l2 : Label) : bool :=
  Nat.eqb (label_addr l1) (label_addr l2) &&
  option_eqb String.eqb (label_func l1) (label_func l2) &&
  option_eqb String.eqb (label_name l1) (label_name l2).

(** The labels a Branch or Goto instruction points to. *)
Definition targets (i : Instruction) : list Label :=
  match i with
  | BranchInstruction _ _ _ _ t f tg =>
      option_list t ++ option_list f ++ option_list tg
  | GotoInstruction _ _ tg => option_list tg
  | _ => []
  end.

Definition emitted_labels (l : list Instruction) : list Label :=
  flat_map (fun i => match i with LabelInstruction lb => [lb] | _ => [] end) l.

(** The branch and goto targets that are not among the Label instructions
    of the sequence. *)
Definition targets_not_emitted (l : list Instruction) : list Label :=
  List.filter (fun t => negb (existsb (Label_eqb t) (emitted_labels l)))
    (flat_map targets l).

Definition is_label_named (nm : string) (i : Instruction) : bool :=
  match i with
  | LabelInstruction l =>
      match label_name l with
      | Some n => String.eqb n nm
      | None => false
      end
  | _ => false
  end.

(** How often a label of the given name is emitted in a sequence. *)
Definition count_label (nm : string) (l : list Instruction) : nat :=
  length (List.filter (is_label_named nm) l).

Definition run_state (root : ast_node) (s : GenState) : GenState :=
  match run root s with Some (_, s') => s' | None => s end.

(** Inside [main], with [f(int, int)] registered, the function scope
    entered and [a], [i] declared. *)
Definition state_in_main : GenState :=
  mkGenState
    (mkModule
       (<["f" := mkFunction "f" IntegerType_Int
                   [mkFormalParam IntegerType_Int "x"; mkFormalParam IntegerType_Int "y"]
                   [] None None false 0]>
          (<["main" := mkFunction "main" IntegerType_Int [] [] None None false 0]> ∅))
       [<["i" := LocalVariable 1%nat IntegerType_Int "i"]>
          (<["a" := LocalVariable 0%nat IntegerType_Int "a"]> ∅); ∅]
       (Some "main"))
    0 [] 2%nat [].

(** [a = 1] *)
Definition assign_a_1 : ast_node :=
  new_ast_node AST_OP_ASSIGN [new_ast_leaf_var_id "a" 1; new_ast_leaf_uint 1 1].

(** [while (i < 10) { i = i + 1; }] *)
Definition while_i_lt_10 : ast_node :=
  new_ast_node AST_OP_WHILE
    [new_ast_node AST_OP_LT [new_ast_leaf_var_id "i" 1; new_ast_leaf_uint 10 1];
     new_ast_node AST_OP_BLOCK
       [new_ast_node AST_OP_ASSIGN
          [new_ast_leaf_var_id "i" 1;
           new_ast_node AST_OP_ADD [new_ast_leaf_var_id "i" 1; new_ast_leaf_uint 1 1]]]].

(** [f(1, 2)], [f(1)] and [g(1)] at line 7. *)
Definition call_of (callee : string) (args : list ast_node) : ast_node :=
  new_ast_node AST_OP_FUNC_CALL
    [new_ast_leaf_var_id callee 7; new_ast_node (AST_OP_OTHER 0) args].

Definition call_f_1_2 : ast_node :=
  call_of "f" [new_ast_leaf_uint 1 7; new_ast_leaf_uint 2 7].

Definition call_f_1 : ast_node := call_of "f" [new_ast_leaf_uint 1 7].


(** [int b;] and a declaration statement without declarators. *)
Definition decl_b : ast_node :=
  new_ast_node AST_OP_DECL_STMT
    [new_ast_node AST_OP_VAR_DECL
       [new_ast_leaf_type IntegerType_Int 1; new_ast_leaf_var_id "b" 1]].


(** ** Definedness *)

(** From every state in [P] the computation is defined (the C++ program
    has no undefined behaviour there) and its result satisfies [Q]. *)
Definition defined {A} (P : GenState -> Prop) (m : M A)
    (Q : A -> GenState -> Prop) : Prop :=
  forall s, P s -> exists a s', m s = Some (a, s') /\ Q a s'.

(** Inside function [f]: [f] is the current function, the names in [D]
    are registered, and the label counter is at most [k]. *)
Definition InFunc (f : string) (D : string -> Prop) (k : Z) (s : GenState) : Prop :=
  currentFunc (module s) = Some f /\
  (forall n, D n -> is_Some (functions (module s) !! n)) /\
  labelCount s <= k.

(** A computation that is always defined and touches neither the current
    function, nor the registry, nor the label counter. *)
Definition steady {A} (m : M A) : Prop :=
  forall s, exists a s', m s = Some (a, s') /\
    currentFunc (module s') = currentFunc (module s) /\
    functions (module s') = functions (module s) /\
    labelCount s' = labelCount s.

(** The least number of sons a handler indexes. *)
Definition min_sons (t : ast_operator_type) : nat :=
  match t with
  | AST_OP_IF | AST_OP_WHILE | AST_OP_AND | AST_OP_OR
  | AST_OP_EQ | AST_OP_NE | AST_OP_LT | AST_OP_LE | AST_OP_GT | AST_OP_GE
  | AST_OP_ADD | AST_OP_SUB | AST_OP_MUL | AST_OP_DIV | AST_OP_MOD
  | AST_OP_ASSIGN | AST_OP_FUNC_CALL | AST_OP_VAR_DECL => 2
  | AST_OP_NOT | AST_OP_NEG => 1
  | _ => 0
  end.

Definition is_compile_unit (t : ast_operator_type) : bool :=
  match t with AST_OP_COMPILE_UNIT => true | _ => false end.

Definition is_decl_stmt (t : ast_operator_type) : bool :=
  match t with AST_OP_DECL_STMT => true | _ => false end.

(** What the handlers rely on of the input invariants of section 3.1, for
    a node inside a function body: every node has the sons its handler
    indexes, the children of a DECL_STMT have their type and name, and no
    compile unit is nested. *)
Fixpoint well_formed (node : ast_node) : bool :=
  (min_sons (node_type node) <=? length (sons node))%nat &&
  negb (is_compile_unit (node_type node)) &&
  (if is_decl_stmt (node_type node)
   then forallb (fun c => (2 <=? length (sons c))%nat) (sons node)
   else true) &&
  forallb well_formed (sons node).

Definition makes_labels (t : ast_operator_type) : nat :=
  match t with
  | AST_OP_IF | AST_OP_WHILE | AST_OP_AND | AST_OP_OR => 1
  | _ => 0
  end.

(** The number of nodes below and including [node] whose handler draws
    (three) labels. *)
Fixpoint label_nodes (node : ast_node) : nat :=
  makes_labels (node_type node) + sum_list (label_nodes <$> sons node).

(** The label-making nodes of a list of trees. *)
Definition labels_of (l : list ast_node) : nat := sum_list (label_nodes <$> l).

Arguments labels_of : simpl never.

(** Visiting [c] inside a function is defined, keeps the function current
    and draws at most three labels per label-making node. *)
Definition defined_at (f : string) (D : string -> Prop) (k : Z)
    (node : ast_node) (m : M NodeOut) : Prop :=
  defined (InFunc f D k) m
    (fun _ => InFunc f D (k + 3 * Z.of_nat (label_nodes node))).

Definition defined_inside (m : ast_node -> M NodeOut) (c : ast_node) : Prop :=
  forall f D k, D f ->
    k + 3 * Z.of_nat (label_nodes c) <= INT_MAX -> defined_at f D k c (m c).

(** At top level: no current function, label counter at most [k]. *)
Definition AtTop (k : Z) (s : GenState) : Prop :=
  currentFunc (module s) = None /\ labelCount s <= k.

(** A child of the compile unit: a function definition with its four sons
    and a well-formed body, or a declaration statement whose children have
    their type and name. *)
Definition well_formed_top (c : ast_node) : bool :=
  match node_type c with
  | AST_OP_FUNC_DEF =>
      match sons c with
      | _ :: _ :: _ :: block_node :: _ => well_formed block_node
      | _ => false
      end
  | AST_OP_DECL_STMT => forallb (fun d => (2 <=? length (sons d))%nat) (sons c)
  | _ => false
  end.

(** What a child of the compile unit leaves behind. *)
Definition after_top (k : Z) (r : NodeOut) (s : GenState) : Prop :=
  labelCount s <= k /\ (ok r = true -> currentFunc (module s) = None).

(** ** Notions for the properties of single handlers *)

(** The handlers that start by asking for the current function and return
    [false] when there is none. *)
Definition needs_function (t : ast_operator_type) : bool :=
  match t with
  | AST_OP_IF | AST_OP_WHILE | AST_OP_AND | AST_OP_OR | AST_OP_NOT
  | AST_OP_EQ | AST_OP_NE | AST_OP_LT | AST_OP_LE | AST_OP_GT | AST_OP_GE => true
  | _ => false
  end.

(** The operator the handler of an arithmetic tag passes to
    [BinaryInstruction]. *)
Definition arith_op (t : ast_operator_type) : option IRInstOperator :=
  match t with
  | AST_OP_ADD => Some IRINST_OP_ADD_I
  | AST_OP_SUB => Some IRINST_OP_SUB_I
  | AST_OP_MUL => Some IRINST_OP_MUL_I
  | AST_OP_DIV => Some IRINST_OP_DIV_I
  | AST_OP_MOD => Some IRINST_OP_MOD_I
  | _ => None
  end.

(** The operator the handler of a relational tag passes to [ir_relop]. *)
Definition rel_op (t : ast_operator_type) : option IRInstOperator :=
  match t with
  | AST_OP_EQ => Some IRINST_OP_EQ_I
  | AST_OP_NE => Some IRINST_OP_NE_I
  | AST_OP_LT => Some IRINST_OP_LT_I
  | AST_OP_GT => Some IRINST_OP_GT_I
  | AST_OP_LE => Some IRINST_OP_LE_I
  | AST_OP_GE => Some IRINST_OP_GE_I
  | _ => None
  end.

(** The state after [n] objects more have been created by [new]. *)
Definition allocated (n : nat) (s : GenState) : GenState :=
  mkGenState (module s) (labelCount s) (loop_contexts s) (n + next_addr s)%nat (log s).

(** The state after one more message has gone to the log. *)
Definition logged (e : LogEntry) (s : GenState) : GenState :=
  mkGenState (module s) (labelCount s) (loop_contexts s) (next_addr s) (log s ++ [e]).

(** What [ir_break] and [ir_continue] differ in: the label of the loop
    context they jump to and the message they log outside a loop. *)
Definition loop_jump (t : ast_operator_type)
    : option ((LoopContext -> string) * string) :=
  match t with
  | AST_OP_BREAK => Some (loop_exit_label, "break语句不在循环内部")
  | AST_OP_CONTINUE => Some (loop_entry_label, "continue语句不在循环内部")
  | _ => None
  end.

(** The state after [Module::enterScope], after [Module::leaveScope] and
    after [Module::setCurrentFunction]. *)
Definition scope_entered (s : GenState) : GenState :=
  mkGenState
    (mkModule (functions (module s)) (∅ :: scopeStack (module s))
       (currentFunc (module s)))
    (labelCount s) (loop_contexts s) (next_addr s) (log s).

Definition scope_left (s : GenState) : GenState :=
  mkGenState
    (mkModule (functions (module s)) (tail (scopeStack (module s)))
       (currentFunc (module s)))
    (labelCount s) (loop_contexts s) (next_addr s) (log s).

Definition with_current_function (f : option string) (s : GenState) : GenState :=
  mkGenState (mkModule (functions (module s)) (scopeStack (module s)) f)
    (labelCount s) (loop_contexts s) (next_addr s) (log s).

(** ** Notions for the invariants of the whole visit *)

(** What only grows while the translator runs: the label counter, the
    allocator behind [new], and the log. *)
Definition grows (s s' : GenState) : Prop :=
  labelCount s <= labelCount s' /\
  (next_addr s <= next_addr s')%nat /\
  log s `prefix_of` log s'.

Definition growing {A} (m : M A) : Prop :=
  forall s a s', m s = Some (a, s') -> grows s s'.

(** The scope stack still stands on the frames [T] that were below the top
    frame [top]: above [T] there is a frame that binds at least the names
    [top] bound, and above that at least [n] frames more. *)
Definition scopes_kept (n : nat) (top : gmap string Value)
    (T : list (gmap string Value)) (s : GenState) : Prop :=
  exists pre top',
    scopeStack (module s) = pre ++ top' :: T /\
    (n <= length pre)%nat /\
    (forall id, is_Some (top !! id) -> is_Some (top' !! id)).

(** A computation that leaves the scope stack alone. *)
Definition scope_frame {A} (m : M A) : Prop :=
  forall s a s', m s = Some (a, s') ->
    scopeStack (module s') = scopeStack (module s).

Definition keeps_scopes {A} (top : gmap string Value)
    (T : list (gmap string Value)) (m : M A) : Prop :=
  forall n, hoare (scopes_kept n top T) m (fun _ => scopes_kept n top T).

(** The [BranchInstruction] object behind an instruction of the generator's
    output. *)
Definition as_branch (i : Instruction) : option Branch :=
  match i with
  | BranchInstruction _ func op c t f tg => Some (mkBranch func op VoidType c t f tg)
  | _ => None
  end.

(** A branch as the generator builds them: bt or bf, made by the one-target
    constructor with a target. *)
Definition one_target_branch (i : Instruction) : Prop :=
  match i with
  | BranchInstruction _ func op c t f tg =>
      (op = IRINST_OP_BT \/ op = IRINST_OP_BF) /\
      exists l, mkBranch func op VoidType c t f tg =
                BranchInstruction_bt_bf func op c (Some l)
  | _ => True
  end.

(** The result of a computation, whatever the state, satisfies [phi]. *)
Definition yields {A} (m : M A) (phi : A -> Prop) : Prop :=
  forall s a s', m s = Some (a, s') -> phi a.

(** Every branch in the instructions a handler leaves on its node is such a
    branch. *)
Definition emits_one_target_branches (m : M NodeOut) : Prop :=
  yields m (fun out => Forall one_target_branch (blockInsts out)).

(** Every function of [m] is still in [m'] with the parameters and the
    return type it had. *)
Definition sig_le (m m' : gmap string Function) : Prop :=
  forall n f, m !! n = Some f ->
    exists f', m' !! n = Some f' /\ params f' = params f /\
               returnType f' = returnType f.

(** A computation that keeps the signatures of the registered functions. *)
Definition keeps_signatures {A} (m : M A) : Prop :=
  forall s a s', m s = Some (a, s') ->
    sig_le (functions (module s)) (functions (module s')).

(** A call instruction agrees with its callee as registered in [fs]: as many
    arguments as parameters, and the callee's return type. *)
Definition call_matches (fs : gmap string Function) (i : Instruction) : Prop :=
  match i with
  | FuncCallInstruction _ _ callee args t =>
      exists fn, fs !! callee = Some fn /\ length args = length (params fn) /\
                 t = returnType fn
  | _ => True
  end.

Definition calls_match (L : list Instruction) (s : GenState) : Prop :=
  Forall (call_matches (functions (module s))) L.

Definition call_free (i : Instruction) : Prop :=
  match i with FuncCallInstruction _ _ _ _ _ => False | _ => True end.

(** The instructions a handler leaves on its node hold only matching calls,
    and so do those collected before ([L]). *)
Definition emits_matching_calls (m : M NodeOut) : Prop :=
  forall L, hoare (calls_match L) m (fun out => calls_match (L ++ blockInsts out)).

(** The handlers that do not look at the result of visiting their
    children. *)
Definition ignores_failure (t : ast_operator_type) : bool :=
  match t with
  | AST_OP_IF | AST_OP_WHILE | AST_OP_AND | AST_OP_OR => true
  | _ => false
  end.

(** No node of the tree is handled by such a handler. *)
Fixpoint propagates_failure (node : ast_node) : bool :=
  negb (ignores_failure (node_type node)) &&
  forallb propagates_failure (sons node).

Definition depth_is (d : nat) (s : GenState) : Prop :=
  length (scopeStack (module s)) = d.

Definition depth_ge (d : nat) (s : GenState) : Prop :=
  (d <= length (scopeStack (module s)))%nat.

(** From depth [d] the scope stack ends at least as deep, and at depth [d]
    when the computation succeeds. *)
Definition balanced (m : M NodeOut) : Prop :=
  forall d, hoare (depth_is d) m
              (fun out s => depth_ge d s /\ (ok out = true -> depth_is d s)).

Definition deepens (m : M NodeOut) : Prop :=
  forall d, hoare (depth_ge d) m (fun _ => depth_ge d).

(** ** More example nodes *)

(** [!a], [a + 1], [i < 10], [return a], [x = 1] ([x] is not declared in
    [state_in_main]), [4294967295], [break], [if (a) a = 1;], [a || i],
    [a && i] and [{ a = 1; i = i + 1; }]. *)
Definition not_a : ast_node :=
  new_ast_node AST_OP_NOT [new_ast_leaf_var_id "a" 1].

Definition add_a_1 : ast_node :=
  new_ast_node AST_OP_ADD [new_ast_leaf_var_id "a" 1; new_ast_leaf_uint 1 1].

Definition lt_i_10 : ast_node :=
  new_ast_node AST_OP_LT [new_ast_leaf_var_id "i" 1; new_ast_leaf_uint 10 1].

Definition return_a : ast_node :=
  new_ast_node AST_OP_RETURN [new_ast_leaf_var_id "a" 1].

Definition assign_x_1 : ast_node :=
  new_ast_node AST_OP_ASSIGN [new_ast_leaf_var_id "x" 1; new_ast_leaf_uint 1 1].

Definition literal_4294967295 : ast_node := new_ast_leaf_uint 4294967295 1.

Definition break_node : ast_node := new_ast_node AST_OP_BREAK [].

Definition if_a_assign : ast_node :=
  new_ast_node AST_OP_IF [new_ast_leaf_var_id "a" 1; assign_a_1].

Definition or_a_i : ast_node :=
  new_ast_node AST_OP_OR [new_ast_leaf_var_id "a" 1; new_ast_leaf_var_id "i" 1].

Definition and_a_i : ast_node :=
  new_ast_node AST_OP_AND [new_ast_leaf_var_id "a" 1; new_ast_leaf_var_id "i" 1].

Definition block_two_assigns : ast_node :=
  new_ast_node AST_OP_BLOCK
    [assign_a_1;
     new_ast_node AST_OP_ASSIGN
       [new_ast_leaf_var_id "i" 1;
        new_ast_node AST_OP_ADD [new_ast_leaf_var_id "i" 1; new_ast_leaf_uint 1 1]]].

(** At top level, with [f(int, int)] registered. *)
Definition state_top_with_f : GenState :=
  init_state
    (<["f" := mkFunction "f" IntegerType_Int
                [mkFormalParam IntegerType_Int "x"; mkFormalParam IntegerType_Int "y"]
                [] None None false 0]> ∅).

(** ** Notions and programs for formal parameters, declarations and the log *)

(** [int f(int x) { return x; }] *)
Definition func_returning_formal : ast_node :=
  new_ast_node AST_OP_FUNC_DEF
    [new_ast_leaf_type IntegerType_Int 1; new_ast_leaf_var_id "f" 1;
     new_ast_node AST_OP_FUNC_FORMAL_PARAMS
       [new_ast_node (AST_OP_OTHER 0)
          [new_ast_leaf_type IntegerType_Int 1; new_ast_leaf_var_id "x" 1]];
     new_ast_node AST_OP_BLOCK
       [new_ast_node AST_OP_RETURN [new_ast_leaf_var_id "x" 1]]].

(** [int f(int x) { return x; }  int main() { return f(1); }], the call at
    line 7. *)
Definition prog_call_formal : ast_node :=
  new_ast_node AST_OP_COMPILE_UNIT
    [func_returning_formal;
     new_ast_node AST_OP_FUNC_DEF
       [new_ast_leaf_type IntegerType_Int 2; new_ast_leaf_var_id "main" 2;
        new_ast_node AST_OP_FUNC_FORMAL_PARAMS [];
        new_ast_node AST_OP_BLOCK
          [new_ast_node AST_OP_RETURN [call_f_1]]]].







(** A computation that does not call [minic_log]. *)
Definition log_frame {A} (m : M A) : Prop :=
  forall s a s', m s = Some (a, s') -> log s' = log s.

Definition log_is (l : list LogEntry) (s : GenState) : Prop := log s = l.

(** A handler that has logged nothing when it reports success. *)
Definition silent_on_success (m : M NodeOut) : Prop :=
  forall l, hoare (log_is l) m (fun out s => ok out = true -> log_is l s).

(** [int main() { int b; b = 1; return b; }] *)
Definition prog_decl_return : ast_node :=
  int_main
    [decl_b;
     new_ast_node AST_OP_ASSIGN [new_ast_leaf_var_id "b" 1; new_ast_leaf_uint 1 1];
     new_ast_node AST_OP_RETURN [new_ast_leaf_var_id "b" 1]].

(** * Reasoning about computations *)

Lemma bind_Some {A B} (m : M A) (k : A -> M B) s b s' :
  bind m k s = Some (b, s') <->
  exists a s1, m s = Some (a, s1) /\ k a s1 = Some (b, s').
Proof.
  unfold bind. split.
  - destruct (m s) as [[a s1]|]; [eauto | discriminate].
  - intros (a & s1 & -> & H). exact H.
Qed.

Lemma ret_Some {A} (a b : A) s s' : ret a s = Some (b, s') <-> b = a /\ s' = s.
Proof. unfold ret. split; [intros [= <- <-] | intros [-> ->]]; auto. Qed.

Lemma hoare_ret {A} (P : GenState -> Prop) (a : A) : hoare P (ret a) (fun _ => P).
Proof. intros s b s' HP [-> ->]%ret_Some. exact HP. Qed.

Lemma hoare_crash {A} P (Q : A -> GenState -> Prop) : hoare P crash Q.
Proof. intros s a s' _ H. discriminate H. Qed.

Lemma hoare_bind {A B} P (Q : A -> GenState -> Prop) R (m : M A) (k : A -> M B) :
  hoare P m Q -> (forall a, hoare (Q a) (k a) R) -> hoare P (bind m k) R.
Proof.
  intros Hm Hk s b s' HP (a & s1 & H1 & H2)%bind_Some.
  exact (Hk a s1 b s' (Hm s a s1 HP H1) H2).
Qed.

Lemma hoare_pre {A} (P P' : GenState -> Prop) (m : M A) Q :
  (forall s, P' s -> P s) -> hoare P m Q -> hoare P' m Q.
Proof. intros HPP Hm s a s' HP. apply Hm, HPP, HP. Qed.

Lemma hoare_pre_pure {A} (P : GenState -> Prop) (phi : Prop) (m : M A) Q :
  (phi -> hoare P m Q) -> hoare (fun s => P s /\ phi) m Q.
Proof. intros H s a s' [HP Hphi]. exact (H Hphi s a s' HP). Qed.

Lemma Function_le_refl f : Function_le f f.
Proof. unfold Function_le. intuition lia. Qed.

Lemma Function_le_trans f g h : Function_le f g -> Function_le g h -> Function_le f h.
Proof. unfold Function_le. intuition (try congruence; try lia). Qed.

Lemma funcs_le_refl m : funcs_le m m.
Proof. intros n f H. eauto using Function_le_refl. Qed.


Lemma funcs_le_insert m0 m n fn g :
  funcs_le m0 m -> m !! n = Some fn ->
  m0 !! n = None \/ Function_le fn g ->
  funcs_le m0 (<[n := g]> m).
Proof.
  intros Hle Hn Hg k f Hk.
  destruct (decide (n = k)) as [<- | Hne].
  - rewrite lookup_insert_eq. destruct Hg as [Hnone | Hg]; [congruence |].
    destruct (Hle n f Hk) as (f' & Hf' & Hle').
    exists g. split; [reflexivity |].
    assert (f' = fn) as -> by congruence.
    eauto using Function_le_trans.
  - rewrite lookup_insert_ne by done. eauto.
Qed.

Lemma funcs_le_insert_fresh m0 m n g :
  funcs_le m0 m -> m !! n = None -> funcs_le m0 (<[n := g]> m).
Proof.
  intros Hle Hn k f Hk.
  destruct (decide (n = k)) as [<- | Hne].
  - destruct (Hle n f Hk) as (f' & Hf' & _). congruence.
  - rewrite lookup_insert_ne by done. eauto.
Qed.

Lemma frame_ret {A} (a : A) : frame (ret a).
Proof. intros s b s' [-> ->]%ret_Some. auto. Qed.

Lemma frame_crash {A} : frame (@crash A).
Proof. intros s a s' H. discriminate H. Qed.

Lemma frame_bind {A B} (m : M A) (k : A -> M B) :
  frame m -> (forall a, frame (k a)) -> frame (bind m k).
Proof.
  intros Hm Hk s b s' (a & s1 & H1 & H2)%bind_Some.
  destruct (Hm _ _ _ H1) as [E1 E2]. destruct (Hk _ _ _ _ H2) as [E3 E4].
  split; congruence.
Qed.

Lemma frame_keeps {A} (m : M A) m0 L :
  frame m -> hoare (Inv m0 L) m (fun _ => Inv m0 L).
Proof.
  intros Hm s a s' [Hf Hl] H. destruct (Hm _ _ _ H) as [Ef El].
  unfold Inv. rewrite Ef, El. auto.
Qed.

Ltac frame_prim :=
  let s := fresh "s" in let a := fresh "a" in let s' := fresh "s'" in
  let H := fresh "H" in
  intros s a s' H; cbv beta delta
    [with_module alloc minic_log generateLabel loop_contexts_top
     getCurrentFunction findFunction findVarValue getFunction] in H;
  repeat case_match; simplify_eq; simpl; auto.

Lemma frame_alloc : frame alloc.
Proof. frame_prim. Qed.

Lemma frame_minic_log fmt args : frame (minic_log fmt args).
Proof. frame_prim. Qed.

Lemma frame_generateLabel : frame generateLabel.
Proof. frame_prim. Qed.

Lemma frame_loop_contexts_top : frame loop_contexts_top.
Proof. frame_prim. Qed.

Lemma frame_getCurrentFunction : frame getCurrentFunction.
Proof. frame_prim. Qed.

Lemma frame_setCurrentFunction f : frame (setCurrentFunction f).
Proof. unfold setCurrentFunction. frame_prim. Qed.

Lemma frame_enterScope : frame enterScope.
Proof. unfold enterScope. frame_prim. Qed.

Lemma frame_leaveScope : frame leaveScope.
Proof. unfold leaveScope. frame_prim. Qed.

Lemma frame_findFunction n : frame (findFunction n).
Proof. frame_prim. Qed.

Lemma frame_findVarValue n : frame (findVarValue n).
Proof. frame_prim. Qed.

Lemma frame_getFunction f : frame (getFunction f).
Proof. frame_prim. Qed.

Lemma frame_newConstInt v : frame (newConstInt v).
Proof. apply frame_ret. Qed.

Create HintDb frame.

#[export] Hint Resolve frame_ret frame_crash frame_alloc frame_minic_log
  frame_generateLabel frame_loop_contexts_top frame_getCurrentFunction
  frame_setCurrentFunction frame_enterScope frame_leaveScope frame_findFunction
  frame_findVarValue frame_getFunction frame_newConstInt : frame.

Ltac frame_auto :=
  first
    [ solve [auto with frame]
    | apply frame_bind; [frame_auto | intros ?; frame_auto]
    | match goal with
      | |- frame (if ?b then _ else _) => destruct b; frame_auto
      | |- frame (match ?x with _ => _ end) => destruct x; frame_auto
      end ].

Lemma frame_newVarValue t id : frame (newVarValue t id).
Proof.
  unfold newVarValue.
  apply frame_bind; [frame_auto | intros a].
  apply frame_bind; [frame_auto | intros cur].
  apply frame_bind; [| intros ?; frame_auto].
  destruct (String.eqb id ""); [frame_auto | frame_prim].
Qed.

Lemma frame_getMaxFuncCallArgCnt f : frame (getMaxFuncCallArgCnt f).
Proof. unfold getMaxFuncCallArgCnt. frame_auto. Qed.

Lemma frame_getReturnValue f : frame (getReturnValue f).
Proof. unfold getReturnValue. frame_auto. Qed.

Lemma frame_getExitLabel f : frame (getExitLabel f).
Proof. unfold getExitLabel. frame_auto. Qed.

Lemma frame_getParams f : frame (getParams f).
Proof. unfold getParams. frame_auto. Qed.

Lemma frame_getReturnType f : frame (getReturnType f).
Proof. unfold getReturnType. frame_auto. Qed.

Lemma frame_new_EntryInstruction f : frame (new_EntryInstruction f).
Proof. unfold new_EntryInstruction. frame_auto. Qed.

Lemma frame_new_ExitInstruction f v : frame (new_ExitInstruction f v).
Proof. unfold new_ExitInstruction. frame_auto. Qed.

Lemma frame_new_LabelInstruction f n : frame (new_LabelInstruction f n).
Proof. unfold new_LabelInstruction. frame_auto. Qed.

Lemma frame_new_MoveInstruction f d v : frame (new_MoveInstruction f d v).
Proof. unfold new_MoveInstruction. frame_auto. Qed.

Lemma frame_new_BinaryInstruction f op a b t : frame (new_BinaryInstruction f op a b t).
Proof. unfold new_BinaryInstruction. frame_auto. Qed.

Lemma frame_new_UnaryInstruction f op a t : frame (new_UnaryInstruction f op a t).
Proof. unfold new_UnaryInstruction. frame_auto. Qed.

Lemma frame_new_BranchInstruction f op c l : frame (new_BranchInstruction f op c l).
Proof. unfold new_BranchInstruction. frame_auto. Qed.

Lemma frame_new_GotoInstruction f l : frame (new_GotoInstruction f l).
Proof. unfold new_GotoInstruction. frame_auto. Qed.

Lemma frame_new_FuncCallInstruction f c args t :
  frame (new_FuncCallInstruction f c args t).
Proof. unfold new_FuncCallInstruction. frame_auto. Qed.

#[export] Hint Resolve frame_newVarValue frame_getMaxFuncCallArgCnt
  frame_getReturnValue frame_getExitLabel frame_getParams frame_getReturnType
  frame_new_EntryInstruction frame_new_ExitInstruction frame_new_LabelInstruction
  frame_new_MoveInstruction frame_new_BinaryInstruction frame_new_UnaryInstruction
  frame_new_BranchInstruction frame_new_GotoInstruction
  frame_new_FuncCallInstruction : frame.

Lemma hoare_update_function m0 L f g :
  (forall n fn, f = Some n -> m0 !! n = None \/ Function_le fn (g fn)) ->
  hoare (Inv m0 L) (update_function f g) (fun _ => Inv m0 L).
Proof.
  intros Hg s a s' HI H.
  unfold update_function in H.
  apply bind_Some in H as (fn & s1 & Hget & H).
  unfold getFunction in Hget. destruct f as [n|]; [| discriminate].
  destruct (functions (module s) !! n) eqn:Hn; [| discriminate].
  simplify_eq. unfold with_module in H. simplify_eq.
  destruct HI as [Hle HL]. split; [| exact HL].
  simpl. eapply funcs_le_insert; eauto.
Qed.

Lemma keeps_setExistFuncCall f : keeps (setExistFuncCall f true).
Proof.
  intros m0 L. apply hoare_update_function. intros n fn _. right.
  unfold Function_le. simpl. intuition lia.
Qed.

(** The statistics update of [ir_function_call]: the maximum is only ever
    raised. *)
Lemma keeps_raise_max {A} f c (k : M A) :
  keeps k ->
  keeps (let* mx := getMaxFuncCallArgCnt f in
         let* _ := (if c >? mx then setMaxFuncCallArgCnt f c else ret tt) in k).
Proof.
  intros Hk m0 L s a s' HI H.
  apply bind_Some in H as (mx & s1 & Hmx & H).
  apply bind_Some in H as (u & s2 & Hset & H).
  apply (Hk m0 L s2 a s'); [| exact H]. clear H.
  unfold getMaxFuncCallArgCnt in Hmx.
  apply bind_Some in Hmx as (fn & s0 & Hget & [-> ->]%ret_Some).
  unfold getFunction in Hget. destruct f as [n|]; [| discriminate].
  destruct (functions (module s) !! n) eqn:Hn; [| discriminate]. simplify_eq.
  destruct (Z.gtb_spec c (maxFuncCallArgCnt fn)).
  - unfold setMaxFuncCallArgCnt, update_function in Hset.
    apply bind_Some in Hset as (fn' & s3 & Hget & Hset).
    unfold getFunction in Hget. rewrite Hn in Hget. simplify_eq.
    unfold with_module in Hset. simplify_eq.
    destruct HI as [Hle HL]. split; [| exact HL]. simpl.
    eapply funcs_le_insert; eauto. right.
    unfold Function_le. simpl. intuition lia.
  - apply ret_Some in Hset as [_ ->]. exact HI.
Qed.

Lemma hoare_newFunction m0 L n t :
  hoare (Inv m0 L) (newFunction n t)
    (fun r s => Inv m0 L s /\ (r = None \/ (r = Some n /\ m0 !! n = None))).
Proof.
  intros s r s' HI H. unfold newFunction in H.
  destruct (functions (module s) !! n) eqn:Hn; simplify_eq.
  - split; auto.
  - destruct HI as [Hle HL].
    assert (m0 !! n = None) as Hm0.
    { destruct (m0 !! n) eqn:E; [| reflexivity].
      destruct (Hle _ _ E) as (f' & Hf' & _). congruence. }
    split; [split |]; simpl; auto.
    apply funcs_le_insert_fresh; auto.
Qed.

Lemma hoare_loop_contexts_push m0 L c :
  hoare (Inv m0 L) (loop_contexts_push c) (fun _ => Inv m0 (c :: L)).
Proof.
  intros s a s' HI H. unfold loop_contexts_push in H. simplify_eq.
  destruct HI as [Hle HL]. split; simpl; [exact Hle | by rewrite HL].
Qed.

Lemma hoare_loop_contexts_pop m0 L c :
  hoare (Inv m0 (c :: L)) loop_contexts_pop (fun _ => Inv m0 L).
Proof.
  intros s a s' HI H. unfold loop_contexts_pop in H. simplify_eq.
  destruct HI as [Hle HL]. split; simpl; [exact Hle | by rewrite HL].
Qed.

(** One step of a triple over the invariant. *)
Ltac keeps_visit :=
  match goal with
  | Hs : forall c, c ∈ _ -> _ |- hoare _ (_ ?c) _ =>
      apply Hs; set_solver
  end.

Ltac keeps_prim :=
  first [ apply frame_keeps; solve [frame_auto]
        | apply keeps_setExistFuncCall
        | apply hoare_loop_contexts_push
        | apply hoare_loop_contexts_pop
        | keeps_visit
        | solve [eauto] ].

Ltac keeps_go :=
  lazymatch goal with
  | |- hoare _ (bind _ _) _ =>
      eapply hoare_bind;
        [ first [keeps_prim | keeps_go] | intros ?; cbv beta; keeps_go ]
  | |- hoare _ (ret _) _ => apply hoare_ret
  | |- hoare _ crash _ => apply hoare_crash
  | |- hoare _ (match ?x with _ => _ end) _ =>
      destruct x eqn:?; simplify_eq; keeps_go
  | |- _ => keeps_prim
  end.

Ltac keeps_step :=
  lazymatch goal with
  | |- hoare _ (bind _ _) _ =>
      eapply hoare_bind; [ first [keeps_prim | keeps_go] | intros ?; cbv beta ]
  | |- hoare _ (ret _) _ => apply hoare_ret
  | |- hoare _ crash _ => apply hoare_crash
  | |- hoare _ (match ?x with _ => _ end) _ => destruct x eqn:?; simplify_eq
  end.

Section HandlerInvariants.

Variable visit : ast_node -> M NodeOut.

Lemma keeps_ir_compile_unit_loop l :
  (forall c, c ∈ l -> keeps (visit c)) -> keeps (ir_compile_unit_loop visit l).
Proof.
  induction l as [| c l IH]; intros Hl m0 L; simpl.
  - apply hoare_ret.
  - eapply hoare_bind; [apply Hl; set_solver | intros r; cbv beta].
    destruct (ok r); [| apply hoare_ret].
    apply IH. intros d Hd. apply Hl. set_solver.
Qed.

Lemma keeps_ir_block_loop l insts :
  (forall c, c ∈ l -> keeps (visit c)) -> keeps (ir_block_loop visit l insts).
Proof.
  revert insts. induction l as [| c l IH]; intros insts Hl m0 L; simpl.
  - apply hoare_ret.
  - eapply hoare_bind; [apply Hl; set_solver | intros r; cbv beta].
    destruct (ok r); [| apply hoare_ret].
    apply IH. intros d Hd. apply Hl. set_solver.
Qed.

Lemma keeps_ir_function_call_loop l ps insts :
  (forall c, c ∈ l -> keeps (visit c)) ->
  keeps (ir_function_call_loop visit l ps insts).
Proof.
  revert ps insts. induction l as [| c l IH]; intros ps insts Hl m0 L; simpl.
  - apply hoare_ret.
  - eapply hoare_bind; [apply Hl; set_solver | intros r; cbv beta].
    destruct (ok r); [| apply hoare_ret].
    apply IH. intros d Hd. apply Hl. set_solver.
Qed.

Lemma keeps_ir_variable_declare node : keeps (ir_variable_declare node).
Proof. intros m0 L. unfold ir_variable_declare. repeat keeps_step. Qed.

Lemma keeps_ir_declare_statment_loop l b : keeps (ir_declare_statment_loop l b).
Proof.
  revert b. induction l as [| c l IH]; intros b m0 L; simpl.
  - apply hoare_ret.
  - eapply hoare_bind; [apply keeps_ir_variable_declare | intros r; cbv beta].
    destruct (ok r); [apply IH | apply hoare_ret].
Qed.

Lemma keeps_ir_block ns node :
  (forall c, c ∈ sons node -> keeps (visit c)) -> keeps (ir_block visit ns node).
Proof.
  intros Hs m0 L. unfold ir_block.
  keeps_step. eapply hoare_bind; [apply keeps_ir_block_loop, Hs |].
  intros r; cbv beta. repeat keeps_step.
Qed.

Section OneNode.

Variable node : ast_node.
Hypothesis Hsons : forall c, c ∈ sons node -> keeps (visit c).
Hypothesis Hgrand : forall c d, c ∈ sons node -> d ∈ sons c -> keeps (visit d).

Lemma keeps_ir_compile_unit : keeps (ir_compile_unit visit node).
Proof.
  intros m0 L. unfold ir_compile_unit.
  keeps_step. eapply hoare_bind; [apply keeps_ir_compile_unit_loop, Hsons |].
  intros r. apply hoare_ret.
Qed.

Lemma keeps_ir_function_define : keeps (ir_function_define visit node).
Proof.
  intros m0 L. unfold ir_function_define.
  keeps_step. keeps_step; [apply hoare_ret |].
  repeat (keeps_step; try apply hoare_crash).
  eapply hoare_bind; [apply hoare_newFunction |].
  intros newFunc. cbv beta.
  apply hoare_pre_pure. intros [-> | [-> Hfresh]]; [apply hoare_ret |].
  match type of Hfresh with m0 !! ?n = None =>
    assert (forall g, hoare (Inv m0 L) (update_function (Some n) g)
                        (fun _ => Inv m0 L)) as Hupd
  end.
  { intros g. apply hoare_update_function. intros n fn [= <-]. auto. }
  unfold irCode_addInst, setExitLabel, setReturnValue, ir_function_formal_params.
  repeat first
    [ keeps_step
    | eapply hoare_bind; [apply Hupd | intros ?; cbv beta]
    | eapply hoare_bind;
        [apply keeps_ir_block; intros d Hd; eapply Hgrand; [| exact Hd];
           do 3 apply list_elem_of_further; apply list_elem_of_here
        | intros ?; cbv beta ] ].
Qed.

Lemma keeps_ir_function_call : keeps (ir_function_call visit node).
Proof.
  intros m0 L. unfold ir_function_call.
  repeat (keeps_step; try apply hoare_crash).
  eapply hoare_bind.
  { match goal with
    | |- hoare _ (match sons ?p with _ => _ end) _ =>
        destruct (sons p) as [| x xs] eqn:Hargs
    end; [apply hoare_ret |].
    apply keeps_raise_max. apply keeps_ir_function_call_loop.
    intros d Hd. eapply Hgrand; [| rewrite Hargs; exact Hd].
    apply list_elem_of_further, list_elem_of_here. }
  intros r. cbv beta. repeat keeps_step.
Qed.

Lemma keeps_ir_if : keeps (ir_if visit node).
Proof. intros m0 L. unfold ir_if. repeat keeps_step. Qed.

Lemma keeps_ir_while : keeps (ir_while visit node).
Proof. intros m0 L. unfold ir_while. repeat keeps_step. Qed.

Lemma keeps_ir_break : keeps (ir_break node).
Proof. intros m0 L. unfold ir_break. repeat keeps_step. Qed.

Lemma keeps_ir_continue : keeps (ir_continue node).
Proof. intros m0 L. unfold ir_continue. repeat keeps_step. Qed.

Lemma keeps_ir_and : keeps (ir_and visit node).
Proof. intros m0 L. unfold ir_and. repeat keeps_step. Qed.

Lemma keeps_ir_or : keeps (ir_or visit node).
Proof. intros m0 L. unfold ir_or. repeat keeps_step. Qed.

Lemma keeps_ir_not : keeps (ir_not visit node).
Proof. intros m0 L. unfold ir_not. repeat keeps_step. Qed.

Lemma keeps_ir_relop op : keeps (ir_relop visit op node).
Proof. intros m0 L. unfold ir_relop. repeat keeps_step. Qed.

Lemma keeps_ir_arith op : keeps (ir_arith visit op node).
Proof. intros m0 L. unfold ir_arith. repeat keeps_step. Qed.

Lemma keeps_ir_neg : keeps (ir_neg visit node).
Proof. intros m0 L. unfold ir_neg. repeat keeps_step. Qed.

Lemma keeps_ir_assign : keeps (ir_assign visit node).
Proof. intros m0 L. unfold ir_assign. repeat keeps_step. Qed.

Lemma keeps_ir_return : keeps (ir_return visit node).
Proof. intros m0 L. unfold ir_return. repeat keeps_step. Qed.

Lemma keeps_ir_declare_statment : keeps (ir_declare_statment node).
Proof.
  intros m0 L. unfold ir_declare_statment.
  eapply hoare_bind; [apply keeps_ir_declare_statment_loop |].
  intros r. apply hoare_ret.
Qed.

Lemma keeps_dispatch : keeps (dispatch visit node).
Proof.
  intros m0 L. unfold dispatch.
  destruct (node_type node);
    first
      [ apply keeps_ir_function_call | apply keeps_ir_if | apply keeps_ir_while
      | apply keeps_ir_break | apply keeps_ir_continue | apply keeps_ir_and
      | apply keeps_ir_or | apply keeps_ir_not | apply keeps_ir_relop
      | apply keeps_ir_arith | apply keeps_ir_neg | apply keeps_ir_assign
      | apply keeps_ir_return | apply keeps_ir_declare_statment
      | apply keeps_ir_variable_declare | apply keeps_ir_compile_unit
      | apply keeps_ir_function_define
      | apply keeps_ir_block; exact Hsons
      | apply frame_keeps;
        unfold ir_leaf_node_uint, ir_leaf_node_var_id, ir_leaf_node_type,
          ir_function_formal_params, ir_default; frame_auto ].
Qed.

End OneNode.

End HandlerInvariants.

Lemma height_sons node c : c ∈ sons node -> (height c < height node)%nat.
Proof.
  intros Hc. destruct node as [t ss nm iv ty ln ns]; simpl in *.
  apply (list_elem_of_fmap_2 height) in Hc.
  apply max_list_elem_of_le in Hc. lia.
Qed.

Lemma ir_visit_ast_node_unfold node :
  ir_visit_ast_node node = dispatch ir_visit_ast_node node.
Proof. destruct node; reflexivity. Qed.

(** Visiting any node keeps every registered function (up to its call
    statistics) and gives the loop-context stack back as it was. *)
Theorem keeps_ir_visit_ast_node node : keeps (ir_visit_ast_node node).
Proof.
  assert (forall h node, (height node <= h)%nat -> keeps (ir_visit_ast_node node)) as H.
  { induction h as [| h IH]; intros nd Hh.
    - destruct nd; simpl in Hh; lia.
    - rewrite ir_visit_ast_node_unfold. apply keeps_dispatch.
      + intros c Hc. apply IH. apply height_sons in Hc. lia.
      + intros c d Hc Hd. apply IH.
        apply height_sons in Hc. apply height_sons in Hd. lia. }
  exact (H (height node) node (le_n _)).
Qed.

(** ** The translation is defined on well-formed input *)

Lemma defined_ret {A} (P : GenState -> Prop) (Q : A -> GenState -> Prop) (a : A) :
  (forall s, P s -> Q a s) -> defined P (ret a) Q.
Proof. intros H s HP. exists a, s. split; [reflexivity | auto]. Qed.

Lemma defined_bind {A B} P (Q : A -> GenState -> Prop) R (m : M A) (k : A -> M B) :
  defined P m Q -> (forall a, defined (Q a) (k a) R) -> defined P (bind m k) R.
Proof.
  intros Hm Hk s HP. destruct (Hm s HP) as (a & s1 & H1 & HQ).
  destruct (Hk a s1 HQ) as (b & s2 & H2 & HR).
  exists b, s2. split; [| exact HR]. unfold bind. rewrite H1. exact H2.
Qed.

Lemma defined_pre_pure {A} (P : GenState -> Prop) (phi : Prop) (m : M A) Q :
  (phi -> defined P m Q) -> defined (fun s => P s /\ phi) m Q.
Proof. intros H s [HP Hphi]. exact (H Hphi s HP). Qed.

Lemma defined_weaken {A} (P P' : GenState -> Prop) (Q Q' : A -> GenState -> Prop) m :
  defined P m Q -> (forall s, P' s -> P s) -> (forall a s, Q a s -> Q' a s) ->
  defined P' m Q'.
Proof.
  intros H HP HQ s Hs. destruct (H s (HP s Hs)) as (a & s' & E & Hq). eauto.
Qed.

Lemma defined_post {A} (P : GenState -> Prop) (Q Q' : A -> GenState -> Prop) m :
  defined P m Q -> (forall a s, Q a s -> Q' a s) -> defined P m Q'.
Proof. intros H HQ. eapply defined_weaken; eauto. Qed.

Lemma InFunc_mono f D k k' s : k <= k' -> InFunc f D k s -> InFunc f D k' s.
Proof. unfold InFunc. intuition lia. Qed.

Lemma steady_ret {A} (a : A) : steady (ret a).
Proof. intros s. exists a, s. auto. Qed.

Lemma steady_bind {A B} (m : M A) (k : A -> M B) :
  steady m -> (forall a, steady (k a)) -> steady (bind m k).
Proof.
  intros Hm Hk s. destruct (Hm s) as (a & s1 & H1 & E1 & E2 & E3).
  destruct (Hk a s1) as (b & s2 & H2 & F1 & F2 & F3).
  exists b, s2. unfold bind. rewrite H1. split; [exact H2 |].
  repeat split; congruence.
Qed.

Lemma steady_defined {A} (m : M A) f D k :
  steady m -> defined (InFunc f D k) m (fun _ => InFunc f D k).
Proof.
  intros Hm s (Hc & Hreg & Hk). destruct (Hm s) as (a & s' & H & E1 & E2 & E3).
  exists a, s'. split; [exact H |]. unfold InFunc. rewrite E1, E2, E3. auto.
Qed.

Ltac steady_prim :=
  let s := fresh "s" in
  intros s; eexists _, _; split; [reflexivity | simpl; auto].

Lemma steady_alloc : steady alloc.
Proof. steady_prim. Qed.
Lemma steady_minic_log fmt args : steady (minic_log fmt args).
Proof. steady_prim. Qed.
Lemma steady_loop_contexts_top : steady loop_contexts_top.
Proof. steady_prim. Qed.
Lemma steady_loop_contexts_push c : steady (loop_contexts_push c).
Proof. steady_prim. Qed.
Lemma steady_loop_contexts_pop : steady loop_contexts_pop.
Proof. steady_prim. Qed.
Lemma steady_getCurrentFunction : steady getCurrentFunction.
Proof. steady_prim. Qed.
Lemma steady_enterScope : steady enterScope.
Proof. steady_prim. Qed.
Lemma steady_leaveScope : steady leaveScope.
Proof. steady_prim. Qed.
Lemma steady_findFunction n : steady (findFunction n).
Proof. steady_prim. Qed.
Lemma steady_findVarValue n : steady (findVarValue n).
Proof. steady_prim. Qed.
Lemma steady_newConstInt v : steady (newConstInt v).
Proof. apply steady_ret. Qed.

Create HintDb steady.
#[export] Hint Resolve steady_ret steady_alloc steady_minic_log
  steady_loop_contexts_top steady_loop_contexts_push steady_loop_contexts_pop
  steady_getCurrentFunction steady_enterScope steady_leaveScope
  steady_findFunction steady_findVarValue steady_newConstInt : steady.

Ltac steady_auto :=
  first
    [ solve [auto with steady]
    | apply steady_bind; [steady_auto | intros ?; steady_auto]
    | match goal with
      | |- steady (if ?b then _ else _) => destruct b; steady_auto
      | |- steady (match ?x with _ => _ end) => destruct x; steady_auto
      end ].

Lemma steady_newVarValue t id : steady (newVarValue t id).
Proof.
  unfold newVarValue.
  apply steady_bind; [steady_auto | intros a].
  apply steady_bind; [steady_auto | intros cur].
  apply steady_bind; [| intros ?; steady_auto].
  destruct (String.eqb id ""); [steady_auto | unfold with_module; steady_prim].
Qed.

Lemma steady_new_EntryInstruction f : steady (new_EntryInstruction f).
Proof. unfold new_EntryInstruction. steady_auto. Qed.
Lemma steady_new_ExitInstruction f v : steady (new_ExitInstruction f v).
Proof. unfold new_ExitInstruction. steady_auto. Qed.
Lemma steady_new_LabelInstruction f n : steady (new_LabelInstruction f n).
Proof. unfold new_LabelInstruction. steady_auto. Qed.
Lemma steady_new_MoveInstruction f d v : steady (new_MoveInstruction f d v).
Proof. unfold new_MoveInstruction. steady_auto. Qed.
Lemma steady_new_BinaryInstruction f op a b t : steady (new_BinaryInstruction f op a b t).
Proof. unfold new_BinaryInstruction. steady_auto. Qed.
Lemma steady_new_UnaryInstruction f op a t : steady (new_UnaryInstruction f op a t).
Proof. unfold new_UnaryInstruction. steady_auto. Qed.
Lemma steady_new_BranchInstruction f op c l : steady (new_BranchInstruction f op c l).
Proof. unfold new_BranchInstruction. steady_auto. Qed.
Lemma steady_new_GotoInstruction f l : steady (new_GotoInstruction f l).
Proof. unfold new_GotoInstruction. steady_auto. Qed.
Lemma steady_new_FuncCallInstruction f c args t :
  steady (new_FuncCallInstruction f c args t).
Proof. unfold new_FuncCallInstruction. steady_auto. Qed.

#[export] Hint Resolve steady_newVarValue steady_new_EntryInstruction
  steady_new_ExitInstruction steady_new_LabelInstruction steady_new_MoveInstruction
  steady_new_BinaryInstruction steady_new_UnaryInstruction
  steady_new_BranchInstruction steady_new_GotoInstruction
  steady_new_FuncCallInstruction : steady.

Lemma defined_generateLabel f D k :
  k < INT_MAX ->
  defined (InFunc f D k) generateLabel (fun _ => InFunc f D (k + 1)).
Proof.
  intros Hk s (Hc & Hreg & Hl). unfold generateLabel.
  destruct (Z.ltb_spec (labelCount s) INT_MAX); [| lia].
  eexists _, _. split; [reflexivity |]. unfold InFunc. simpl. repeat split; auto. lia.
Qed.

Lemma defined_getCurrentFunction f D k :
  defined (InFunc f D k) getCurrentFunction (fun r s => InFunc f D k s /\ r = Some f).
Proof.
  intros s HI. exists (currentFunc (module s)), s. split; [reflexivity |].
  split; [exact HI | apply HI].
Qed.

Lemma defined_getFunction f D k n :
  D n -> defined (InFunc f D k) (getFunction (Some n)) (fun _ => InFunc f D k).
Proof.
  intros Hn s HI. destruct HI as (Hc & Hreg & Hl).
  destruct (Hreg n Hn) as [fn Hfn]. exists fn, s. unfold getFunction. rewrite Hfn.
  split; [reflexivity |]. unfold InFunc. auto.
Qed.

Lemma defined_getter {A} f D k n (g : Function -> A) :
  D n ->
  defined (InFunc f D k) (let* fn := getFunction (Some n) in ret (g fn))
    (fun _ => InFunc f D k).
Proof.
  intros Hn. eapply defined_bind; [by apply defined_getFunction | intros fn].
  apply defined_ret. auto.
Qed.

Lemma defined_update_function f D k n g :
  D n -> defined (InFunc f D k) (update_function (Some n) g) (fun _ => InFunc f D k).
Proof.
  intros Hn s HI. destruct HI as (Hc & Hreg & Hl).
  destruct (Hreg n Hn) as [fn Hfn].
  eexists tt, _. unfold update_function, bind, getFunction, with_module.
  rewrite Hfn. split; [reflexivity |]. unfold InFunc. simpl.
  repeat split; auto. intros m Hm.
  destruct (decide (n = m)) as [-> | Hne].
  - rewrite lookup_insert_eq. eauto.
  - rewrite lookup_insert_ne by done. auto.
Qed.

Lemma defined_findFunction f D k n :
  defined (InFunc f D k) (findFunction n)
    (fun r s => (r = None /\ InFunc f D k s) \/
                (r = Some n /\ InFunc f (fun m => D m \/ m = n) k s)).
Proof.
  intros s HI. unfold findFunction. eexists _, s. split; [reflexivity |].
  destruct (functions (module s) !! n) eqn:E; [right | left; auto].
  split; [reflexivity |]. destruct HI as (Hc & Hreg & Hl).
  unfold InFunc. repeat split; auto. intros m [Hm | ->]; eauto.
Qed.

Lemma InFunc_drop f D k n s :
  InFunc f (fun m => D m \/ m = n) k s -> InFunc f D k s.
Proof.
  intros (Hc & Hreg & Hl). unfold InFunc. repeat split; auto.
Qed.

Lemma defined_pre_or {A} (P1 P2 : GenState -> Prop) (m : M A) Q :
  defined P1 m Q -> defined P2 m Q -> defined (fun s => P1 s \/ P2 s) m Q.
Proof. intros H1 H2 s [H | H]; eauto. Qed.

Lemma defined_pre_pure_l {A} (P : GenState -> Prop) (phi : Prop) (m : M A) Q :
  (phi -> defined P m Q) -> defined (fun s => phi /\ P s) m Q.
Proof. intros H s [Hphi HP]. exact (H Hphi s HP). Qed.

Lemma label_nodes_unfold node :
  label_nodes node = (makes_labels (node_type node) + labels_of (sons node))%nat.
Proof. destruct node; reflexivity. Qed.

Lemma labels_of_nil : labels_of [] = 0%nat.
Proof. reflexivity. Qed.

Lemma labels_of_cons c l : labels_of (c :: l) = (label_nodes c + labels_of l)%nat.
Proof. reflexivity. Qed.

Lemma well_formed_unfold node :
  well_formed node =
  (min_sons (node_type node) <=? length (sons node))%nat &&
  negb (is_compile_unit (node_type node)) &&
  (if is_decl_stmt (node_type node)
   then forallb (fun c => (2 <=? length (sons c))%nat) (sons node)
   else true) &&
  forallb well_formed (sons node).
Proof. destruct node; reflexivity. Qed.

Lemma well_formed_sons node c :
  well_formed node = true -> c ∈ sons node -> well_formed c = true.
Proof.
  rewrite well_formed_unfold. intros H Hc.
  apply andb_prop in H as [_ H]. rewrite forallb_forall in H.
  apply H. by apply list_elem_of_In.
Qed.

Lemma well_formed_arity node :
  well_formed node = true -> (min_sons (node_type node) <= length (sons node))%nat.
Proof.
  rewrite well_formed_unfold. intros H.
  apply andb_prop in H as [H _]. apply andb_prop in H as [H _].
  apply andb_prop in H as [H _]. by apply Nat.leb_le.
Qed.

Lemma sum_list_elem_of (l : list nat) x : x ∈ l -> (x <= sum_list l)%nat.
Proof.
  induction 1 as [| y z l Hx IH]; simpl; lia.
Qed.

Lemma label_nodes_sons node c :
  c ∈ sons node -> (label_nodes c <= label_nodes node)%nat.
Proof.
  intros Hc. rewrite (label_nodes_unfold node).
  apply (list_elem_of_fmap_2 label_nodes) in Hc.
  apply sum_list_elem_of in Hc. unfold labels_of. lia.
Qed.

Ltac defined_visit :=
  match goal with
  | Hs : forall c, c ∈ _ -> defined_inside _ c |- defined _ (_ ?c) _ =>
      apply Hs; [set_solver | cbv beta; auto | lia]
  | Hs : defined_inside _ ?c |- defined _ (_ ?c) _ =>
      apply Hs; [cbv beta; auto | lia]
  end.

Ltac defined_prim :=
  first [ apply steady_defined; solve [steady_auto]
        | defined_visit
        | apply defined_getFunction; cbv beta; solve [auto]
        | apply defined_getter; cbv beta; solve [auto]
        | apply defined_update_function; cbv beta; solve [auto] ].

Ltac defined_done :=
  apply defined_ret; intros ? ?; eapply InFunc_mono; [| eassumption]; lia.

Ltac defined_step :=
  lazymatch goal with
  | |- defined _ (bind getCurrentFunction _) _ =>
      eapply defined_bind;
        [ apply defined_getCurrentFunction
        | intros ?; cbv beta; apply defined_pre_pure; intros -> ]
  | |- defined _ (bind generateLabel _) _ =>
      eapply defined_bind; [apply defined_generateLabel; lia | intros ?; cbv beta]
  | |- defined _ (bind _ _) _ =>
      eapply defined_bind; [defined_prim | intros ?; cbv beta]
  | |- defined _ (ret _) _ => defined_done
  | |- defined _ (if ?b then _ else _) _ => destruct b eqn:?
  | |- defined _ (match ?x with _ => _ end) _ => destruct x eqn:?; simplify_eq
  end.

Section HandlersDefined.

Variable visit : ast_node -> M NodeOut.

Lemma ir_block_loop_defined l f D k insts :
  D f ->
  (forall c, c ∈ l -> defined_inside visit c) ->
  k + 3 * Z.of_nat (labels_of l) <= INT_MAX ->
  defined (InFunc f D k) (ir_block_loop visit l insts)
    (fun _ => InFunc f D (k + 3 * Z.of_nat (labels_of l))).
Proof.
  intros HD. revert k insts. induction l as [| c l IH]; intros k insts Hl Hk;
    cbn [ir_block_loop]; rewrite ?labels_of_nil, ?labels_of_cons in *.
  - defined_done.
  - defined_step. defined_step; [| defined_done].
    eapply defined_post; [apply IH |].
    + intros d Hd. apply Hl. set_solver.
    + lia.
    + intros ? s. cbv beta. apply InFunc_mono. lia.
Qed.

Lemma ir_function_call_loop_defined l f D k ps insts :
  D f ->
  (forall c, c ∈ l -> defined_inside visit c) ->
  k + 3 * Z.of_nat (labels_of l) <= INT_MAX ->
  defined (InFunc f D k) (ir_function_call_loop visit l ps insts)
    (fun _ => InFunc f D (k + 3 * Z.of_nat (labels_of l))).
Proof.
  intros HD. revert k ps insts.
  induction l as [| c l IH]; intros k ps insts Hl Hk;
    cbn [ir_function_call_loop]; rewrite ?labels_of_nil, ?labels_of_cons in *.
  - defined_done.
  - defined_step. defined_step; [| defined_done].
    eapply defined_post; [apply IH |].
    + intros d Hd. apply Hl. set_solver.
    + lia.
    + intros ? s. cbv beta. apply InFunc_mono. lia.
Qed.

Lemma steady_ir_variable_declare c :
  (2 <= length (sons c))%nat -> steady (ir_variable_declare c).
Proof.
  intros Hc. unfold ir_variable_declare.
  destruct (sons c) as [| t [| n rest]]; simpl in Hc; try lia. steady_auto.
Qed.

Lemma steady_ir_declare_statment_loop l b :
  forallb (fun c => (2 <=? length (sons c))%nat) l = true ->
  steady (ir_declare_statment_loop l b).
Proof.
  revert b. induction l as [| c l IH]; intros b Hl;
    cbn [ir_declare_statment_loop forallb] in *.
  - steady_auto.
  - apply andb_prop in Hl as [Hc Hl]. apply Nat.leb_le in Hc.
    apply steady_bind; [by apply steady_ir_variable_declare | intros r].
    destruct (ok r); [by apply IH | steady_auto].
Qed.

Section OneNode.

Variable node : ast_node.
Variable f : string.
Variable D : string -> Prop.
Variable k : Z.
Hypothesis HD : D f.
Hypothesis Hwf : well_formed node = true.
Hypothesis Hsons : forall c, c ∈ sons node -> defined_inside visit c.
Hypothesis Hgrand :
  forall c d, c ∈ sons node -> d ∈ sons c -> defined_inside visit d.
Hypothesis Hbound : k + 3 * Z.of_nat (label_nodes node) <= INT_MAX.

Ltac node_facts Htag :=
  let HL := fresh "HL" in
  let Ha := fresh "Ha" in
  pose proof (label_nodes_unfold node) as HL;
  pose proof (well_formed_arity node Hwf) as Ha;
  rewrite Htag in HL, Ha; simpl in Ha;
  unfold defined_at.

Ltac split_sons :=
  let Hsn := fresh "Hsn" in
  match goal with
  | Ha : (_ <= length (sons node))%nat |- _ =>
      destruct (sons node) as [| ? [| ? ?]] eqn:Hsn; simpl in Ha; try lia
  end;
  match goal with
  | HL : label_nodes node = _ |- _ =>
      rewrite ?labels_of_nil, ?labels_of_cons in HL; cbn [makes_labels] in HL
  end.

Lemma ir_if_defined : node_type node = AST_OP_IF -> defined_at f D k node (ir_if visit node).
Proof.
  intros Htag. node_facts Htag. split_sons. unfold ir_if. rewrite Hsn in *.
  do 11 defined_step.
  match goal with
  | |- defined (InFunc _ _ ?k0) _ _ =>
      eapply defined_bind with (Q := fun _ => InFunc f D (k0 + 3 * Z.of_nat (labels_of l)))
  end.
  - destruct l as [| e l']; rewrite ?labels_of_nil, ?labels_of_cons in *.
    + defined_done.
    + defined_step. defined_done.
  - intros ?. cbv beta. repeat defined_step.
Qed.

Lemma ir_while_defined : node_type node = AST_OP_WHILE -> defined_at f D k node (ir_while visit node).
Proof.
  intros Htag. node_facts Htag. split_sons. unfold ir_while. rewrite Hsn in *.
  repeat defined_step.
Qed.

Lemma ir_and_defined : node_type node = AST_OP_AND -> defined_at f D k node (ir_and visit node).
Proof.
  intros Htag. node_facts Htag. split_sons. unfold ir_and. rewrite Hsn in *.
  repeat defined_step.
Qed.

Lemma ir_or_defined : node_type node = AST_OP_OR -> defined_at f D k node (ir_or visit node).
Proof.
  intros Htag. node_facts Htag. split_sons. unfold ir_or. rewrite Hsn in *.
  repeat defined_step.
Qed.

Lemma ir_break_defined : defined_at f D k node (ir_break node).
Proof. unfold defined_at. unfold ir_break. repeat defined_step. Qed.

Lemma ir_continue_defined : defined_at f D k node (ir_continue node).
Proof. unfold defined_at. unfold ir_continue. repeat defined_step. Qed.

Lemma ir_not_defined : node_type node = AST_OP_NOT -> defined_at f D k node (ir_not visit node).
Proof.
  intros Htag. node_facts Htag.
  destruct (sons node) as [| c rest] eqn:Hsn; simpl in Ha; [lia |].
  rewrite labels_of_cons in HL.
  unfold ir_not. rewrite Hsn in *. repeat defined_step.
Qed.

Lemma ir_relop_defined op :
  min_sons (node_type node) = 2%nat -> defined_at f D k node (ir_relop visit op node).
Proof.
  intros Htag. pose proof (label_nodes_unfold node) as HL.
  pose proof (well_formed_arity node Hwf) as Ha. rewrite Htag in Ha.
  unfold defined_at.
  destruct (sons node) as [| c1 [| c2 rest]] eqn:Hsn; simpl in Ha; try lia.
  rewrite !labels_of_cons in HL.
  unfold ir_relop. rewrite Hsn in *. repeat defined_step.
Qed.

Lemma ir_arith_defined op :
  min_sons (node_type node) = 2%nat -> defined_at f D k node (ir_arith visit op node).
Proof.
  intros Htag. pose proof (label_nodes_unfold node) as HL.
  pose proof (well_formed_arity node Hwf) as Ha. rewrite Htag in Ha.
  unfold defined_at.
  destruct (sons node) as [| c1 [| c2 rest]] eqn:Hsn; simpl in Ha; try lia.
  rewrite !labels_of_cons in HL.
  unfold ir_arith. rewrite Hsn in *. repeat defined_step.
Qed.

Lemma ir_assign_defined :
  node_type node = AST_OP_ASSIGN -> defined_at f D k node (ir_assign visit node).
Proof.
  intros Htag. node_facts Htag. split_sons. unfold ir_assign. rewrite Hsn in *.
  repeat defined_step.
Qed.

Lemma ir_neg_defined : node_type node = AST_OP_NEG -> defined_at f D k node (ir_neg visit node).
Proof.
  intros Htag. node_facts Htag.
  destruct (sons node) as [| c rest] eqn:Hsn; simpl in Ha; [lia |].
  rewrite labels_of_cons in HL.
  unfold ir_neg. rewrite Hsn in *. repeat defined_step.
Qed.

Lemma ir_return_defined : defined_at f D k node (ir_return visit node).
Proof.
  pose proof (label_nodes_unfold node) as HL. unfold defined_at.
  unfold ir_return, getReturnValue, getExitLabel.
  destruct (sons node) as [| c rest] eqn:Hsn; rewrite ?labels_of_cons in HL;
    rewrite ?Hsn in *; repeat defined_step.
Qed.

Lemma ir_block_defined ns : defined_at f D k node (ir_block visit ns node).
Proof.
  pose proof (label_nodes_unfold node) as HL. unfold defined_at.
  unfold ir_block. defined_step.
  eapply defined_bind; [apply ir_block_loop_defined; [exact HD | exact Hsons | lia] |].
  intros r. cbv beta. repeat defined_step.
Qed.

Lemma ir_declare_statment_defined :
  node_type node = AST_OP_DECL_STMT -> defined_at f D k node (ir_declare_statment node).
Proof.
  intros Htag. unfold defined_at. unfold ir_declare_statment.
  assert (forallb (fun c => (2 <=? length (sons c))%nat) (sons node) = true) as Hc.
  { pose proof Hwf as H. rewrite well_formed_unfold, Htag in H.
    apply andb_prop in H as [H _]. apply andb_prop in H as [_ H]. exact H. }
  eapply defined_bind;
    [apply steady_defined, steady_ir_declare_statment_loop, Hc | intros r; cbv beta].
  defined_done.
Qed.

Lemma ir_variable_declare_defined :
  node_type node = AST_OP_VAR_DECL -> defined_at f D k node (ir_variable_declare node).
Proof.
  intros Htag. node_facts Htag.
  eapply defined_post; [apply steady_defined, steady_ir_variable_declare, Ha |].
  intros ? s. cbv beta. apply InFunc_mono. lia.
Qed.

Lemma ir_function_define_defined : defined_at f D k node (ir_function_define visit node).
Proof. unfold defined_at. unfold ir_function_define. repeat defined_step. Qed.

Lemma ir_function_call_defined :
  node_type node = AST_OP_FUNC_CALL -> defined_at f D k node (ir_function_call visit node).
Proof.
  intros Htag. node_facts Htag. split_sons. unfold ir_function_call.
  rewrite Hsn in *. defined_step.
  eapply defined_bind; [apply defined_findFunction | intros callee; cbv beta].
  apply defined_pre_or; apply defined_pre_pure_l; intros ->; [repeat defined_step |].
  pose proof (label_nodes_unfold a0) as HLp.
  eapply defined_post with
    (Q := fun _ => InFunc f (fun m => D m \/ m = name a) _);
    [| intros ? s; cbv beta; apply InFunc_drop].
  unfold setExistFuncCall. defined_step.
  eapply defined_bind with
    (Q := fun _ => InFunc f (fun m => D m \/ m = name a)
                     (k + 3 * Z.of_nat (labels_of (sons a0)))).
  { destruct (sons a0) as [| x xs] eqn:Hargs; [defined_done |].
    unfold getMaxFuncCallArgCnt, setMaxFuncCallArgCnt.
    defined_step.
    eapply defined_bind with
      (Q := fun _ => InFunc f (fun m => D m \/ m = name a) k).
    { match goal with |- defined _ (if ?b then _ else _) _ => destruct b end;
        [apply defined_update_function; auto | apply defined_ret; auto]. }
    intros ?. apply ir_function_call_loop_defined; [cbv beta; auto | | lia].
    intros d Hd. apply (Hgrand a0 d); [| by rewrite Hargs].
    apply list_elem_of_further, list_elem_of_here. }
  intros r. cbv beta. unfold getParams, getReturnType. repeat defined_step.
Qed.

Lemma defined_dispatch : defined_at f D k node (dispatch visit node).
Proof.
  unfold dispatch. destruct (node_type node) eqn:Htag;
    first
      [ apply ir_if_defined; exact Htag | apply ir_while_defined; exact Htag
      | apply ir_and_defined; exact Htag | apply ir_or_defined; exact Htag
      | apply ir_break_defined | apply ir_continue_defined
      | apply ir_not_defined; exact Htag
      | apply ir_relop_defined; rewrite Htag; reflexivity
      | apply ir_arith_defined; rewrite Htag; reflexivity
      | apply ir_neg_defined; exact Htag | apply ir_assign_defined; exact Htag
      | apply ir_return_defined | apply ir_block_defined
      | apply ir_declare_statment_defined; exact Htag
      | apply ir_variable_declare_defined; exact Htag
      | apply ir_function_define_defined
      | apply ir_function_call_defined; exact Htag
      | idtac ].
  all: try (unfold defined_at;
            unfold ir_leaf_node_uint, ir_leaf_node_var_id, ir_leaf_node_type,
              ir_function_formal_params, ir_default;
            solve [repeat defined_step]).
  pose proof Hwf as H. rewrite well_formed_unfold, Htag in H.
  apply andb_prop in H as [H _]. apply andb_prop in H as [H _].
  apply andb_prop in H as [_ H]. discriminate.
Qed.

End OneNode.
End HandlersDefined.

(** Inside a function, visiting a well-formed node is defined as long as
    the label counter cannot overflow: the translation has no undefined
    behaviour there. *)
Theorem ir_visit_ast_node_defined node :
  well_formed node = true -> defined_inside ir_visit_ast_node node.
Proof.
  assert (forall h node, (height node <= h)%nat -> well_formed node = true ->
            defined_inside ir_visit_ast_node node) as H.
  { induction h as [| h IH]; intros nd Hh Hwf.
    - destruct nd; simpl in Hh; lia.
    - intros f D k HD Hk. rewrite ir_visit_ast_node_unfold.
      apply defined_dispatch; auto.
      + intros c Hc. apply IH.
        * apply height_sons in Hc. lia.
        * eapply well_formed_sons; eauto.
      + intros c d Hc Hd. apply IH.
        * apply height_sons in Hc. apply height_sons in Hd. lia.
        * eapply well_formed_sons; [| exact Hd]. eapply well_formed_sons; eauto. }
  intros Hwf. exact (H (height node) node (le_n _) Hwf).
Qed.

Lemma steady_defined_top {A} (m : M A) k :
  steady m -> defined (AtTop k) m (fun _ => AtTop k).
Proof.
  intros Hm s (Hc & Hk). destruct (Hm s) as (a & s' & H & E1 & E2 & E3).
  exists a, s'. split; [exact H |]. unfold AtTop. rewrite E1, E3. auto.
Qed.

Lemma defined_newFunction_top k n t :
  defined (AtTop k) (newFunction n t)
    (fun r s => (r = None /\ AtTop k s) \/
                (r = Some n /\ AtTop k s /\ is_Some (functions (module s) !! n))).
Proof.
  intros s [Hc Hk]. unfold newFunction.
  destruct (functions (module s) !! n) eqn:E; eexists _, _;
    (split; [reflexivity |]); [left | right]; unfold AtTop; simpl; auto.
  repeat split; auto. rewrite lookup_insert_eq. eauto.
Qed.

Lemma defined_enter_function k n :
  defined (fun s => AtTop k s /\ is_Some (functions (module s) !! n))
    (setCurrentFunction (Some n)) (fun _ => InFunc n (eq n) k).
Proof.
  intros s [[Hc Hk] Hn]. eexists tt, _. split; [reflexivity |].
  unfold InFunc. simpl. repeat split; auto. by intros m <-.
Qed.

Lemma defined_leave_function f D k :
  defined (InFunc f D k) (setCurrentFunction None) (fun _ => AtTop k).
Proof.
  intros s (Hc & Hreg & Hk). eexists tt, _. split; [reflexivity |].
  unfold AtTop. simpl. auto.
Qed.

Lemma after_top_failed f D k k' insts v s :
  k <= k' -> InFunc f D k s -> after_top k' (mkOut false insts v) s.
Proof. intros Hk (Hc & Hreg & Hl). split; [lia | discriminate]. Qed.

Lemma ir_function_define_top_defined node k :
  well_formed_top node = true -> node_type node = AST_OP_FUNC_DEF ->
  k + 3 * Z.of_nat (label_nodes node) <= INT_MAX ->
  defined (AtTop k) (ir_function_define ir_visit_ast_node node)
    (after_top (k + 3 * Z.of_nat (label_nodes node))).
Proof.
  intros Hwf Htag Hk. unfold well_formed_top in Hwf. rewrite Htag in Hwf.
  destruct (sons node) as [| t [| n [| p [| b rest]]]] eqn:Hsn; try discriminate.
  assert (label_nodes b <= label_nodes node)%nat as Hb.
  { apply label_nodes_sons. rewrite Hsn. set_solver. }
  pose proof (label_nodes_unfold b) as HLb.
  unfold ir_function_define. rewrite Hsn.
  eapply defined_bind with (Q := fun r s => AtTop k s /\ r = None).
  { intros s HI. exists (currentFunc (module s)), s. split; [reflexivity |].
    split; [exact HI | apply HI]. }
  intros cur. apply defined_pre_pure. intros ->.
  eapply defined_bind; [apply defined_newFunction_top | intros newFunc; cbv beta].
  apply defined_pre_or; apply defined_pre_pure_l; intros ->.
  { apply defined_ret. intros s [Hc Hl]. split; [lia | discriminate]. }
  eapply defined_bind; [apply defined_enter_function | intros ?; cbv beta].
  assert (eq (name n) (name n)) as HD by reflexivity.
  unfold irCode_addInst, setExitLabel, setReturnValue, ir_function_formal_params.
  do 6 defined_step.
  match goal with |- defined _ (if ?b then _ else _) _ => destruct b end.
  { apply defined_ret. intros s. apply after_top_failed. lia. }
  do 2 defined_step.
  eapply defined_bind.
  { apply (ir_block_defined ir_visit_ast_node b (name n) (eq (name n)) k HD).
    - intros c Hc. apply ir_visit_ast_node_defined.
      eapply well_formed_sons; eauto.
    - lia. }
  intros br. cbv beta.
  destruct (negb (ok br)).
  { apply defined_ret. intros s. apply after_top_failed. lia. }
  do 4 defined_step.
  eapply defined_bind; [apply defined_leave_function | intros ?; cbv beta].
  eapply defined_bind; [apply steady_defined_top; steady_auto | intros ?; cbv beta].
  apply defined_ret. intros s [Hc Hl]. split; [lia | auto].
Qed.

Lemma ir_compile_unit_loop_defined l k :
  forallb well_formed_top l = true ->
  k + 3 * Z.of_nat (labels_of l) <= INT_MAX ->
  defined (AtTop k) (ir_compile_unit_loop ir_visit_ast_node l)
    (fun _ s => labelCount s <= k + 3 * Z.of_nat (labels_of l)).
Proof.
  revert k. induction l as [| c l IH]; intros k Hl Hk;
    cbn [ir_compile_unit_loop forallb] in *;
    rewrite ?labels_of_nil, ?labels_of_cons in *.
  - apply defined_ret. intros s [_ H]. lia.
  - apply andb_prop in Hl as [Hc Hl].
    eapply defined_bind with
      (Q := after_top (k + 3 * Z.of_nat (label_nodes c))).
    + rewrite ir_visit_ast_node_unfold. unfold dispatch.
      pose proof Hc as Hc'. unfold well_formed_top in Hc'.
      destruct (node_type c) eqn:Htag; try discriminate.
      * apply ir_function_define_top_defined; auto. lia.
      * unfold ir_declare_statment.
        eapply defined_bind;
          [apply steady_defined_top, steady_ir_declare_statment_loop, Hc' |].
        intros r. apply defined_ret. intros s [Hcur Hlab]. split; [lia | auto].
    + intros r. destruct (ok r) eqn:Hok.
      * eapply defined_weaken; [apply (IH (k + 3 * Z.of_nat (label_nodes c))) | |].
        -- exact Hl.
        -- lia.
        -- intros s [Hlab Hcur]. split; auto.
        -- intros ? s. cbv beta. lia.
      * apply defined_ret. intros s [Hlab _]. lia.
Qed.

(** X1. [run] returns on every well-formed compile unit: when the root is a
    compile unit whose children are well-formed function definitions and
    declaration statements, and the label counter leaves room for three
    labels per label-making node, [run] has a result (no null pointer is
    dereferenced, no son is missing and the counter does not overflow). *)
Theorem run_defined root s :
  node_type root = AST_OP_COMPILE_UNIT ->
  forallb well_formed_top (sons root) = true ->
  labelCount s + 3 * Z.of_nat (label_nodes root) <= INT_MAX ->
  exists b s', run root s = Some (b, s').
Proof.
  intros Htag Hwf Hk.
  pose proof (label_nodes_unfold root) as HL. rewrite Htag in HL. simpl in HL.
  assert (defined (fun s0 => s0 = s) (run root) (fun _ _ => True)) as H.
  { unfold run. rewrite ir_visit_ast_node_unfold. unfold dispatch.
    rewrite Htag. unfold ir_compile_unit.
    eapply defined_bind with (Q := fun _ _ => True);
      [| intros r; apply defined_ret; auto].
    eapply defined_bind with (Q := fun _ => AtTop (labelCount s)).
    { intros s0 ->. eexists tt, _. split; [reflexivity |].
      unfold AtTop. simpl. split; [reflexivity | lia]. }
    intros ?. cbv beta. eapply defined_bind;
      [apply ir_compile_unit_loop_defined; [exact Hwf | lia] |].
    intros r. apply defined_ret. auto. }
  destruct (H s eq_refl) as (b & s' & E & _). eauto.
Qed.


(** ** Symbolic execution *)

(** Symbolic execution of a defined computation in a hypothesis. *)
Ltac exec_unfold H :=
  cbv beta iota zeta delta
    [bind ret crash alloc with_module minic_log loop_contexts_push
     loop_contexts_pop loop_contexts_top getCurrentFunction setCurrentFunction
     enterScope leaveScope findFunction findVarValue newConstInt
     new_EntryInstruction new_ExitInstruction new_LabelInstruction
     new_MoveInstruction new_BinaryInstruction new_UnaryInstruction
     new_BranchInstruction new_GotoInstruction new_FuncCallInstruction
     as_value inst_addr] in H;
  cbn [ok blockInsts val fst snd negb orb andb module labelCount loop_contexts
       next_addr log functions scopeStack currentFunc label_addr
       fname returnType params code exitLabel returnValue existFuncCall
       maxFuncCallArgCnt] in H.

Ltac innermost_scrutinee x k :=
  lazymatch x with
  | match ?y with _ => _ end => innermost_scrutinee y k
  | match ?y with _ => _ end _ => innermost_scrutinee y k
  | _ => k x
  end.

Ltac exec_destruct post H y :=
  let E := fresh "E" in
  lazymatch type of y with
  | option (_ * _) => destruct y as [[? ?] |] eqn:E
  | _ => destruct y eqn:E
  end;
  try discriminate H; post E.

Ltac exec_with post H :=
  repeat first
    [ progress (exec_unfold H)
    | progress (rewrite lookup_insert_eq in H)
    | match type of H with
      | match ?x with _ => _ end = Some _ =>
          innermost_scrutinee x ltac:(fun y => exec_destruct post H y)
      | match ?x with _ => _ end _ = Some _ =>
          innermost_scrutinee x ltac:(fun y => exec_destruct post H y)
      end ].

Ltac exec_in H := exec_with ltac:(fun E => idtac) H.

Lemma generateLabel_Some s l s' :
  generateLabel s = Some (l, s') ->
  l = "L" +:+ pretty (labelCount s) /\ labelCount s < INT_MAX /\
  s' = mkGenState (module s) (labelCount s + 1) (loop_contexts s) (next_addr s) (log s).
Proof.
  unfold generateLabel. destruct (Z.ltb_spec (labelCount s) INT_MAX); [| discriminate].
  intros [= <- <-]. auto.
Qed.

Lemma loop_contexts_kept node s out s' :
  ir_visit_ast_node node s = Some (out, s') -> loop_contexts s' = loop_contexts s.
Proof.
  intros H.
  destruct (keeps_ir_visit_ast_node node (functions (module s)) (loop_contexts s)
              s out s') as [_ HL]; [| exact H | exact HL].
  split; [apply funcs_le_refl | reflexivity].
Qed.

(** C7. A WHILE node visited inside a function emits, in this order, the
    entry label, the condition's instructions, a BT on the condition's value
    to the body label, the exit label, the body label, the body's
    instructions and a Goto to the entry label.  The triple of the three
    label names is on top of the loop-context stack when the body is visited
    and is gone when the handler returns. *)
Theorem ir_while_sequence node s out s' :
  node_type node = AST_OP_WHILE ->
  is_Some (currentFunc (module s)) ->
  ir_visit_ast_node node s = Some (out, s') ->
  exists condNode bodyNode rest c b s1 s2 s3 s4 Lentry Lbody Lexit a_bt a_goto,
    sons node = condNode :: bodyNode :: rest /\
    label_name Lentry = Some ("L" +:+ pretty (labelCount s)) /\
    label_name Lbody = Some ("L" +:+ pretty (labelCount s + 1)) /\
    label_name Lexit = Some ("L" +:+ pretty (labelCount s + 2)) /\
    let context :=
      mkLoopContext ("L" +:+ pretty (labelCount s))
        ("L" +:+ pretty (labelCount s + 1)) ("L" +:+ pretty (labelCount s + 2)) in
    ir_visit_ast_node condNode s1 = Some (c, s2) /\
    ir_visit_ast_node bodyNode s3 = Some (b, s4) /\
    loop_contexts s3 = context :: loop_contexts s /\
    loop_contexts s4 = context :: loop_contexts s /\
    loop_contexts s' = loop_contexts s /\
    ok out = true /\
    blockInsts out =
      [LabelInstruction Lentry] ++ blockInsts c ++
      [BranchInstruction a_bt (currentFunc (module s)) IRINST_OP_BT (val c)
         None None (Some Lbody)] ++
      [LabelInstruction Lexit; LabelInstruction Lbody] ++ blockInsts b ++
      [GotoInstruction a_goto (currentFunc (module s)) (Some Lentry)].
Proof.
  intros Htag [cur Hcur] H.
  rewrite ir_visit_ast_node_unfold in H. unfold dispatch in H. rewrite Htag in H.
  unfold ir_while in H.
  apply bind_Some in H as (cf & s0 & Hcf & H).
  unfold getCurrentFunction in Hcf. simplify_eq. rewrite Hcur in H.
  apply bind_Some in H as (le & sa & Hle & H).
  apply bind_Some in H as (lb & sb & Hlb & H).
  apply bind_Some in H as (lx & sc & Hlx & H).
  apply generateLabel_Some in Hle as (-> & _ & ->).
  apply generateLabel_Some in Hlb as (-> & _ & ->).
  apply generateLabel_Some in Hlx as (-> & _ & ->).
  cbn [labelCount] in H.
  exec_in H; simplify_eq.
  match goal with
  | Hc : ir_visit_ast_node _ _ = Some (?c, ?s2),
    Hb : ir_visit_ast_node _ _ = Some (?b, ?s4) |- _ =>
      pose proof (loop_contexts_kept _ _ _ _ Hc) as Kc;
      pose proof (loop_contexts_kept _ _ _ _ Hb) as Kb;
      cbn [loop_contexts] in Kc, Kb
  end.
  replace (labelCount s0 + 1 + 1) with (labelCount s0 + 2) in * by lia.
  eexists _, _, _, _, _, _, _, _, _, (mkLabel _ _ _), (mkLabel _ _ _), (mkLabel _ _ _), _, _.
  split; [reflexivity |].
  split; [reflexivity |]. split; [reflexivity |]. split; [reflexivity |].
  cbv zeta.
  split; [eassumption |]. split; [eassumption |].
  cbn [loop_contexts ok blockInsts]. rewrite Kb, Kc, Hcur.
  repeat split; try reflexivity.
  rewrite <- !app_assoc. reflexivity.
Qed.

(** C8. A successfully translated ASSIGN node holds the instructions of
    its right-hand side, then those of its left-hand side, then one Move
    from the right value to the left value as the last instruction; the
    node's value is that Move.  (The left side is visited first; the
    blocks are spliced in the other order.) *)
Theorem ir_assign_order node s out s' :
  node_type node = AST_OP_ASSIGN ->
  ir_visit_ast_node node s = Some (out, s') ->
  ok out = true ->
  exists son1_node son2_node rest lhs rhs s1 s2 a,
    sons node = son1_node :: son2_node :: rest /\
    ir_visit_ast_node son1_node s = Some (lhs, s1) /\ ok lhs = true /\
    ir_visit_ast_node son2_node s1 = Some (rhs, s2) /\ ok rhs = true /\
    blockInsts out =
      blockInsts rhs ++ blockInsts lhs ++
      [MoveInstruction a (currentFunc (module s2)) (val lhs) (val rhs)] /\
    val out = Some (InstValue a) /\
    a = next_addr s2.
Proof.
  intros Htag H Hok.
  rewrite ir_visit_ast_node_unfold in H. unfold dispatch in H. rewrite Htag in H.
  unfold ir_assign in H. exec_in H; simplify_eq.
  repeat match goal with H : negb _ = false |- _ => apply negb_false_iff in H end.
  eexists _, _, _, _, _, _, _, _. repeat split; eauto.
Qed.

Lemma newFunction_Some n t s r s' :
  newFunction n t s = Some (r, s') ->
  (r = None /\ s' = s /\ is_Some (functions (module s) !! n)) \/
  (r = Some n /\ functions (module s) !! n = None /\
   s' = mkGenState
          (mkModule (<[n := mkFunction n t [] [] None None false 0]> (functions (module s)))
             (scopeStack (module s)) (currentFunc (module s)))
          (labelCount s) (loop_contexts s) (next_addr s) (log s)).
Proof.
  unfold newFunction. destruct (functions (module s) !! n) eqn:E; intros [= <- <-].
  - left. eauto.
  - right. auto.
Qed.

Lemma newVarValue_temp t s v s' :
  newVarValue t "" s = Some (v, s') ->
  v = match currentFunc (module s) with
      | Some _ => LocalVariable (next_addr s) t ""
      | None => GlobalVariable (next_addr s) t ""
      end /\
  s' = mkGenState (module s) (labelCount s) (loop_contexts s) (S (next_addr s)) (log s).
Proof.
  unfold newVarValue, bind, alloc, getCurrentFunction, ret. simpl.
  intros [= <- <-]. auto.
Qed.

Lemma keeps_ir_block_visit ns node :
  keeps (ir_block ir_visit_ast_node ns node).
Proof. apply keeps_ir_block. intros c _. apply keeps_ir_visit_ast_node. Qed.

Lemma function_kept_ir_block ns node s r s' n f f' :
  ir_block ir_visit_ast_node ns node s = Some (r, s') ->
  functions (module s) !! n = Some f ->
  functions (module s') !! n = Some f' ->
  Function_le f f'.
Proof.
  intros H Hf Hf'.
  destruct (keeps_ir_block_visit ns node (functions (module s)) (loop_contexts s)
              s r s') as [Hle _]; [| exact H |].
  { split; [apply funcs_le_refl | reflexivity]. }
  destruct (Hle _ _ Hf) as (f2 & Hf2 & Hle2). congruence.
Qed.

(** What a successful [ir_function_define] has done. *)
Lemma ir_function_define_success node s out s' :
  ir_function_define ir_visit_ast_node node s = Some (out, s') ->
  ok out = true ->
  exists type_node name_node param_node block_node rest pr br sb sb' fn
         entry_a l exit_a,
    sons node = type_node :: name_node :: param_node :: block_node :: rest /\
    currentFunc (module s) = None /\
    functions (module s) !! name name_node = None /\
    (forall sp, ir_function_formal_params param_node sp = Some (pr, sp)) /\
    ir_block ir_visit_ast_node false block_node sb = Some (br, sb') /\
    ok br = true /\
    currentFunc (module sb) = Some (name name_node) /\
    scopeStack (module sb) = ∅ :: scopeStack (module s) /\
    functions (module s') !! name name_node = Some fn /\
    code fn =
      [EntryInstruction entry_a (Some (name name_node))] ++
      blockInsts pr ++ blockInsts br ++
      [LabelInstruction l;
       ExitInstruction exit_a (Some (name name_node)) (returnValue fn)] /\
    exitLabel fn = Some l /\
    returnValue fn =
      (if isVoidType (type type_node) then None
       else Some (LocalVariable (S (S (next_addr s))) (type type_node) "")) /\
    params fn = [] /\
    currentFunc (module s') = None /\
    scopeStack (module s') = tail (scopeStack (module sb')).
Proof.
  intros H Hok. unfold ir_function_define in H.
  apply bind_Some in H as (cur & s0 & Hcur & H).
  unfold getCurrentFunction in Hcur. simplify_eq.
  destruct (currentFunc (module s0)) eqn:Hc.
  { apply ret_Some in H as [-> _]. discriminate Hok. }
  destruct (sons node) as [| tn [| nn [| pn [| bn rest]]]] eqn:Hs; try discriminate H.
  apply bind_Some in H as (nf & s1 & Hnf & H).
  apply newFunction_Some in Hnf as [(-> & -> & _) | (-> & Hfresh & ->)].
  { apply ret_Some in H as [-> _]. discriminate Hok. }
  unfold irCode_addInst, setExitLabel, setReturnValue, ir_function_formal_params,
    update_function, getFunction in H.
  exec_with ltac:(fun E => try (apply newVarValue_temp in E as [-> ->])) H;
    injection H as <- <-; try discriminate Hok.
  all: match goal with
       | Hb : ir_block _ _ _ ?sb = Some (?br, ?sb'),
         Hf : functions (module ?sb') !! _ = Some ?f |- _ =>
           pose proof (function_kept_ir_block _ _ _ _ _ _ _ _ Hb
                         (lookup_insert_eq _ _ _) Hf) as
             (Kn & Kt & Kp & Kc & Ke & Kr & _);
           cbn [fname returnType params code exitLabel returnValue] in *;
           eexists _, _, _, _, _, (mkOut true [] None), br, sb, sb', _, _, _, _
       end.
  all: cbn [module functions scopeStack currentFunc].
  all: rewrite ?lookup_insert_eq.
  all: repeat match goal with
         | |- _ /\ _ => split
         end; try reflexivity; try eassumption; cbn;
       try match goal with H : negb _ = false |- _ =>
             apply negb_false_iff in H; exact H end.
  all: try (rewrite Kc, Kr; cbn [app]; rewrite <- !app_assoc; reflexivity).
  all: rewrite Kr.
  - apply negb_true_iff in E. rewrite E. reflexivity.
  - apply negb_false_iff in E. rewrite E. reflexivity.
Qed.



Lemma keeps_funcs_le {A} (m : M A) s a s' :
  keeps m -> m s = Some (a, s') ->
  funcs_le (functions (module s)) (functions (module s')) /\
  loop_contexts s' = loop_contexts s.
Proof.
  intros Hk H. apply (Hk (functions (module s)) (loop_contexts s) s a s'); [| exact H].
  split; [apply funcs_le_refl | reflexivity].
Qed.


Lemma to_int32_small z : 0 <= z <= INT_MAX -> to_int32 z = z.
Proof.
  unfold to_int32, INT_MAX. intros Hz.
  rewrite Z.mod_small by lia. lia.
Qed.

Lemma update_function_Some n g s u s' :
  update_function (Some n) g s = Some (u, s') ->
  exists fn, functions (module s) !! n = Some fn /\
    s' = mkGenState
           (mkModule (<[n := g fn]> (functions (module s))) (scopeStack (module s))
              (currentFunc (module s)))
           (labelCount s) (loop_contexts s) (next_addr s) (log s).
Proof.
  unfold update_function, getFunction. intros H.
  apply bind_Some in H as (fn & s0 & Hget & H).
  destruct (functions (module s) !! n) eqn:E; [| discriminate]. simplify_eq.
  unfold with_module in H. simplify_eq. eauto.
Qed.

(** C10. In a FUNC_CALL whose callee is registered, the calling function's
    [existFuncCall] is set and its [maxFuncCallArgCnt] is raised to the
    argument count before the first argument is visited, hence before the
    arity check; both are still so when the handler returns, whatever it
    returns, so a call that fails the arity check has changed the caller. *)
Theorem ir_function_call_marks_caller node s name_node paramsNode rest
    callee cur curfn out s' :
  node_type node = AST_OP_FUNC_CALL ->
  sons node = name_node :: paramsNode :: rest ->
  functions (module s) !! name name_node = Some callee ->
  currentFunc (module s) = Some cur ->
  functions (module s) !! cur = Some curfn ->
  Z.of_nat (length (sons paramsNode)) <= INT_MAX ->
  ir_visit_ast_node node s = Some (out, s') ->
  exists s1 r s2 fn1 fn',
    ir_function_call_loop ir_visit_ast_node (sons paramsNode) [] [] s1 = Some (r, s2) /\
    functions (module s1) !! cur = Some fn1 /\
    existFuncCall fn1 = true /\
    maxFuncCallArgCnt fn1 =
      match sons paramsNode with
      | [] => maxFuncCallArgCnt curfn
      | _ :: _ => Z.max (maxFuncCallArgCnt curfn) (Z.of_nat (length (sons paramsNode)))
      end /\
    functions (module s') !! cur = Some fn' /\
    existFuncCall fn' = true /\
    maxFuncCallArgCnt fn1 <= maxFuncCallArgCnt fn' /\
    (existFuncCall curfn = false ->
     functions (module s') !! cur <> functions (module s) !! cur).
Proof.
  intros Htag Hs Hcallee Hcur Hcurfn Hargc H.
  rewrite ir_visit_ast_node_unfold in H. unfold dispatch in H. rewrite Htag in H.
  unfold ir_function_call in H. rewrite Hs in H.
  apply bind_Some in H as (cur' & s0 & Hcur' & H).
  unfold getCurrentFunction in Hcur'. simplify_eq. rewrite Hcur in H.
  apply bind_Some in H as (cf & s0' & Hcf & H).
  unfold findFunction in Hcf. rewrite Hcallee in Hcf. simplify_eq.
  apply bind_Some in H as (u & s1 & Hbump & H).
  apply update_function_Some in Hbump as (fn0 & Hfn0 & ->).
  assert (fn0 = curfn) as -> by congruence.
  apply bind_Some in H as (r & s2 & Hloop & H).
  assert (exists s1' fn1,
            ir_function_call_loop ir_visit_ast_node (sons paramsNode) [] [] s1'
              = Some (r, s2) /\
            functions (module s1') !! cur = Some fn1 /\
            existFuncCall fn1 = true /\
            maxFuncCallArgCnt fn1 =
              match sons paramsNode with
              | [] => maxFuncCallArgCnt curfn
              | _ :: _ =>
                  Z.max (maxFuncCallArgCnt curfn) (Z.of_nat (length (sons paramsNode)))
              end)
    as (s1' & fn1 & Hloop' & Hfn1 & Hex1 & Hmax1).
  { destruct (sons paramsNode) as [| x xs] eqn:Hargs.
    - eexists _, _. split; [exact Hloop |]. cbn [module functions].
      rewrite lookup_insert_eq. repeat split.
    - rewrite <- Hargs in *. rewrite to_int32_small in Hloop by lia.
      apply bind_Some in Hloop as (mx & sa & Hmx & Hloop).
      apply bind_Some in Hloop as (u' & s1' & Hset & Hloop).
      unfold getMaxFuncCallArgCnt, getFunction in Hmx. exec_unfold Hmx.
      rewrite lookup_insert_eq in Hmx. exec_unfold Hmx. injection Hmx as <- <-.
      destruct (Z.gtb_spec (Z.of_nat (length (sons paramsNode)))
                  (maxFuncCallArgCnt curfn)) as [Hgt | Hle].
      + apply update_function_Some in Hset as (fn1 & Hfn1 & ->).
        cbn [module functions] in Hfn1. rewrite lookup_insert_eq in Hfn1.
        injection Hfn1 as <-.
        eexists _, _. split; [exact Hloop |]. cbn [module functions].
        rewrite lookup_insert_eq. split; [reflexivity |]. cbn.
        rewrite Hargs, <- Hargs. split; [reflexivity | lia].
      + apply ret_Some in Hset as [_ ->].
        eexists _, _. split; [exact Hloop |]. cbn [module functions].
        rewrite lookup_insert_eq. split; [reflexivity |]. cbn.
        rewrite Hargs, <- Hargs. split; [reflexivity | lia]. }
  assert (functions (module s') = functions (module s2)) as Hsame.
  { assert (frame (fun s2 : GenState =>
        (if negb (fst r)
         then ret {| ok := false; blockInsts := snd (snd r); val := None |}
         else
           let* ps := getParams (Some (name name_node)) in
           if negb (length (fst (snd r)) =? length ps)%nat
           then
             let* _ := minic_log "第%lld行的被调用函数(%s)未定义或声明"
                         [LogInt (line_no name_node); LogStr (name name_node)] in
             ret {| ok := false; blockInsts := snd (snd r); val := None |}
           else
             let* t := getReturnType (Some (name name_node)) in
             let* funcCallInst :=
               new_FuncCallInstruction (Some cur) (name name_node) (fst (snd r)) t in
             ret {| ok := true; blockInsts := snd (snd r) ++ [funcCallInst];
                    val := as_value funcCallInst |}) s2)) as Hfr.
    { intros x a x' Hx. destruct (negb (fst r)).
      - revert Hx. apply frame_ret.
      - revert x a x' Hx. frame_auto. }
    exact (proj1 (Hfr _ _ _ H)). }
  destruct (keeps_funcs_le _ _ _ _
              (keeps_ir_function_call_loop ir_visit_ast_node (sons paramsNode) [] []
                 (fun c _ => keeps_ir_visit_ast_node c)) Hloop') as [Hle _].
  destruct (Hle _ _ Hfn1) as (fn' & Hfn' & (_ & _ & _ & _ & _ & _ & Kex & Kmax)).
  exists s1', r, s2, fn1, fn'. rewrite Hsame.
  repeat split; auto.
  intros Hfalse Heq. rewrite Hfn', Hcurfn in Heq. injection Heq as ->.
  rewrite (Kex Hex1) in Hfalse. discriminate.
Qed.


(** C5. A FUNC_DEF translated successfully leaves a function whose
    instruction sequence starts with Entry and ends with the exit Label
    followed by Exit, the last instruction; the Exit refers to the
    function's return-value slot, which is a local variable for a non-void
    return type and null for void. *)
Theorem ir_function_define_entry_exit node s out s' :
  node_type node = AST_OP_FUNC_DEF ->
  ir_visit_ast_node node s = Some (out, s') ->
  ok out = true ->
  exists type_node name_node fn entry_a body l exit_a,
    sons node !! 0%nat = Some type_node /\
    sons node !! 1%nat = Some name_node /\
    functions (module s') !! name name_node = Some fn /\
    code fn =
      EntryInstruction entry_a (Some (name name_node)) :: body ++
      [LabelInstruction l;
       ExitInstruction exit_a (Some (name name_node)) (returnValue fn)] /\
    exitLabel fn = Some l /\
    last (code fn) =
      Some (ExitInstruction exit_a (Some (name name_node)) (returnValue fn)) /\
    (isVoidType (type type_node) = true -> returnValue fn = None) /\
    (isVoidType (type type_node) = false ->
     exists a, returnValue fn = Some (LocalVariable a (type type_node) "")).
Proof.
  intros Htag H Hok.
  rewrite ir_visit_ast_node_unfold in H. unfold dispatch in H. rewrite Htag in H.
  destruct (ir_function_define_success _ _ _ _ H Hok)
    as (tn & nn & pn & bn & rest & pr & br & sb & sb' & fn & ea & l & xa &
        Hs & _ & _ & _ & _ & _ & _ & _ & Hfn & Hcode & Hexit & Hret & _).
  exists tn, nn, fn, ea, (blockInsts pr ++ blockInsts br), l, xa.
  rewrite Hs. split; [reflexivity |]. split; [reflexivity |].
  split; [exact Hfn |].
  assert (code fn =
            EntryInstruction ea (Some (name nn))
            :: (blockInsts pr ++ blockInsts br) ++
               [LabelInstruction l; ExitInstruction xa (Some (name nn)) (returnValue fn)])
    as Hcode'.
  { rewrite Hcode. cbn [app]. rewrite <- app_assoc. reflexivity. }
  split; [exact Hcode' |]. split; [exact Hexit |]. split.
  - rewrite Hcode'. rewrite app_comm_cons.
    replace [LabelInstruction l; ExitInstruction xa (Some (name nn)) (returnValue fn)]
      with ([LabelInstruction l] ++ [ExitInstruction xa (Some (name nn)) (returnValue fn)])
      by reflexivity.
    rewrite app_assoc. apply last_snoc.
  - rewrite Hret. split; intros ->; eauto.
Qed.

(** The formal-parameter claim fails at [int f(int x) { }]: the definition
    is translated successfully and its function holds Entry, the exit Label
    and Exit, and no Move. *)
Lemma formal_params_moved_counterexample :
  ~ formal_params_moved func_with_formal (init_state ∅).
Proof.
  intros H.
  pose (r := ir_visit_ast_node func_with_formal (init_state ∅)).
  assert (ir_visit_ast_node func_with_formal (init_state ∅) =
            Some (out_of r, state_of r)) as E by (vm_compute; reflexivity).
  assert (ok (out_of r) = true) as Hok by (vm_compute; reflexivity).
  assert (functions (module (state_of r)) !! "f" = Some (function_of "f" (state_of r)))
    as Hfn by (vm_compute; reflexivity).
  destruct (H (out_of r) (state_of r) _ _ _ _ _ (function_of "f" (state_of r))
              eq_refl E Hok Hfn
              (new_ast_node (AST_OP_OTHER 0)
                 [new_ast_leaf_type IntegerType_Int 1; new_ast_leaf_var_id "x" 1])
              IntegerType_Int "x" (list_elem_of_here _ _) eq_refl)
    as (am & al & af & Hin).
  vm_compute in Hin.
  repeat (apply elem_of_cons in Hin as [Hin | Hin]; [discriminate Hin |]).
  inversion Hin.
Qed.

(** The formal-parameter handler is a stub: whatever the formal list,
    called by [ir_function_define] or dispatched on a FUNC_FORMAL_PARAMS
    node, it returns success, changes nothing and leaves its node's block
    empty.  So in a successful FUNC_DEF nothing stands between Entry and the
    body's instructions, and the function has no formal parameters. *)
Lemma ir_function_formal_params_stub node s out s' :
  node_type node = AST_OP_FUNC_DEF ->
  ir_visit_ast_node node s = Some (out, s') ->
  ok out = true ->
  exists type_node name_node param_node block_node rest br sb sb' fn entry_a l exit_a,
    sons node = type_node :: name_node :: param_node :: block_node :: rest /\
    (forall sp, ir_function_formal_params param_node sp = Some (mkOut true [] None, sp)) /\
    (forall pnode sp,
       node_type pnode = AST_OP_FUNC_FORMAL_PARAMS ->
       ir_visit_ast_node pnode sp = Some (mkOut true [] None, sp)) /\
    ir_block ir_visit_ast_node false block_node sb = Some (br, sb') /\
    functions (module s') !! name name_node = Some fn /\
    params fn = [] /\
    code fn =
      EntryInstruction entry_a (Some (name name_node)) :: blockInsts br ++
      [LabelInstruction l;
       ExitInstruction exit_a (Some (name name_node)) (returnValue fn)].
Proof.
  intros Htag H Hok.
  rewrite ir_visit_ast_node_unfold in H. unfold dispatch in H. rewrite Htag in H.
  destruct (ir_function_define_success _ _ _ _ H Hok)
    as (tn & nn & pn & bn & rest & pr & br & sb & sb' & fn & ea & l & xa &
        Hs & _ & _ & Hpr & Hb & _ & _ & _ & Hfn & Hcode & _ & _ & Hparams & _).
  assert (pr = mkOut true [] None) as ->.
  { specialize (Hpr s). unfold ir_function_formal_params, ret in Hpr. congruence. }
  exists tn, nn, pn, bn, rest, br, sb, sb', fn, ea, l, xa.
  repeat split; auto.
  intros pnode sp Hp. rewrite ir_visit_ast_node_unfold. unfold dispatch.
  rewrite Hp. reflexivity.
Qed.

(** C3 fails on the code.  The formal-parameter handler returns true and
    does nothing else, where its own comment asks for a temporary, a local
    and a copy per formal, placed after Entry.  So [int f(int x) { }] is
    translated successfully with no Move in [f], against the claim; and the
    valid program [int f(int x) { return x; } int main() { return f(1); }]
    is rejected: [f] is registered without parameters, [x] is bound to
    nothing, so [return x] moves a null value into the return slot, and the
    call [f(1)] fails the arity check and [run] returns false. *)
Theorem formal_params_not_translated :
  let s' := run_state prog_call_formal (init_state ∅) in
  let f := function_of "f" s' in
  ~ formal_params_moved func_with_formal (init_state ∅) /\
  run prog_call_formal (init_state ∅) = Some (false, s') /\
  log s' =
    [LOG_ERROR "第%lld行的被调用函数(%s)未定义或声明" [LogInt 7; LogStr "f"]] /\
  functions (module s') !! "f" = Some f /\
  params f = [] /\
  exists a_entry a_move a_goto a_exit l,
    exitLabel f = Some l /\
    code f =
      [EntryInstruction a_entry (Some "f");
       MoveInstruction a_move (Some "f") (returnValue f) None;
       GotoInstruction a_goto (Some "f") (Some l);
       LabelInstruction l;
       ExitInstruction a_exit (Some "f") (returnValue f)].
Proof.
  intros s' f. split; [exact formal_params_moved_counterexample |].
  split; [vm_compute; reflexivity |].
  split; [vm_compute; reflexivity |].
  split; [vm_compute; reflexivity |].
  split; [vm_compute; reflexivity |].
  do 5 eexists. split; vm_compute; reflexivity.
Qed.

(** C1 fails on the code.  [ir_and] puts its true label into the sequence
    twice: in the translation of [a = 1 && 2] the label [L0] is emitted two
    times in [main].  And [ir_break] jumps to a Label object of its own
    making: in the translation of [while (1) { break; }] the Goto of the
    break points to a Label named [L2] that is not in the sequence, where
    another Label object of that name is. *)
Theorem label_invariant_broken :
  (let s' := run_state prog_and (init_state ∅) in
   run prog_and (init_state ∅) = Some (true, s') /\
   count_label "L0" (code (function_of "main" s')) = 2%nat) /\
  (let s' := run_state prog_while_break (init_state ∅) in
   run prog_while_break (init_state ∅) = Some (true, s') /\
   targets_not_emitted (code (function_of "main" s')) =
     [mkLabel 7%nat (Some "main") (Some "L2")] /\
   List.filter (fun l => option_eqb String.eqb (label_name l) (Some "L2"))
     (emitted_labels (code (function_of "main" s'))) =
     [mkLabel 6%nat (Some "main") (Some "L2")]).
Proof. vm_compute. repeat split; reflexivity. Qed.

(** The same for every AND node visited inside a function: one Label
    instruction stands at two places of the node's block. *)
Lemma ir_and_true_label_twice node s out s' :
  node_type node = AST_OP_AND ->
  is_Some (currentFunc (module s)) ->
  ir_visit_ast_node node s = Some (out, s') ->
  exists trueLabel pre mid post,
    label_name trueLabel = Some ("L" +:+ pretty (labelCount s)) /\
    blockInsts out =
      pre ++ [LabelInstruction trueLabel] ++ mid ++ [LabelInstruction trueLabel] ++ post.
Proof.
  intros Htag [cur Hcur] H.
  rewrite ir_visit_ast_node_unfold in H. unfold dispatch in H. rewrite Htag in H.
  unfold ir_and in H.
  apply bind_Some in H as (cf & s0 & Hcf & H).
  unfold getCurrentFunction in Hcf. simplify_eq. rewrite Hcur in H.
  apply bind_Some in H as (lt & sa & Hlt & H).
  apply bind_Some in H as (lf & sb & Hlf & H).
  apply bind_Some in H as (le & sc & Hle & H).
  apply generateLabel_Some in Hlt as (-> & _ & ->).
  apply generateLabel_Some in Hlf as (-> & _ & ->).
  apply generateLabel_Some in Hle as (-> & _ & ->).
  exec_with ltac:(fun E => try (apply newVarValue_temp in E as [-> ->])) H.
  injection H as <- <-. cbn [blockInsts].
  lazymatch goal with
  | E2 : ir_visit_ast_node _ (mkGenState (module ?g) _ _ _ _) = Some (?n0, _),
    E1 : ir_visit_ast_node _ _ = Some (?n, ?g) |- _ =>
      eexists (mkLabel (S (S (next_addr g))) (Some cur) _),
        (blockInsts n ++ [_]), (blockInsts n0 ++ [_]), _
  end.
  split; [reflexivity |].
  rewrite <- !app_assoc. cbn [app]. reflexivity.
Qed.

(** Inside a function the IF and WHILE handlers return success whenever
    they return: no result of a child visit is looked at. *)
Lemma ir_if_always_succeeds node s out s' :
  node_type node = AST_OP_IF ->
  is_Some (currentFunc (module s)) ->
  ir_visit_ast_node node s = Some (out, s') -> ok out = true.
Proof.
  intros Htag [cur Hcur] H.
  rewrite ir_visit_ast_node_unfold in H. unfold dispatch in H. rewrite Htag in H.
  unfold ir_if in H.
  apply bind_Some in H as (cf & s0 & Hcf & H).
  unfold getCurrentFunction in Hcf. simplify_eq. rewrite Hcur in H.
  exec_in H; injection H as <- <-; reflexivity.
Qed.

Lemma ir_while_always_succeeds node s out s' :
  node_type node = AST_OP_WHILE ->
  is_Some (currentFunc (module s)) ->
  ir_visit_ast_node node s = Some (out, s') -> ok out = true.
Proof.
  intros Htag [cur Hcur] H.
  rewrite ir_visit_ast_node_unfold in H. unfold dispatch in H. rewrite Htag in H.
  unfold ir_while in H.
  apply bind_Some in H as (cf & s0 & Hcf & H).
  unfold getCurrentFunction in Hcf. simplify_eq. rewrite Hcur in H.
  exec_in H; injection H as <- <-; reflexivity.
Qed.

(** C2 fails on the code: in [if (1) { break; }] the BREAK handler fails
    (it logs its error), and in [while (g()) {}] the call of the undeclared
    [g] fails; both failures are dropped by the enclosing IF and WHILE
    handlers and [run] returns true. *)
Theorem run_true_despite_failed_handler :
  (let s' := run_state prog_if_break (init_state ∅) in
   run prog_if_break (init_state ∅) = Some (true, s') /\
   log s' = [LOG_ERROR "break语句不在循环内部" []]) /\
  (let s' := run_state prog_while_undefined (init_state ∅) in
   run prog_while_undefined (init_state ∅) = Some (true, s') /\
   log s' = [LOG_ERROR "函数(%s)未定义或声明" [LogStr "g"]]).
Proof. vm_compute. repeat split; reflexivity. Qed.

(** C4 fails on the code: after the failing run of [int main() { break; }]
    the current function is still [main] and the function's scope is still
    open; after the run of [if (1) { break; }], which returns true, the
    scope of the inner block is still open. *)
Theorem run_leaves_scope_and_function :
  (let s' := run_state prog_break (init_state ∅) in
   run prog_break (init_state ∅) = Some (false, s') /\
   currentFunc (module s') = Some "main" /\
   length (scopeStack (module s')) = 2%nat /\
   length (scopeStack (module (init_state ∅))) = 1%nat) /\
  (let s' := run_state prog_if_break (init_state ∅) in
   run prog_if_break (init_state ∅) = Some (true, s') /\
   currentFunc (module s') = None /\
   length (scopeStack (module s')) = 2%nat).
Proof. vm_compute. repeat split; reflexivity. Qed.

Lemma ir_assign_order_witness :
  let node := assign_a_1 in
  let s := state_in_main in
  let out := out_of (ir_visit_ast_node node s) in
  let s' := state_of (ir_visit_ast_node node s) in
  node_type node = AST_OP_ASSIGN /\
  ir_visit_ast_node node s = Some (out, s') /\
  ok out = true /\
  exists son1_node son2_node rest lhs rhs s1 s2 a,
    sons node = son1_node :: son2_node :: rest /\
    ir_visit_ast_node son1_node s = Some (lhs, s1) /\ ok lhs = true /\
    ir_visit_ast_node son2_node s1 = Some (rhs, s2) /\ ok rhs = true /\
    blockInsts out =
      blockInsts rhs ++ blockInsts lhs ++
      [MoveInstruction a (currentFunc (module s2)) (val lhs) (val rhs)] /\
    val out = Some (InstValue a) /\
    a = next_addr s2.
Proof.
  intros node s out s'.
  assert (node_type node = AST_OP_ASSIGN) as H1 by reflexivity.
  assert (ir_visit_ast_node node s = Some (out, s')) as H2 by (vm_compute; reflexivity).
  assert (ok out = true) as H3 by (vm_compute; reflexivity).
  split; [exact H1 |]. split; [exact H2 |]. split; [exact H3 |].
  exact (ir_assign_order node s out s' H1 H2 H3).
Defined.

Lemma ir_while_sequence_witness :
  let node := while_i_lt_10 in
  let s := state_in_main in
  let out := out_of (ir_visit_ast_node node s) in
  let s' := state_of (ir_visit_ast_node node s) in
  node_type node = AST_OP_WHILE /\
  is_Some (currentFunc (module s)) /\
  ir_visit_ast_node node s = Some (out, s') /\
  exists condNode bodyNode rest c b s1 s2 s3 s4 Lentry Lbody Lexit a_bt a_goto,
    sons node = condNode :: bodyNode :: rest /\
    label_name Lentry = Some ("L" +:+ pretty (labelCount s)) /\
    label_name Lbody = Some ("L" +:+ pretty (labelCount s + 1)) /\
    label_name Lexit = Some ("L" +:+ pretty (labelCount s + 2)) /\
    let context :=
      mkLoopContext ("L" +:+ pretty (labelCount s))
        ("L" +:+ pretty (labelCount s + 1)) ("L" +:+ pretty (labelCount s + 2)) in
    ir_visit_ast_node condNode s1 = Some (c, s2) /\
    ir_visit_ast_node bodyNode s3 = Some (b, s4) /\
    loop_contexts s3 = context :: loop_contexts s /\
    loop_contexts s4 = context :: loop_contexts s /\
    loop_contexts s' = loop_contexts s /\
    ok out = true /\
    blockInsts out =
      [LabelInstruction Lentry] ++ blockInsts c ++
      [BranchInstruction a_bt (currentFunc (module s)) IRINST_OP_BT (val c)
         None None (Some Lbody)] ++
      [LabelInstruction Lexit; LabelInstruction Lbody] ++ blockInsts b ++
      [GotoInstruction a_goto (currentFunc (module s)) (Some Lentry)].
Proof.
  intros node s out s'.
  assert (node_type node = AST_OP_WHILE) as H1 by reflexivity.
  assert (is_Some (currentFunc (module s))) as H2 by (eexists; reflexivity).
  assert (ir_visit_ast_node node s = Some (out, s')) as H3 by (vm_compute; reflexivity).
  split; [exact H1 |]. split; [exact H2 |]. split; [exact H3 |].
  exact (ir_while_sequence node s out s' H1 H2 H3).
Defined.

Lemma ir_function_define_entry_exit_witness :
  let node := func_with_formal in
  let s := init_state ∅ in
  let out := out_of (ir_visit_ast_node node s) in
  let s' := state_of (ir_visit_ast_node node s) in
  node_type node = AST_OP_FUNC_DEF /\
  ir_visit_ast_node node s = Some (out, s') /\
  ok out = true /\
  exists type_node name_node fn entry_a body l exit_a,
    sons node !! 0%nat = Some type_node /\
    sons node !! 1%nat = Some name_node /\
    functions (module s') !! name name_node = Some fn /\
    code fn =
      EntryInstruction entry_a (Some (name name_node)) :: body ++
      [LabelInstruction l;
       ExitInstruction exit_a (Some (name name_node)) (returnValue fn)] /\
    exitLabel fn = Some l /\
    last (code fn) =
      Some (ExitInstruction exit_a (Some (name name_node)) (returnValue fn)) /\
    (isVoidType (type type_node) = true -> returnValue fn = None) /\
    (isVoidType (type type_node) = false ->
     exists a, returnValue fn = Some (LocalVariable a (type type_node) "")).
Proof.
  intros node s out s'.
  assert (node_type node = AST_OP_FUNC_DEF) as H1 by reflexivity.
  assert (ir_visit_ast_node node s = Some (out, s')) as H2 by (vm_compute; reflexivity).
  assert (ok out = true) as H3 by (vm_compute; reflexivity).
  split; [exact H1 |]. split; [exact H2 |]. split; [exact H3 |].
  exact (ir_function_define_entry_exit node s out s' H1 H2 H3).
Defined.

Lemma ir_function_formal_params_stub_witness :
  let node := func_with_formal in
  let s := init_state ∅ in
  let out := out_of (ir_visit_ast_node node s) in
  let s' := state_of (ir_visit_ast_node node s) in
  node_type node = AST_OP_FUNC_DEF /\
  ir_visit_ast_node node s = Some (out, s') /\
  ok out = true /\
  exists type_node name_node param_node block_node rest br sb sb' fn entry_a l exit_a,
    sons node = type_node :: name_node :: param_node :: block_node :: rest /\
    (forall sp, ir_function_formal_params param_node sp = Some (mkOut true [] None, sp)) /\
    (forall pnode sp,
       node_type pnode = AST_OP_FUNC_FORMAL_PARAMS ->
       ir_visit_ast_node pnode sp = Some (mkOut true [] None, sp)) /\
    ir_block ir_visit_ast_node false block_node sb = Some (br, sb') /\
    functions (module s') !! name name_node = Some fn /\
    params fn = [] /\
    code fn =
      EntryInstruction entry_a (Some (name name_node)) :: blockInsts br ++
      [LabelInstruction l;
       ExitInstruction exit_a (Some (name name_node)) (returnValue fn)].
Proof.
  intros node s out s'.
  assert (node_type node = AST_OP_FUNC_DEF) as H1 by reflexivity.
  assert (ir_visit_ast_node node s = Some (out, s')) as H2 by (vm_compute; reflexivity).
  assert (ok out = true) as H3 by (vm_compute; reflexivity).
  split; [exact H1 |]. split; [exact H2 |]. split; [exact H3 |].
  exact (ir_function_formal_params_stub node s out s' H1 H2 H3).
Defined.


Lemma ir_function_call_marks_caller_witness :
  let node := call_f_1 in
  let s := state_in_main in
  let out := out_of (ir_visit_ast_node node s) in
  let s' := state_of (ir_visit_ast_node node s) in
  ir_visit_ast_node node s = Some (out, s') /\
  ok out = false /\
  existFuncCall (function_of "main" s) = false /\
  exists fn', functions (module s') !! "main" = Some fn' /\
    existFuncCall fn' = true /\ 1 <= maxFuncCallArgCnt fn'.
Proof.
  intros node s out s'.
  assert (ir_visit_ast_node node s = Some (out, s')) as Hrun by (vm_compute; reflexivity).
  split; [exact Hrun |]. split; [vm_compute; reflexivity |].
  split; [vm_compute; reflexivity |].
  destruct (ir_function_call_marks_caller node s _ _ _
              (function_of "f" s) "main" (function_of "main" s) out s'
              eq_refl eq_refl ltac:(vm_compute; reflexivity) eq_refl
              ltac:(vm_compute; reflexivity) ltac:(vm_compute; discriminate) Hrun)
    as (s1 & r & s2 & fn1 & fn' & _ & _ & _ & Hmax1 & Hfn' & Hex & Hle & _).
  exists fn'. split; [exact Hfn' |]. split; [exact Hex |].
  rewrite Hmax1 in Hle. exact Hle.
Defined.


(** * Further properties of the translator *)

(** ** What only grows: label counter, allocator, log *)

Lemma grows_refl s : grows s s.
Proof. repeat split; [lia | lia | reflexivity]. Qed.

Lemma grows_trans s1 s2 s3 : grows s1 s2 -> grows s2 s3 -> grows s1 s3.
Proof.
  intros (A1 & B1 & C1) (A2 & B2 & C2).
  repeat split; [lia | lia | by etrans].
Qed.

Lemma growing_ret {A} (a : A) : growing (ret a).
Proof. intros s b s' [-> ->]%ret_Some. apply grows_refl. Qed.

Lemma growing_crash {A} : growing (@crash A).
Proof. intros s a s' H. discriminate H. Qed.

Lemma growing_bind {A B} (m : M A) (k : A -> M B) :
  growing m -> (forall a, growing (k a)) -> growing (bind m k).
Proof.
  intros Hm Hk s b s' (a & s1 & H1 & H2)%bind_Some.
  eapply grows_trans; [eapply Hm | eapply Hk]; eauto.
Qed.

Ltac grows_solve :=
  repeat split; simpl; first [lia | reflexivity | by apply prefix_app_r].

Lemma growing_with_module f : growing (with_module f).
Proof. intros s a s' [= <- <-]. grows_solve. Qed.

Lemma growing_alloc : growing alloc.
Proof.
  intros s a s' [= <- <-]. grows_solve.
Qed.

Lemma growing_minic_log fmt args : growing (minic_log fmt args).
Proof.
  intros s a s' [= <- <-]. grows_solve.
Qed.

Lemma growing_generateLabel : growing generateLabel.
Proof.
  intros s l s' (-> & Hlt & ->)%generateLabel_Some.
  grows_solve.
Qed.

Lemma growing_loop_contexts_push c : growing (loop_contexts_push c).
Proof. intros s a s' [= <- <-]. grows_solve. Qed.

Lemma growing_loop_contexts_pop : growing loop_contexts_pop.
Proof. intros s a s' [= <- <-]. grows_solve. Qed.

Lemma growing_loop_contexts_top : growing loop_contexts_top.
Proof. intros s a s' [= <- <-]. grows_solve. Qed.

Lemma growing_getCurrentFunction : growing getCurrentFunction.
Proof. intros s a s' [= <- <-]. grows_solve. Qed.

Lemma growing_findFunction n : growing (findFunction n).
Proof. intros s a s' [= <- <-]. grows_solve. Qed.

Lemma growing_findVarValue n : growing (findVarValue n).
Proof. intros s a s' [= <- <-]. grows_solve. Qed.

Lemma growing_newFunction n t : growing (newFunction n t).
Proof.
  intros s a s' H. unfold newFunction in H.
  destruct (functions (module s) !! n); simplify_eq; grows_solve.
Qed.

Lemma growing_getFunction f : growing (getFunction f).
Proof.
  intros s a s' H. unfold getFunction in H.
  destruct f as [n |]; [| discriminate].
  destruct (functions (module s) !! n); simplify_eq. grows_solve.
Qed.

Create HintDb growing.
#[export] Hint Resolve growing_ret growing_crash growing_with_module growing_alloc
  growing_minic_log growing_generateLabel growing_loop_contexts_push
  growing_loop_contexts_pop growing_loop_contexts_top growing_getCurrentFunction
  growing_findFunction growing_findVarValue growing_newFunction
  growing_getFunction : growing.

Ltac growing_auto :=
  first
    [ solve [auto with growing]
    | apply growing_bind; [growing_auto | intros ?; growing_auto]
    | match goal with
      | |- growing (if ?b then _ else _) => destruct b; growing_auto
      | |- growing (match ?x with _ => _ end) => destruct x; growing_auto
      | Hs : forall c, c ∈ _ -> growing (_ c) |- growing (_ ?c) =>
          apply Hs; set_solver
      end ].

Ltac growing_unfold :=
  unfold setCurrentFunction, enterScope, leaveScope, newVarValue, newConstInt,
    update_function, setExitLabel, setReturnValue, setExistFuncCall,
    setMaxFuncCallArgCnt, irCode_addInst, getMaxFuncCallArgCnt, getReturnValue,
    getExitLabel, getParams, getReturnType,
    new_EntryInstruction, new_ExitInstruction, new_LabelInstruction,
    new_MoveInstruction, new_BinaryInstruction, new_UnaryInstruction,
    new_BranchInstruction, new_GotoInstruction, new_FuncCallInstruction.

Section HandlersGrow.

Variable visit : ast_node -> M NodeOut.

Lemma growing_ir_compile_unit_loop l :
  (forall c, c ∈ l -> growing (visit c)) -> growing (ir_compile_unit_loop visit l).
Proof.
  induction l as [| c l IH]; intros Hl; cbn [ir_compile_unit_loop].
  - apply growing_ret.
  - apply growing_bind; [apply Hl; set_solver | intros r].
    destruct (ok r); [| apply growing_ret]. apply IH. intros d Hd. apply Hl. set_solver.
Qed.

Lemma growing_ir_block_loop l insts :
  (forall c, c ∈ l -> growing (visit c)) -> growing (ir_block_loop visit l insts).
Proof.
  revert insts. induction l as [| c l IH]; intros insts Hl; cbn [ir_block_loop].
  - apply growing_ret.
  - apply growing_bind; [apply Hl; set_solver | intros r].
    destruct (ok r); [| apply growing_ret]. apply IH. intros d Hd. apply Hl. set_solver.
Qed.

Lemma growing_ir_function_call_loop l ps insts :
  (forall c, c ∈ l -> growing (visit c)) ->
  growing (ir_function_call_loop visit l ps insts).
Proof.
  revert ps insts. induction l as [| c l IH]; intros ps insts Hl;
    cbn [ir_function_call_loop].
  - apply growing_ret.
  - apply growing_bind; [apply Hl; set_solver | intros r].
    destruct (ok r); [| apply growing_ret]. apply IH. intros d Hd. apply Hl. set_solver.
Qed.

Lemma growing_ir_variable_declare node : growing (ir_variable_declare node).
Proof. unfold ir_variable_declare. growing_unfold. growing_auto. Qed.

Lemma growing_ir_declare_statment_loop l b : growing (ir_declare_statment_loop l b).
Proof.
  revert b. induction l as [| c l IH]; intros b; cbn [ir_declare_statment_loop].
  - apply growing_ret.
  - apply growing_bind; [apply growing_ir_variable_declare | intros r].
    destruct (ok r); [apply IH | apply growing_ret].
Qed.

Lemma growing_ir_block ns node :
  (forall c, c ∈ sons node -> growing (visit c)) -> growing (ir_block visit ns node).
Proof.
  intros Hs. unfold ir_block. growing_unfold.
  apply growing_bind; [growing_auto | intros ?].
  apply growing_bind; [apply growing_ir_block_loop, Hs | intros ?]. growing_auto.
Qed.

Lemma growing_dispatch node :
  (forall c, c ∈ sons node -> growing (visit c)) ->
  (forall c d, c ∈ sons node -> d ∈ sons c -> growing (visit d)) ->
  growing (dispatch visit node).
Proof.
  intros Hsons Hgrand. unfold dispatch.
  destruct (node_type node);
    unfold ir_leaf_node_uint, ir_leaf_node_var_id, ir_leaf_node_type,
      ir_sub, ir_add, ir_mul, ir_div, ir_mod, ir_arith, ir_neg, ir_and, ir_or,
      ir_not, ir_eq, ir_ne, ir_lt, ir_le, ir_gt, ir_ge, ir_relop, ir_assign,
      ir_return, ir_if, ir_while, ir_break, ir_continue,
      ir_function_formal_params, ir_declare_statment, ir_compile_unit, ir_default;
    growing_unfold;
    try (apply growing_ir_block; exact Hsons);
    try apply growing_ir_variable_declare;
    try solve [growing_auto].
  - (* FUNC_CALL *)
    unfold ir_function_call. growing_unfold.
    apply growing_bind; [growing_auto | intros cur].
    destruct (sons node) as [| name_node [| paramsNode rest]] eqn:Hs;
      try apply growing_crash.
    apply growing_bind; [growing_auto | intros callee].
    destruct callee; [| growing_auto].
    apply growing_bind; [growing_auto | intros ?].
    apply growing_bind; [| intros ?; growing_auto].
    destruct (sons paramsNode) as [| x xs] eqn:Hargs; [apply growing_ret |].
    apply growing_bind; [growing_auto | intros ?].
    apply growing_bind; [growing_auto | intros ?].
    apply growing_ir_function_call_loop. intros d Hd.
    apply (Hgrand paramsNode d); [| by rewrite Hargs].
    apply list_elem_of_further, list_elem_of_here.
  - (* FUNC_DEF *)
    unfold ir_function_define.
    apply growing_bind; [growing_auto | intros cur].
    destruct cur; [apply growing_ret |].
    destruct (sons node) as [| t [| n [| p [| b rest]]]] eqn:Hs;
      try apply growing_crash.
    apply growing_bind; [growing_auto | intros newFunc].
    destruct newFunc; [| apply growing_ret].
    growing_unfold. unfold ir_function_formal_params.
    repeat first
      [ apply growing_bind; [growing_auto | intros ?]
      | match goal with
        | |- growing (if ?b then _ else _) => destruct b; [solve [growing_auto] |]
        end ].
    apply growing_bind; [| intros ?; growing_auto].
    apply growing_ir_block. intros d Hd. apply (Hgrand b d); [| exact Hd].
    do 3 apply list_elem_of_further. apply list_elem_of_here.
  - (* DECL_STMT *)
    apply growing_bind; [apply growing_ir_declare_statment_loop | intros ?].
    apply growing_ret.
  - (* COMPILE_UNIT *)
    apply growing_bind; [growing_auto | intros ?].
    apply growing_bind; [apply growing_ir_compile_unit_loop, Hsons | intros ?].
    apply growing_ret.
Qed.

End HandlersGrow.

(** Visiting a node never lowers the label counter, never gives an address
    back and never takes a message out of the log. *)
Lemma growing_ir_visit_ast_node node : growing (ir_visit_ast_node node).
Proof.
  assert (forall h node, (height node <= h)%nat -> growing (ir_visit_ast_node node)) as H.
  { induction h as [| h IH]; intros nd Hh.
    - destruct nd; simpl in Hh; lia.
    - rewrite ir_visit_ast_node_unfold. apply growing_dispatch.
      + intros c Hc. apply IH. apply height_sons in Hc. lia.
      + intros c d Hc Hd. apply IH.
        apply height_sons in Hc. apply height_sons in Hd. lia. }
  exact (H (height node) node (le_n _)).
Qed.

(** ** The enclosing scopes *)

Lemma hoare_ret_weak {A} (P : GenState -> Prop) (Q : A -> GenState -> Prop) a :
  (forall s, P s -> Q a s) -> hoare P (ret a) Q.
Proof. intros H s b s' HP [-> ->]%ret_Some. auto. Qed.

Lemma scopes_kept_weaken n top T s :
  scopes_kept (S n) top T s -> scopes_kept n top T s.
Proof. intros (pre & top' & E & Hn & Hd). exists pre, top'. repeat split; auto. lia. Qed.

Lemma scope_frame_ret {A} (a : A) : scope_frame (ret a).
Proof. by intros s b s' [-> ->]%ret_Some. Qed.

Lemma scope_frame_crash {A} : scope_frame (@crash A).
Proof. intros s a s' H. discriminate H. Qed.

Lemma scope_frame_bind {A B} (m : M A) (k : A -> M B) :
  scope_frame m -> (forall a, scope_frame (k a)) -> scope_frame (bind m k).
Proof.
  intros Hm Hk s b s' (a & s1 & H1 & H2)%bind_Some.
  rewrite (Hk _ _ _ _ H2). eapply Hm, H1.
Qed.

Lemma scope_frame_hoare {A} (m : M A) n top T :
  scope_frame m -> hoare (scopes_kept n top T) m (fun _ => scopes_kept n top T).
Proof.
  intros Hm s a s' HP H. unfold scopes_kept. rewrite (Hm _ _ _ H). exact HP.
Qed.

Ltac scope_frame_prim :=
  let s := fresh "s" in let a := fresh "a" in let s' := fresh "s'" in
  let H := fresh "H" in
  intros s a s' H; cbv beta delta
    [with_module alloc minic_log generateLabel loop_contexts_top
     loop_contexts_push loop_contexts_pop setCurrentFunction newFunction
     getCurrentFunction findFunction findVarValue getFunction] in H;
  repeat case_match; simplify_eq; reflexivity.

Lemma scope_frame_alloc : scope_frame alloc.
Proof. scope_frame_prim. Qed.
Lemma scope_frame_minic_log fmt args : scope_frame (minic_log fmt args).
Proof. scope_frame_prim. Qed.
Lemma scope_frame_generateLabel : scope_frame generateLabel.
Proof. scope_frame_prim. Qed.
Lemma scope_frame_loop_contexts_top : scope_frame loop_contexts_top.
Proof. scope_frame_prim. Qed.
Lemma scope_frame_loop_contexts_push c : scope_frame (loop_contexts_push c).
Proof. scope_frame_prim. Qed.
Lemma scope_frame_loop_contexts_pop : scope_frame loop_contexts_pop.
Proof. scope_frame_prim. Qed.
Lemma scope_frame_getCurrentFunction : scope_frame getCurrentFunction.
Proof. scope_frame_prim. Qed.
Lemma scope_frame_setCurrentFunction f : scope_frame (setCurrentFunction f).
Proof. scope_frame_prim. Qed.
Lemma scope_frame_newFunction n t : scope_frame (newFunction n t).
Proof.
  intros s a s' H. unfold newFunction in H.
  destruct (functions (module s) !! n); simplify_eq; reflexivity.
Qed.
Lemma scope_frame_findFunction n : scope_frame (findFunction n).
Proof. scope_frame_prim. Qed.
Lemma scope_frame_findVarValue n : scope_frame (findVarValue n).
Proof. scope_frame_prim. Qed.
Lemma scope_frame_getFunction f : scope_frame (getFunction f).
Proof. scope_frame_prim. Qed.

Lemma scope_frame_update_function f g : scope_frame (update_function f g).
Proof.
  unfold update_function. apply scope_frame_bind; [apply scope_frame_getFunction |].
  intros fn. destruct f; [| apply scope_frame_crash]. scope_frame_prim.
Qed.

Create HintDb scope_frame.
#[export] Hint Resolve scope_frame_ret scope_frame_crash scope_frame_alloc
  scope_frame_minic_log scope_frame_generateLabel scope_frame_loop_contexts_top
  scope_frame_loop_contexts_push scope_frame_loop_contexts_pop
  scope_frame_getCurrentFunction scope_frame_setCurrentFunction
  scope_frame_newFunction scope_frame_findFunction scope_frame_findVarValue
  scope_frame_getFunction scope_frame_update_function : scope_frame.

Ltac scope_frame_auto :=
  first
    [ solve [auto with scope_frame]
    | apply scope_frame_bind; [scope_frame_auto | intros ?; scope_frame_auto]
    | match goal with
      | |- scope_frame (if ?b then _ else _) => destruct b; scope_frame_auto
      | |- scope_frame (match ?x with _ => _ end) => destruct x; scope_frame_auto
      end ].

Ltac scope_unfold :=
  unfold newConstInt,
    setExitLabel, setReturnValue, setExistFuncCall,
    setMaxFuncCallArgCnt, irCode_addInst, getMaxFuncCallArgCnt, getReturnValue,
    getExitLabel, getParams, getReturnType,
    new_EntryInstruction, new_ExitInstruction, new_LabelInstruction,
    new_MoveInstruction, new_BinaryInstruction, new_UnaryInstruction,
    new_BranchInstruction, new_GotoInstruction, new_FuncCallInstruction.

Lemma hoare_enterScope n top T :
  hoare (scopes_kept n top T) enterScope (fun _ => scopes_kept (S n) top T).
Proof.
  intros s a s' (pre & top' & E & Hn & Hd) [= <- <-].
  exists (∅ :: pre), top'. simpl. rewrite E. repeat split; auto. lia.
Qed.

Lemma hoare_leaveScope n top T :
  hoare (scopes_kept (S n) top T) leaveScope (fun _ => scopes_kept n top T).
Proof.
  intros s a s' (pre & top' & E & Hn & Hd) [= <- <-].
  destruct pre as [| p pre]; simpl in Hn; [lia |].
  exists pre, top'. simpl. rewrite E. repeat split; auto. lia.
Qed.

Lemma keeps_scopes_newVarValue top T t id : keeps_scopes top T (newVarValue t id).
Proof.
  intros n s v s' (pre & top' & E & Hn & Hd) H. unfold newVarValue in H.
  apply bind_Some in H as (a & s1 & [= <- <-] & H).
  apply bind_Some in H as (cur & s2 & [= <- <-] & H).
  apply bind_Some in H as (u & s3 & Hb & [-> ->]%ret_Some).
  destruct (String.eqb id "");
    [apply ret_Some in Hb as [_ ->]; by exists pre, top' |].
  injection Hb as _ <-. unfold scopes_kept. simpl. rewrite E.
  destruct pre as [| p pre]; simpl.
  - eexists [], _. repeat split; auto. intros x Hx.
    destruct (decide (id = x)) as [-> | Hne];
      [rewrite lookup_insert_eq | rewrite lookup_insert_ne by done]; eauto.
  - eexists (_ :: pre), top'. repeat split; auto.
Qed.

Ltac sk_visit :=
  match goal with
  | Hs : forall c, c ∈ _ -> keeps_scopes _ _ (_ c) |- hoare _ (_ ?c) _ =>
      apply Hs; set_solver
  end.

Ltac sk_prim :=
  first [ apply scope_frame_hoare; solve [scope_frame_auto]
        | apply keeps_scopes_newVarValue
        | sk_visit ].

Ltac sk_go :=
  lazymatch goal with
  | |- hoare _ (bind _ _) _ =>
      eapply hoare_bind; [ first [sk_prim | sk_go] | intros ?; cbv beta; sk_go ]
  | |- hoare _ (ret _) _ => apply hoare_ret
  | |- hoare _ crash _ => apply hoare_crash
  | |- hoare _ (match ?x with _ => _ end) _ => destruct x eqn:?; simplify_eq; sk_go
  | |- _ => sk_prim
  end.

Ltac sk_step :=
  lazymatch goal with
  | |- hoare _ (bind _ _) _ =>
      eapply hoare_bind; [ first [sk_prim | sk_go] | intros ?; cbv beta ]
  | |- hoare _ (ret _) _ =>
      first [ apply hoare_ret
            | apply hoare_ret_weak; intros ?; apply scopes_kept_weaken ]
  | |- hoare _ crash _ => apply hoare_crash
  | |- hoare _ (match ?x with _ => _ end) _ => destruct x eqn:?; simplify_eq
  end.

Section HandlersKeepScopes.

Variable visit : ast_node -> M NodeOut.
Variable top : gmap string Value.
Variable T : list (gmap string Value).

Lemma keeps_scopes_ir_compile_unit_loop l :
  (forall c, c ∈ l -> keeps_scopes top T (visit c)) ->
  keeps_scopes top T (ir_compile_unit_loop visit l).
Proof.
  induction l as [| c l IH]; intros Hl n; cbn [ir_compile_unit_loop].
  - apply hoare_ret.
  - eapply hoare_bind; [apply Hl; set_solver | intros r; cbv beta].
    destruct (ok r); [| apply hoare_ret]. apply IH. intros d Hd. apply Hl. set_solver.
Qed.

Lemma keeps_scopes_ir_block_loop l insts :
  (forall c, c ∈ l -> keeps_scopes top T (visit c)) ->
  keeps_scopes top T (ir_block_loop visit l insts).
Proof.
  revert insts. induction l as [| c l IH]; intros insts Hl n; cbn [ir_block_loop].
  - apply hoare_ret.
  - eapply hoare_bind; [apply Hl; set_solver | intros r; cbv beta].
    destruct (ok r); [| apply hoare_ret]. apply IH. intros d Hd. apply Hl. set_solver.
Qed.

Lemma keeps_scopes_ir_function_call_loop l ps insts :
  (forall c, c ∈ l -> keeps_scopes top T (visit c)) ->
  keeps_scopes top T (ir_function_call_loop visit l ps insts).
Proof.
  revert ps insts. induction l as [| c l IH]; intros ps insts Hl n;
    cbn [ir_function_call_loop].
  - apply hoare_ret.
  - eapply hoare_bind; [apply Hl; set_solver | intros r; cbv beta].
    destruct (ok r); [| apply hoare_ret]. apply IH. intros d Hd. apply Hl. set_solver.
Qed.

Lemma keeps_scopes_ir_variable_declare node :
  keeps_scopes top T (ir_variable_declare node).
Proof. intros n. unfold ir_variable_declare. repeat sk_step. Qed.

Lemma keeps_scopes_ir_declare_statment_loop l b :
  keeps_scopes top T (ir_declare_statment_loop l b).
Proof.
  revert b. induction l as [| c l IH]; intros b n; cbn [ir_declare_statment_loop].
  - apply hoare_ret.
  - eapply hoare_bind; [apply keeps_scopes_ir_variable_declare | intros r; cbv beta].
    destruct (ok r); [apply IH | apply hoare_ret].
Qed.

Lemma keeps_scopes_ir_block ns node :
  (forall c, c ∈ sons node -> keeps_scopes top T (visit c)) ->
  keeps_scopes top T (ir_block visit ns node).
Proof.
  intros Hs n. unfold ir_block. destruct ns.
  - eapply hoare_bind; [apply hoare_enterScope | intros ?; cbv beta].
    eapply hoare_bind; [apply keeps_scopes_ir_block_loop, Hs | intros r; cbv beta].
    destruct (fst r).
    + eapply hoare_bind; [apply hoare_leaveScope | intros ?; cbv beta].
      apply hoare_ret.
    + apply hoare_ret_weak. intros ?. apply scopes_kept_weaken.
  - eapply hoare_bind; [apply hoare_ret | intros ?; cbv beta].
    eapply hoare_bind; [apply keeps_scopes_ir_block_loop, Hs | intros r; cbv beta].
    destruct (fst r); repeat sk_step.
Qed.

Lemma keeps_scopes_dispatch node :
  (forall c, c ∈ sons node -> keeps_scopes top T (visit c)) ->
  (forall c d, c ∈ sons node -> d ∈ sons c -> keeps_scopes top T (visit d)) ->
  keeps_scopes top T (dispatch visit node).
Proof.
  intros Hsons Hgrand n. unfold dispatch.
  destruct (node_type node);
    unfold ir_leaf_node_uint, ir_leaf_node_var_id, ir_leaf_node_type,
      ir_sub, ir_add, ir_mul, ir_div, ir_mod, ir_arith, ir_neg, ir_and, ir_or,
      ir_not, ir_eq, ir_ne, ir_lt, ir_le, ir_gt, ir_ge, ir_relop, ir_assign,
      ir_return, ir_if, ir_while, ir_break, ir_continue,
      ir_function_formal_params, ir_declare_statment, ir_compile_unit, ir_default;
    scope_unfold;
    try (apply keeps_scopes_ir_block; exact Hsons);
    try apply keeps_scopes_ir_variable_declare;
    try solve [repeat sk_step].
  - (* FUNC_CALL *)
    unfold ir_function_call. scope_unfold.
    sk_step.
    destruct (sons node) as [| name_node [| paramsNode rest]] eqn:Hs;
      try apply hoare_crash.
    sk_step. destruct a0; [| repeat sk_step].
    sk_step.
    eapply hoare_bind; [| intros ?; cbv beta; repeat sk_step].
    destruct (sons paramsNode) as [| x xs] eqn:Hargs; [apply hoare_ret |].
    do 2 sk_step.
    apply keeps_scopes_ir_function_call_loop. intros d Hd.
    apply (Hgrand paramsNode d); [| by rewrite Hargs].
    apply list_elem_of_further, list_elem_of_here.
  - (* FUNC_DEF *)
    unfold ir_function_define. scope_unfold. unfold ir_function_formal_params.
    sk_step. destruct a; [apply hoare_ret |].
    destruct (sons node) as [| t [| nm [| p [| b rest]]]] eqn:Hs;
      try apply hoare_crash.
    sk_step. destruct a; [| apply hoare_ret].
    sk_step.
    eapply hoare_bind; [apply hoare_enterScope | intros ?; cbv beta].
    repeat sk_step.
    eapply hoare_bind.
    { apply keeps_scopes_ir_block. intros d Hd. apply (Hgrand b d); [| exact Hd].
      do 3 apply list_elem_of_further. apply list_elem_of_here. }
    intros br. cbv beta. repeat sk_step.
    eapply hoare_bind; [apply hoare_leaveScope | intros ?; cbv beta].
    apply hoare_ret.
  - (* DECL_STMT *)
    eapply hoare_bind; [apply keeps_scopes_ir_declare_statment_loop | intros ?].
    apply hoare_ret.
  - (* COMPILE_UNIT *)
    sk_step.
    eapply hoare_bind; [apply keeps_scopes_ir_compile_unit_loop, Hsons | intros ?].
    apply hoare_ret.
Qed.

End HandlersKeepScopes.

Lemma keeps_scopes_ir_visit_ast_node top T node :
  keeps_scopes top T (ir_visit_ast_node node).
Proof.
  assert (forall h node, (height node <= h)%nat ->
            keeps_scopes top T (ir_visit_ast_node node)) as H.
  { induction h as [| h IH]; intros nd Hh.
    - destruct nd; simpl in Hh; lia.
    - rewrite ir_visit_ast_node_unfold. apply keeps_scopes_dispatch.
      + intros c Hc. apply IH. apply height_sons in Hc. lia.
      + intros c d Hc Hd. apply IH.
        apply height_sons in Hc. apply height_sons in Hd. lia. }
  exact (H (height node) node (le_n _)).
Qed.

(** ** Conditional branches *)

Section ToString.

Variable Value_getIRName : Value -> string.
Variable Instruction_getIRName : Label -> string.
Variable Instruction_toString : Branch -> string.

(** X11. [BranchInstruction::toString] is defined only when the operator
    fits the constructor: a bc built by the one-target constructor, and a bt
    or bf built by the two-target constructor, dereference a null target;
    with the fitting constructor [toString] is defined exactly when the
    condition and the targets that constructor takes are not null. *)
Theorem toString_needs_matching_constructor _func _condVar t_true t_false target :
  let to_string := toString Value_getIRName Instruction_getIRName Instruction_toString in
  to_string (BranchInstruction_bt_bf _func IRINST_OP_BC _condVar target) = None /\
  (is_Some (to_string (BranchInstruction_bt_bf _func IRINST_OP_BT _condVar target)) <->
   is_Some _condVar /\ is_Some target) /\
  (is_Some (to_string (BranchInstruction_bt_bf _func IRINST_OP_BF _condVar target)) <->
   is_Some _condVar /\ is_Some target) /\
  (is_Some (to_string (BranchInstruction_bc _func IRINST_OP_BC _condVar t_true t_false)) <->
   is_Some _condVar /\ is_Some t_true /\ is_Some t_false) /\
  to_string (BranchInstruction_bc _func IRINST_OP_BT _condVar t_true t_false) = None /\
  to_string (BranchInstruction_bc _func IRINST_OP_BF _condVar t_true t_false) = None.
Proof.
  unfold toString, BranchInstruction_bt_bf, BranchInstruction_bc. cbn.
  destruct _condVar, target, t_true, t_false; cbn;
    repeat split; try reflexivity; intros; destruct_and?;
      repeat match goal with H : is_Some None |- _ => destruct H; discriminate end;
      eauto.
Qed.

End ToString.

Lemma yields_ret {A} (a : A) (phi : A -> Prop) : phi a -> yields (ret a) phi.
Proof. intros H s b s' [-> ->]%ret_Some. exact H. Qed.

Lemma yields_crash {A} (phi : A -> Prop) : yields crash phi.
Proof. intros s a s' H. discriminate H. Qed.

Lemma yields_bind {A B} (m : M A) (k : A -> M B) (phi : A -> Prop) (psi : B -> Prop) :
  yields m phi -> (forall a, phi a -> yields (k a) psi) -> yields (bind m k) psi.
Proof.
  intros Hm Hk s b s' (a & s1 & H1 & H2)%bind_Some.
  eapply Hk; [eapply Hm |]; eauto.
Qed.

Lemma yields_True {A} (m : M A) : yields m (fun _ => True).
Proof. intros s a s' _. exact I. Qed.

Lemma yields_new_BranchInstruction f op c l :
  op = IRINST_OP_BT \/ op = IRINST_OP_BF ->
  yields (new_BranchInstruction f op c l) one_target_branch.
Proof.
  intros Hop s i s' H. unfold new_BranchInstruction in H.
  apply bind_Some in H as (a & s1 & _ & [-> ->]%ret_Some).
  split; [exact Hop | by exists l].
Qed.

Ltac yields_new :=
  let H := fresh in
  intros ? ? ? H;
  apply bind_Some in H as (? & ? & _ & [-> ->]%ret_Some); exact I.

Lemma yields_new_MoveInstruction f d v :
  yields (new_MoveInstruction f d v) one_target_branch.
Proof. yields_new. Qed.
Lemma yields_new_BinaryInstruction f op a b t :
  yields (new_BinaryInstruction f op a b t) one_target_branch.
Proof. yields_new. Qed.
Lemma yields_new_UnaryInstruction f op a t :
  yields (new_UnaryInstruction f op a t) one_target_branch.
Proof. yields_new. Qed.
Lemma yields_new_GotoInstruction f l :
  yields (new_GotoInstruction f l) one_target_branch.
Proof. yields_new. Qed.
Lemma yields_new_FuncCallInstruction f c args t :
  yields (new_FuncCallInstruction f c args t) one_target_branch.
Proof. yields_new. Qed.

Ltac yields_prim :=
  first
    [ match goal with
      | Hs : forall c, c ∈ _ -> emits_one_target_branches (_ c) |- yields (_ ?c) _ =>
          apply Hs; set_solver
      end
    | apply yields_new_BranchInstruction; solve [auto]
    | apply yields_new_MoveInstruction
    | apply yields_new_BinaryInstruction
    | apply yields_new_UnaryInstruction
    | apply yields_new_GotoInstruction
    | apply yields_new_FuncCallInstruction
    | apply yields_True ].

Ltac yields_done :=
  cbn [blockInsts fst snd];
  repeat first
    [ apply Forall_nil_2
    | apply Forall_app_2
    | apply Forall_cons_2
    | assumption
    | exact I ].

Ltac yields_step :=
  lazymatch goal with
  | |- yields (bind (ret ?a) ?k) _ =>
      change (bind (ret a) k) with (k a); cbv beta; cbn [ok blockInsts val negb]
  | |- yields (bind _ _) _ =>
      eapply yields_bind; [yields_prim | intros ? ?; cbv beta]
  | |- yields (ret _) _ => apply yields_ret; yields_done
  | |- yields crash _ => apply yields_crash
  | |- yields (match ?x with _ => _ end) _ => destruct x eqn:?; simplify_eq
  end.


Section HandlersEmit.

Variable visit : ast_node -> M NodeOut.

Lemma emits_ir_block_loop l insts :
  (forall c, c ∈ l -> emits_one_target_branches (visit c)) ->
  Forall one_target_branch insts ->
  yields (ir_block_loop visit l insts)
    (fun r => Forall one_target_branch (snd r)).
Proof.
  revert insts. induction l as [| c l IH]; intros insts Hl Hi; cbn [ir_block_loop].
  - apply yields_ret. exact Hi.
  - eapply yields_bind; [apply Hl; set_solver | intros r Hr; cbv beta].
    destruct (ok r); [| apply yields_ret; exact Hi].
    apply IH; [intros d Hd; apply Hl; set_solver | by apply Forall_app_2].
Qed.

Lemma emits_ir_function_call_loop l ps insts :
  (forall c, c ∈ l -> emits_one_target_branches (visit c)) ->
  Forall one_target_branch insts ->
  yields (ir_function_call_loop visit l ps insts)
    (fun r => Forall one_target_branch (snd (snd r))).
Proof.
  revert ps insts. induction l as [| c l IH]; intros ps insts Hl Hi;
    cbn [ir_function_call_loop].
  - apply yields_ret. exact Hi.
  - eapply yields_bind; [apply Hl; set_solver | intros r Hr; cbv beta].
    destruct (ok r); [| apply yields_ret; exact Hi].
    apply IH; [intros d Hd; apply Hl; set_solver | by apply Forall_app_2].
Qed.

Lemma emits_ir_block ns node :
  (forall c, c ∈ sons node -> emits_one_target_branches (visit c)) ->
  emits_one_target_branches (ir_block visit ns node).
Proof.
  intros Hs. unfold emits_one_target_branches, ir_block.
  eapply yields_bind; [apply yields_True | intros ? _].
  eapply yields_bind; [apply emits_ir_block_loop; [exact Hs | constructor] |].
  intros r Hr. cbv beta. repeat yields_step.
Qed.

Lemma emits_dispatch node :
  (forall c, c ∈ sons node -> emits_one_target_branches (visit c)) ->
  (forall c d, c ∈ sons node -> d ∈ sons c -> emits_one_target_branches (visit d)) ->
  emits_one_target_branches (dispatch visit node).
Proof.
  intros Hsons Hgrand. unfold emits_one_target_branches, dispatch.
  destruct (node_type node);
    unfold ir_leaf_node_uint, ir_leaf_node_var_id, ir_leaf_node_type,
      ir_sub, ir_add, ir_mul, ir_div, ir_mod, ir_arith, ir_neg, ir_and, ir_or,
      ir_not, ir_eq, ir_ne, ir_lt, ir_le, ir_gt, ir_ge, ir_relop, ir_assign,
      ir_return, ir_while, ir_break, ir_continue, ir_variable_declare,
      ir_function_formal_params, ir_declare_statment, ir_compile_unit, ir_default;
    try (apply emits_ir_block; exact Hsons);
    try solve [repeat yields_step].
  - (* IF *)
    unfold ir_if. yields_step. destruct a; [| apply yields_ret; constructor].
    do 3 yields_step.
    destruct (sons node) as [| c [| t rest]] eqn:Hs; try apply yields_crash.
    do 7 yields_step.
    eapply yields_bind with (phi := Forall one_target_branch).
    { destruct rest as [| e l']; [apply yields_ret; yields_done |].
      yields_step. apply yields_ret. yields_done. }
    intros insts Hinsts. cbv beta. repeat yields_step.
  - (* FUNC_CALL *)
    unfold ir_function_call. yields_step.
    destruct (sons node) as [| name_node [| paramsNode rest]] eqn:Hs;
      try apply yields_crash.
    do 2 yields_step; [| repeat yields_step].
    yields_step.
    eapply yields_bind with
      (phi := fun r => Forall one_target_branch (snd (snd r))).
    { destruct (sons paramsNode) as [| x xs] eqn:Hargs;
        [apply yields_ret; constructor |].
      do 2 yields_step.
      apply emits_ir_function_call_loop; [| constructor].
      intros d Hd. apply (Hgrand paramsNode d); [| by rewrite Hargs].
      apply list_elem_of_further, list_elem_of_here. }
    intros r Hr. cbv beta. repeat yields_step.
  - (* FUNC_DEF *)
    unfold ir_function_define, ir_function_formal_params. yields_step.
    destruct a; [apply yields_ret; constructor |].
    destruct (sons node) as [| t [| nm [| p [| b rest]]]] eqn:Hs;
      try apply yields_crash.
    repeat yields_step.
Qed.

End HandlersEmit.

Lemma emits_ir_visit_ast_node node :
  emits_one_target_branches (ir_visit_ast_node node).
Proof.
  assert (forall h node, (height node <= h)%nat ->
            emits_one_target_branches (ir_visit_ast_node node)) as H.
  { induction h as [| h IH]; intros nd Hh.
    - destruct nd; simpl in Hh; lia.
    - rewrite ir_visit_ast_node_unfold. apply emits_dispatch.
      + intros c Hc. apply IH. apply height_sons in Hc. lia.
      + intros c d Hc Hd. apply IH.
        apply height_sons in Hc. apply height_sons in Hd. lia. }
  exact (H (height node) node (le_n _)).
Qed.

(** ** Calls and the registry of functions *)

Lemma sig_le_refl m : sig_le m m.
Proof. intros n f H. eauto. Qed.

Lemma sig_le_trans m1 m2 m3 : sig_le m1 m2 -> sig_le m2 m3 -> sig_le m1 m3.
Proof.
  intros H1 H2 n f Hf. destruct (H1 n f Hf) as (f2 & Hf2 & E1 & E2).
  destruct (H2 n f2 Hf2) as (f3 & Hf3 & E3 & E4). exists f3. split; [exact Hf3 |].
  split; congruence.
Qed.

Lemma call_matches_mono m m' i : sig_le m m' -> call_matches m i -> call_matches m' i.
Proof.
  intros Hle. destruct i; simpl; auto.
  intros (fn & Hfn & Hlen & Ht). destruct (Hle _ _ Hfn) as (fn' & Hfn' & E1 & E2).
  exists fn'. split; [exact Hfn' |]. split; congruence.
Qed.

Lemma call_free_matches fs i : call_free i -> call_matches fs i.
Proof. destruct i; simpl; tauto. Qed.

Lemma keeps_signatures_ret {A} (a : A) : keeps_signatures (ret a).
Proof. intros s b s' [-> ->]%ret_Some. apply sig_le_refl. Qed.

Lemma keeps_signatures_crash {A} : keeps_signatures (@crash A).
Proof. intros s a s' H. discriminate H. Qed.

Lemma keeps_signatures_bind {A B} (m : M A) (k : A -> M B) :
  keeps_signatures m -> (forall a, keeps_signatures (k a)) ->
  keeps_signatures (bind m k).
Proof.
  intros Hm Hk s b s' (a & s1 & H1 & H2)%bind_Some.
  eapply sig_le_trans; [eapply Hm | eapply Hk]; eauto.
Qed.

Lemma frame_keeps_signatures {A} (m : M A) : frame m -> keeps_signatures m.
Proof. intros Hm s a s' H. destruct (Hm s a s' H) as [-> _]. apply sig_le_refl. Qed.

Lemma keeps_signatures_newFunction n t : keeps_signatures (newFunction n t).
Proof.
  intros s a s' H.
  apply newFunction_Some in H as [(-> & -> & _) | (-> & E & ->)]; [apply sig_le_refl |].
  simpl. intros m f Hf. destruct (decide (n = m)) as [-> | Hne]; [congruence |].
  rewrite lookup_insert_ne by done. eauto.
Qed.

Lemma keeps_signatures_update_function f g :
  (forall fn, params (g fn) = params fn /\ returnType (g fn) = returnType fn) ->
  keeps_signatures (update_function f g).
Proof.
  intros Hg s a s' H. destruct f as [n |].
  2: { unfold update_function, getFunction in H.
       apply bind_Some in H as (fn & s1 & Hfn & _). discriminate. }
  apply update_function_Some in H as (fn & E & ->). simpl.
  intros m f Hf. destruct (decide (n = m)) as [-> | Hne].
  - rewrite lookup_insert_eq. eexists. split; [reflexivity |].
    rewrite E in Hf. injection Hf as ->. apply Hg.
  - rewrite lookup_insert_ne by done. eauto.
Qed.

Lemma keeps_signatures_setCurrentFunction f : keeps_signatures (setCurrentFunction f).
Proof. intros s a s' [= <- <-]. apply sig_le_refl. Qed.

Lemma keeps_signatures_enterScope : keeps_signatures enterScope.
Proof. intros s a s' [= <- <-]. apply sig_le_refl. Qed.

Lemma keeps_signatures_leaveScope : keeps_signatures leaveScope.
Proof. intros s a s' [= <- <-]. apply sig_le_refl. Qed.

Lemma keeps_signatures_push c : keeps_signatures (loop_contexts_push c).
Proof. intros s a s' [= <- <-]. apply sig_le_refl. Qed.

Lemma keeps_signatures_pop : keeps_signatures loop_contexts_pop.
Proof. intros s a s' [= <- <-]. apply sig_le_refl. Qed.

Ltac keeps_signatures_auto :=
  first
    [ apply keeps_signatures_ret
    | apply keeps_signatures_crash
    | apply keeps_signatures_newFunction
    | apply keeps_signatures_setCurrentFunction
    | apply keeps_signatures_enterScope
    | apply keeps_signatures_leaveScope
    | apply keeps_signatures_push
    | apply keeps_signatures_pop
    | apply keeps_signatures_update_function; intros ?; split; reflexivity
    | apply frame_keeps_signatures; solve [frame_auto]
    | apply keeps_signatures_bind;
        [keeps_signatures_auto | intros ?; keeps_signatures_auto]
    | match goal with
      | |- keeps_signatures (if ?b then _ else _) =>
          destruct b; keeps_signatures_auto
      | |- keeps_signatures (match ?x with _ => _ end) =>
          destruct x; keeps_signatures_auto
      end ].

Lemma keeps_signatures_hoare {A} (m : M A) L :
  keeps_signatures m -> hoare (calls_match L) m (fun _ => calls_match L).
Proof.
  intros Hm s a s' HL H. unfold calls_match in *.
  eapply Forall_impl; [exact HL |]. intros i. apply call_matches_mono. eapply Hm, H.
Qed.

Lemma keeps_signatures_yields_hoare {A} (m : M A) (phi : A -> Prop) L :
  keeps_signatures m -> yields m phi ->
  hoare (calls_match L) m (fun a s => calls_match L s /\ phi a).
Proof.
  intros Hm Hy s a s' HL H. split; [| eapply Hy, H].
  eapply keeps_signatures_hoare; eauto.
Qed.

Ltac call_free_new :=
  let H := fresh in
  intros ? ? ? H;
  apply bind_Some in H as (? & ? & _ & [-> ->]%ret_Some); exact I.

Lemma call_free_new_MoveInstruction f d v :
  yields (new_MoveInstruction f d v) call_free.
Proof. call_free_new. Qed.
Lemma call_free_new_BinaryInstruction f op a b t :
  yields (new_BinaryInstruction f op a b t) call_free.
Proof. call_free_new. Qed.
Lemma call_free_new_UnaryInstruction f op a t :
  yields (new_UnaryInstruction f op a t) call_free.
Proof. call_free_new. Qed.
Lemma call_free_new_BranchInstruction f op c l :
  yields (new_BranchInstruction f op c l) call_free.
Proof. call_free_new. Qed.
Lemma call_free_new_GotoInstruction f l :
  yields (new_GotoInstruction f l) call_free.
Proof. call_free_new. Qed.

Ltac cm_unfold :=
  unfold setExitLabel, setReturnValue, setExistFuncCall,
    setMaxFuncCallArgCnt, irCode_addInst.

Ltac cm_prim :=
  first
    [ match goal with
      | Hs : forall c, c ∈ _ -> emits_matching_calls (_ c) |- hoare _ (_ ?c) _ =>
          apply Hs; set_solver
      end
    | apply keeps_signatures_yields_hoare;
        [ solve [keeps_signatures_auto]
        | first [ apply call_free_new_MoveInstruction
                | apply call_free_new_BinaryInstruction
                | apply call_free_new_UnaryInstruction
                | apply call_free_new_BranchInstruction
                | apply call_free_new_GotoInstruction ] ]
    | apply keeps_signatures_hoare; solve [keeps_signatures_auto] ].

Ltac cm_done :=
  let s := fresh "s" in
  let H := fresh "H" in
  apply hoare_ret_weak; intros s H; unfold calls_match in *;
  cbn [blockInsts fst snd] in *;
  rewrite ?Forall_app, ?Forall_cons, ?Forall_nil in *;
  cbn [call_matches];
  intuition auto using call_free_matches.

Ltac cm_step :=
  lazymatch goal with
  | |- hoare _ (bind (ret ?a) ?k) _ =>
      change (bind (ret a) k) with (k a); cbv beta; cbn [ok blockInsts val negb]
  | |- hoare _ (bind _ _) _ =>
      eapply hoare_bind;
        [ cm_prim | intros ?; cbv beta; try (apply hoare_pre_pure; intros ?) ]
  | |- hoare _ (ret _) _ => cm_done
  | |- hoare _ crash _ => apply hoare_crash
  | |- hoare _ (match ?x with _ => _ end) _ => destruct x eqn:?; simplify_eq
  end.

Lemma hoare_post {A} (P : GenState -> Prop) (Q Q' : A -> GenState -> Prop) m :
  hoare P m Q -> (forall a s, Q a s -> Q' a s) -> hoare P m Q'.
Proof. intros H HQ s a s' HP Hm. eapply HQ, H; eauto. Qed.

Lemma calls_match_app_l L L' s : calls_match (L ++ L') s -> calls_match L s.
Proof. unfold calls_match. rewrite Forall_app. tauto. Qed.

Section HandlersMatch.

Variable visit : ast_node -> M NodeOut.

Lemma calls_match_ir_compile_unit_loop l L :
  (forall c, c ∈ l -> emits_matching_calls (visit c)) ->
  hoare (calls_match L) (ir_compile_unit_loop visit l) (fun _ => calls_match L).
Proof.
  induction l as [| c l IH]; intros Hl; cbn [ir_compile_unit_loop].
  - apply hoare_ret.
  - eapply hoare_bind.
    { eapply hoare_post; [apply Hl; set_solver |].
      intros a s. apply calls_match_app_l. }
    intros r. cbv beta. destruct (ok r); [| apply hoare_ret].
    apply IH. intros d Hd. apply Hl. set_solver.
Qed.

Lemma keeps_signatures_ir_declare_statment_loop l b :
  keeps_signatures (ir_declare_statment_loop l b).
Proof.
  revert b. induction l as [| c l IH]; intros b; cbn [ir_declare_statment_loop].
  - apply keeps_signatures_ret.
  - apply keeps_signatures_bind;
      [unfold ir_variable_declare; keeps_signatures_auto | intros r].
    destruct (ok r); [apply IH | apply keeps_signatures_ret].
Qed.

Lemma emits_matching_ir_block_loop l insts L :
  (forall c, c ∈ l -> emits_matching_calls (visit c)) ->
  hoare (calls_match (L ++ insts)) (ir_block_loop visit l insts)
    (fun r => calls_match (L ++ snd r)).
Proof.
  revert insts. induction l as [| c l IH]; intros insts Hl; cbn [ir_block_loop].
  - apply hoare_ret_weak. auto.
  - eapply hoare_bind; [apply Hl; set_solver | intros r; cbv beta].
    destruct (ok r).
    + rewrite <- app_assoc. apply IH. intros d Hd. apply Hl. set_solver.
    + cm_done.
Qed.

Lemma emits_matching_ir_function_call_loop l ps insts L :
  (forall c, c ∈ l -> emits_matching_calls (visit c)) ->
  hoare (calls_match (L ++ insts)) (ir_function_call_loop visit l ps insts)
    (fun r => calls_match (L ++ snd (snd r))).
Proof.
  revert ps insts. induction l as [| c l IH]; intros ps insts Hl;
    cbn [ir_function_call_loop].
  - apply hoare_ret_weak. auto.
  - eapply hoare_bind; [apply Hl; set_solver | intros r; cbv beta].
    destruct (ok r).
    + rewrite <- app_assoc. apply IH. intros d Hd. apply Hl. set_solver.
    + cm_done.
Qed.

Lemma emits_matching_ir_block ns node :
  (forall c, c ∈ sons node -> emits_matching_calls (visit c)) ->
  emits_matching_calls (ir_block visit ns node).
Proof.
  intros Hs L. unfold ir_block. cm_step.
  eapply hoare_bind.
  { eapply hoare_pre; [| apply (emits_matching_ir_block_loop (sons node) [] L Hs)].
    intros s. by rewrite app_nil_r. }
  intros r. cbv beta. repeat cm_step.
Qed.

Lemma emits_matching_dispatch node :
  (forall c, c ∈ sons node -> emits_matching_calls (visit c)) ->
  (forall c d, c ∈ sons node -> d ∈ sons c -> emits_matching_calls (visit d)) ->
  emits_matching_calls (dispatch visit node).
Proof.
  intros Hsons Hgrand L. unfold dispatch.
  destruct (node_type node);
    unfold ir_leaf_node_uint, ir_leaf_node_var_id, ir_leaf_node_type,
      ir_sub, ir_add, ir_mul, ir_div, ir_mod, ir_arith, ir_neg, ir_and, ir_or,
      ir_not, ir_eq, ir_ne, ir_lt, ir_le, ir_gt, ir_ge, ir_relop, ir_assign,
      ir_return, ir_while, ir_break, ir_continue, ir_variable_declare,
      ir_function_formal_params, ir_declare_statment, ir_compile_unit, ir_default;
    try (apply emits_matching_ir_block; exact Hsons);
    try solve [repeat cm_step].
  - (* IF *)
    unfold ir_if. cm_step. destruct a; [| cm_done].
    do 3 cm_step.
    destruct (sons node) as [| c [| t rest]] eqn:Hs; try apply hoare_crash.
    do 7 cm_step.
    eapply hoare_bind with
      (Q := fun insts s => calls_match (L ++ insts) s).
    { destruct rest as [| e l']; [cm_done |].
      cm_step. cm_done. }
    intros insts. cbv beta. repeat cm_step.
  - (* FUNC_CALL *)
    intros s out s' HL H. unfold ir_function_call in H.
    apply bind_Some in H as (cur & s0 & [= <- <-] & H).
    destruct (sons node) as [| name_node [| paramsNode rest]] eqn:Hs;
      try discriminate H.
    apply bind_Some in H as (callee & s0 & [= <- <-] & H).
    destruct (functions (module s) !! name name_node) as [fn0 |] eqn:Hfn0.
    2: { exec_in H. injection H as <- <-. unfold calls_match in *.
         cbn [blockInsts module functions]. by rewrite app_nil_r. }
    apply bind_Some in H as (u & s1 & Hmark & H).
    assert (calls_match L s1) as HL1.
    { eapply (keeps_signatures_hoare _ L); [| exact HL | exact Hmark].
      cm_unfold. keeps_signatures_auto. }
    apply bind_Some in H as ([b [vs insts]] & s2 & Hloop & H).
    assert (calls_match (L ++ insts) s2) as HL2.
    { match type of Hloop with
      | ?m _ = _ =>
          assert (hoare (calls_match L) m (fun r => calls_match (L ++ snd (snd r))))
            as Hr
      end.
      { destruct (sons paramsNode) as [| x xs] eqn:Hargs; [cm_done |].
        cbv zeta. cm_unfold. do 2 cm_step.
        eapply hoare_pre;
          [| apply (emits_matching_ir_function_call_loop (x :: xs) [] [] L)].
        - intros ?. by rewrite app_nil_r.
        - intros d Hd. apply (Hgrand paramsNode d); [| by rewrite Hargs].
          apply list_elem_of_further, list_elem_of_here. }
      exact (Hr s1 _ s2 HL1 Hloop). }
    cbn [fst snd] in H. destruct b; cbn [negb] in H.
    2: { apply ret_Some in H as [-> ->]. exact HL2. }
    apply bind_Some in H as (ps & s3 & Hps & H). unfold getParams in Hps.
    apply bind_Some in Hps as (fn & s4 & Hfn & [-> ->]%ret_Some).
    unfold getFunction in Hfn.
    destruct (functions (module s2) !! name name_node) as [fn' |] eqn:Hcallee;
      [| discriminate].
    injection Hfn as -> ->.
    destruct (Nat.eqb_spec (length vs) (length (params fn))) as [Hlen | Hlen];
      cbn [negb] in H.
    2: { exec_in H. injection H as <- <-. exact HL2. }
    unfold getReturnType, getFunction, bind in H. rewrite Hcallee in H.
    exec_in H. injection H as <- <-.
    unfold calls_match in *. cbn [blockInsts module functions].
    rewrite app_assoc. apply Forall_app_2; [exact HL2 |].
    constructor; [| constructor]. simpl. eauto.
  - (* FUNC_DEF *)
    unfold ir_function_define, ir_function_formal_params. cm_unfold. cm_step.
    destruct a; [cm_done |].
    destruct (sons node) as [| t [| nm [| p [| b rest]]]] eqn:Hs;
      try apply hoare_crash.
    repeat cm_step.
    eapply hoare_bind.
    { eapply hoare_post.
      - apply emits_matching_ir_block. intros d Hd. apply (Hgrand b d); [| exact Hd].
        do 3 apply list_elem_of_further. apply list_elem_of_here.
      - intros ? ?. apply calls_match_app_l. }
    intros br. cbv beta. repeat cm_step.
  - (* DECL_STMT *)
    eapply hoare_bind;
      [apply keeps_signatures_hoare, keeps_signatures_ir_declare_statment_loop |].
    intros r. cm_done.
  - (* COMPILE_UNIT *)
    cm_step.
    eapply hoare_bind; [apply calls_match_ir_compile_unit_loop, Hsons |].
    intros r. cm_done.
Qed.

End HandlersMatch.

Lemma emits_matching_ir_visit_ast_node node :
  emits_matching_calls (ir_visit_ast_node node).
Proof.
  assert (forall h node, (height node <= h)%nat ->
            emits_matching_calls (ir_visit_ast_node node)) as H.
  { induction h as [| h IH]; intros nd Hh.
    - destruct nd; simpl in Hh; lia.
    - rewrite ir_visit_ast_node_unfold. apply emits_matching_dispatch.
      + intros c Hc. apply IH. apply height_sons in Hc. lia.
      + intros c d Hc Hd. apply IH.
        apply height_sons in Hc. apply height_sons in Hd. lia. }
  exact (H (height node) node (le_n _)).
Qed.

(** X9. Every call instruction in the buffer of a visited node names a
    function that is registered when the visit ends, passes as many
    arguments as that function has parameters, and has its return type. *)
Theorem emitted_calls_match_callee node s out s' a f callee args t :
  ir_visit_ast_node node s = Some (out, s') ->
  FuncCallInstruction a f callee args t ∈ blockInsts out ->
  exists fn,
    functions (module s') !! callee = Some fn /\
    length args = length (params fn) /\ t = returnType fn.
Proof.
  intros H Hin.
  pose proof (emits_matching_ir_visit_ast_node node [] s out s') as Hm.
  unfold calls_match in Hm. simpl in Hm.
  specialize (Hm (Forall_nil_2 _) H). rewrite Forall_forall in Hm.
  exact (Hm _ Hin).
Qed.

(** ** The depth of the scope stack *)

Lemma propagates_failure_unfold node :
  propagates_failure node =
  negb (ignores_failure (node_type node)) && forallb propagates_failure (sons node).
Proof. destruct node; reflexivity. Qed.

Lemma propagates_failure_sons node c :
  propagates_failure node = true -> c ∈ sons node -> propagates_failure c = true.
Proof.
  rewrite propagates_failure_unfold. intros H Hc.
  apply andb_prop in H as [_ H]. rewrite forallb_forall in H.
  apply H. by apply list_elem_of_In.
Qed.

Lemma depth_is_ge d s : depth_is d s -> depth_ge d s.
Proof. unfold depth_is, depth_ge. lia. Qed.

Lemma depth_ge_S d s : depth_ge (S d) s -> depth_ge d s.
Proof. unfold depth_ge. lia. Qed.

Lemma scope_frame_depth_is {A} (m : M A) d :
  scope_frame m -> hoare (depth_is d) m (fun _ => depth_is d).
Proof. intros Hm s a s' HP H. unfold depth_is. by rewrite (Hm _ _ _ H). Qed.

Lemma scope_frame_depth_ge {A} (m : M A) d :
  scope_frame m -> hoare (depth_ge d) m (fun _ => depth_ge d).
Proof. intros Hm s a s' HP H. unfold depth_ge. by rewrite (Hm _ _ _ H). Qed.

Lemma newVarValue_depth t id s v s' :
  newVarValue t id s = Some (v, s') ->
  length (scopeStack (module s')) = length (scopeStack (module s)).
Proof.
  intros H. unfold newVarValue in H.
  apply bind_Some in H as (a & s1 & [= <- <-] & H).
  apply bind_Some in H as (cur & s2 & [= <- <-] & H).
  apply bind_Some in H as (u & s3 & Hb & [-> ->]%ret_Some).
  destruct (String.eqb id ""); [by apply ret_Some in Hb as [_ ->] |].
  injection Hb as _ <-. simpl. by destruct (scopeStack (module s)).
Qed.

Lemma depth_is_newVarValue t id d :
  hoare (depth_is d) (newVarValue t id) (fun _ => depth_is d).
Proof. intros s v s' HP H. unfold depth_is. by rewrite (newVarValue_depth _ _ _ _ _ H). Qed.

Lemma depth_is_enterScope d :
  hoare (depth_is d) enterScope (fun _ => depth_is (S d)).
Proof. intros s a s' HP [= <- <-]. unfold depth_is in *. simpl. lia. Qed.

Lemma depth_is_leaveScope d :
  hoare (depth_is (S d)) leaveScope (fun _ => depth_is d).
Proof.
  intros s a s' HP [= <- <-]. unfold depth_is in *. simpl.
  destruct (scopeStack (module s)); simpl in *; lia.
Qed.

Ltac bal_prim :=
  first [ apply scope_frame_depth_is; solve [scope_frame_auto]
        | apply depth_is_newVarValue ].

Ltac bal_go :=
  lazymatch goal with
  | |- hoare _ (bind _ _) _ =>
      eapply hoare_bind; [ first [bal_prim | bal_go] | intros ?; cbv beta; bal_go ]
  | |- hoare _ (ret _) _ => apply hoare_ret
  | |- hoare _ crash _ => apply hoare_crash
  | |- hoare _ (match ?x with _ => _ end) _ => destruct x eqn:?; simplify_eq; bal_go
  | |- _ => bal_prim
  end.

(** After a child visited from depth [d]: on failure the handler is about
    to return [false]; on success the depth is [d] again. *)
Ltac bal_visit Hc :=
  eapply hoare_bind; [apply Hc | intros ?; cbv beta];
  match goal with
  | |- hoare _ (if negb (ok ?o) then _ else _) _ =>
      destruct (ok o) eqn:?; cbn [negb];
      [ eapply (hoare_pre (depth_is _)); [intros ? [_ ?]; auto |]
      | apply hoare_ret_weak; cbn [ok]; intros ? [? _]; split; [auto | discriminate] ]
  end.

Ltac bal_done :=
  apply hoare_ret_weak; cbn [ok]; intros ? ?;
  split; [by apply depth_is_ge | auto].

Ltac bal_step :=
  lazymatch goal with
  | |- hoare _ (bind _ _) _ =>
      eapply hoare_bind; [ first [bal_prim | bal_go] | intros ?; cbv beta ]
  | |- hoare _ (ret _) _ => bal_done
  | |- hoare _ crash _ => apply hoare_crash
  | |- hoare _ (match ?x with _ => _ end) _ => destruct x eqn:?; simplify_eq
  end.

Section HandlersBalanced.

Variable visit : ast_node -> M NodeOut.

Lemma balanced_ir_block_loop l insts d :
  (forall c, c ∈ l -> balanced (visit c)) ->
  hoare (depth_is d) (ir_block_loop visit l insts)
    (fun r s => depth_ge d s /\ (fst r = true -> depth_is d s)).
Proof.
  revert insts. induction l as [| c l IH]; intros insts Hl; cbn [ir_block_loop].
  - apply hoare_ret_weak. intros s Hs. split; [by apply depth_is_ge | auto].
  - eapply hoare_bind; [apply Hl; set_solver | intros r; cbv beta].
    destruct (ok r).
    + eapply (hoare_pre (depth_is _)); [intros ? [_ ?]; auto |].
      apply IH. intros e He. apply Hl. set_solver.
    + apply hoare_ret_weak. intros s [Hs _]. split; [auto | discriminate].
Qed.

Lemma balanced_ir_function_call_loop l ps insts d :
  (forall c, c ∈ l -> balanced (visit c)) ->
  hoare (depth_is d) (ir_function_call_loop visit l ps insts)
    (fun r s => depth_ge d s /\ (fst r = true -> depth_is d s)).
Proof.
  revert ps insts. induction l as [| c l IH]; intros ps insts Hl;
    cbn [ir_function_call_loop].
  - apply hoare_ret_weak. intros s Hs. split; [by apply depth_is_ge | auto].
  - eapply hoare_bind; [apply Hl; set_solver | intros r; cbv beta].
    destruct (ok r).
    + eapply (hoare_pre (depth_is _)); [intros ? [_ ?]; auto |].
      apply IH. intros e He. apply Hl. set_solver.
    + apply hoare_ret_weak. intros s [Hs _]. split; [auto | discriminate].
Qed.

Lemma balanced_ir_compile_unit_loop l d :
  (forall c, c ∈ l -> balanced (visit c)) ->
  hoare (depth_is d) (ir_compile_unit_loop visit l)
    (fun r s => depth_ge d s /\ (r = true -> depth_is d s)).
Proof.
  induction l as [| c l IH]; intros Hl; cbn [ir_compile_unit_loop].
  - apply hoare_ret_weak. intros s Hs. split; [by apply depth_is_ge | auto].
  - eapply hoare_bind; [apply Hl; set_solver | intros r; cbv beta].
    destruct (ok r).
    + eapply (hoare_pre (depth_is _)); [intros ? [_ ?]; auto |].
      apply IH. intros e He. apply Hl. set_solver.
    + apply hoare_ret_weak. intros s [Hs _]. split; [auto | discriminate].
Qed.

Lemma depth_is_ir_variable_declare node d :
  hoare (depth_is d) (ir_variable_declare node) (fun _ => depth_is d).
Proof. unfold ir_variable_declare. bal_go. Qed.

Lemma depth_is_ir_declare_statment_loop l b d :
  hoare (depth_is d) (ir_declare_statment_loop l b) (fun _ => depth_is d).
Proof.
  revert b. induction l as [| c l IH]; intros b; cbn [ir_declare_statment_loop].
  - apply hoare_ret.
  - eapply hoare_bind; [apply depth_is_ir_variable_declare | intros r; cbv beta].
    destruct (ok r); [apply IH | apply hoare_ret].
Qed.

Lemma balanced_ir_block ns node :
  (forall c, c ∈ sons node -> balanced (visit c)) ->
  balanced (ir_block visit ns node).
Proof.
  intros Hs d. unfold ir_block. destruct ns.
  - eapply hoare_bind; [apply depth_is_enterScope | intros ?; cbv beta].
    eapply hoare_bind; [apply balanced_ir_block_loop, Hs | intros r; cbv beta].
    destruct (fst r).
    + eapply (hoare_pre (depth_is _)); [intros ? [_ ?]; auto |].
      eapply hoare_bind; [apply depth_is_leaveScope | intros ?; cbv beta]. bal_done.
    + apply hoare_ret_weak. intros s [Hs' _].
      split; [by apply depth_ge_S | discriminate].
  - eapply hoare_bind; [apply hoare_ret | intros ?; cbv beta].
    eapply hoare_bind; [apply balanced_ir_block_loop, Hs | intros r; cbv beta].
    destruct (fst r).
    + eapply (hoare_pre (depth_is _)); [intros ? [_ ?]; auto |].
      eapply hoare_bind; [apply hoare_ret | intros ?; cbv beta]. bal_done.
    + apply hoare_ret_weak. intros s [Hs' _]. split; [auto | discriminate].
Qed.

Lemma balanced_dispatch node :
  ignores_failure (node_type node) = false ->
  (forall c, c ∈ sons node -> balanced (visit c)) ->
  (forall c, c ∈ sons node -> deepens (visit c)) ->
  (forall c d, c ∈ sons node -> d ∈ sons c -> balanced (visit d)) ->
  balanced (dispatch visit node).
Proof.
  intros Htag Hsons Hdeep Hgrand d. unfold dispatch.
  destruct (node_type node); try discriminate Htag;
    unfold ir_leaf_node_uint, ir_leaf_node_var_id, ir_leaf_node_type,
      ir_sub, ir_add, ir_mul, ir_div, ir_mod, ir_arith, ir_neg,
      ir_not, ir_eq, ir_ne, ir_lt, ir_le, ir_gt, ir_ge, ir_relop, ir_assign,
      ir_return, ir_break, ir_continue,
      ir_function_formal_params, ir_declare_statment, ir_compile_unit, ir_default;
    scope_unfold;
    try (apply balanced_ir_block; exact Hsons);
    try solve [repeat bal_step];
    (* the arithmetic handlers and ASSIGN *)
    try solve
      [ destruct (sons node) as [| c1 [| c2 rest]] eqn:Hs; try apply hoare_crash;
        bal_visit (Hsons c1 ltac:(set_solver));
        bal_visit (Hsons c2 ltac:(set_solver));
        repeat bal_step ];
    (* the relational handlers *)
    try solve
      [ bal_step; destruct a; [| bal_done];
        destruct (sons node) as [| c1 [| c2 rest]] eqn:Hs; try apply hoare_crash;
        eapply hoare_bind; [apply (Hsons c1 ltac:(set_solver)) | intros o1; cbv beta];
        destruct (ok o1) eqn:Hok1; cbn [negb orb];
        [ eapply (hoare_pre (depth_is _)); [intros ? [_ ?]; auto |];
          bal_visit (Hsons c2 ltac:(set_solver)); repeat bal_step
        | eapply (hoare_pre (depth_ge _)); [intros ? [? _]; eauto |];
          eapply hoare_bind;
            [apply (Hdeep c2 ltac:(set_solver)) | intros o2; cbv beta];
          apply hoare_ret_weak; intros ? ?; split; [auto | discriminate] ] ].
  - (* NEG *)
    destruct (sons node) as [| c1 rest] eqn:Hs; try apply hoare_crash.
    bal_visit (Hsons c1 ltac:(set_solver)). repeat bal_step.
  - (* NOT *)
    bal_step. destruct a; [| bal_done].
    destruct (sons node) as [| c1 rest] eqn:Hs; try apply hoare_crash.
    eapply hoare_bind; [apply (Hsons c1 ltac:(set_solver)) | intros o1; cbv beta].
    apply hoare_ret_weak. cbn [ok]. auto.
  - (* RETURN *)
    destruct (sons node) as [| c1 rest] eqn:Hs; [repeat bal_step |].
    bal_visit (Hsons c1 ltac:(set_solver)). repeat bal_step.
  - (* FUNC_CALL *)
    unfold ir_function_call. scope_unfold. bal_step.
    destruct (sons node) as [| name_node [| paramsNode rest]] eqn:Hs;
      try apply hoare_crash.
    bal_step. destruct a0; [| repeat bal_step].
    bal_step.
    eapply hoare_bind with
      (Q := fun r s => depth_ge d s /\ (fst r = true -> depth_is d s)).
    { destruct (sons paramsNode) as [| x xs] eqn:Hargs;
        [apply hoare_ret_weak; intros ? ?; split; [by apply depth_is_ge | auto] |].
      do 2 bal_step.
      apply balanced_ir_function_call_loop. intros e He.
      apply (Hgrand paramsNode e); [| by rewrite Hargs].
      apply list_elem_of_further, list_elem_of_here. }
    intros r. cbv beta. destruct (fst r); cbn [negb].
    + eapply (hoare_pre (depth_is _)); [intros ? [_ ?]; auto |]. repeat bal_step.
    + apply hoare_ret_weak. intros ? [? _]. split; [auto | discriminate].
  - (* FUNC_DEF *)
    unfold ir_function_define. scope_unfold. unfold ir_function_formal_params.
    bal_step. destruct a; [bal_done |].
    destruct (sons node) as [| t [| nm [| p [| b rest]]]] eqn:Hs;
      try apply hoare_crash.
    bal_step. destruct a; [| bal_done].
    bal_step.
    eapply hoare_bind; [apply depth_is_enterScope | intros ?; cbv beta].
    do 4 bal_step.
    change (bind (ret ?a) ?k) with (k a). cbv beta. cbn [ok negb blockInsts].
    do 2 bal_step.
    eapply hoare_bind.
    { apply balanced_ir_block. intros e He. apply (Hgrand b e); [| exact He].
      do 3 apply list_elem_of_further. apply list_elem_of_here. }
    intros br. cbv beta. destruct (ok br); cbn [negb].
    + eapply (hoare_pre (depth_is _)); [intros ? [_ ?]; auto |].
      do 5 bal_step.
      eapply hoare_bind; [apply depth_is_leaveScope | intros ?; cbv beta]. bal_done.
    + apply hoare_ret_weak. intros ? [? _].
      split; [by apply depth_ge_S | discriminate].
  - (* DECL_STMT *)
    eapply hoare_bind; [apply depth_is_ir_declare_statment_loop | intros r; cbv beta].
    bal_done.
  - (* VAR_DECL *)
    unfold ir_variable_declare. repeat bal_step.
  - (* COMPILE_UNIT *)
    bal_step.
    eapply hoare_bind; [apply balanced_ir_compile_unit_loop, Hsons | intros r; cbv beta].
    apply hoare_ret_weak. cbn [ok]. auto.
Qed.

End HandlersBalanced.

Lemma deepens_ir_visit_ast_node node : deepens (ir_visit_ast_node node).
Proof.
  intros d s out s' Hd H. unfold depth_ge in *.
  destruct (scopeStack (module s)) as [| top T] eqn:E; [simpl in Hd; lia |].
  destruct (keeps_scopes_ir_visit_ast_node top T node 0%nat s out s')
    as (pre & top' & E' & _ & _); [| exact H |].
  - exists [], top. rewrite E. repeat split; auto.
  - rewrite E'. rewrite length_app. simpl in *. lia.
Qed.

Lemma balanced_ir_visit_ast_node node :
  propagates_failure node = true -> balanced (ir_visit_ast_node node).
Proof.
  assert (forall h node, (height node <= h)%nat -> propagates_failure node = true ->
            balanced (ir_visit_ast_node node)) as H.
  { induction h as [| h IH]; intros nd Hh Hp.
    - destruct nd; simpl in Hh; lia.
    - rewrite ir_visit_ast_node_unfold. apply balanced_dispatch.
      + rewrite propagates_failure_unfold in Hp.
        apply andb_prop in Hp as [Hp _]. by apply negb_true_iff in Hp.
      + intros c Hc. apply IH; [apply height_sons in Hc; lia |].
        eapply propagates_failure_sons; eauto.
      + intros c Hc. apply deepens_ir_visit_ast_node.
      + intros c e Hc He. apply IH.
        * apply height_sons in Hc. apply height_sons in He. lia.
        * eapply propagates_failure_sons; [| exact He].
          eapply propagates_failure_sons; eauto. }
  intros Hp. exact (H (height node) node (le_n _) Hp).
Qed.

(** ** What a successful visit has logged *)

Lemma log_frame_ret {A} (a : A) : log_frame (ret a).
Proof. by intros s b s' [-> ->]%ret_Some. Qed.

Lemma log_frame_crash {A} : log_frame (@crash A).
Proof. intros s a s' H. discriminate H. Qed.

Lemma log_frame_bind {A B} (m : M A) (k : A -> M B) :
  log_frame m -> (forall a, log_frame (k a)) -> log_frame (bind m k).
Proof.
  intros Hm Hk s b s' (a & s1 & H1 & H2)%bind_Some.
  rewrite (Hk _ _ _ _ H2). eapply Hm, H1.
Qed.

Lemma log_frame_hoare {A} (m : M A) l :
  log_frame m -> hoare (log_is l) m (fun _ => log_is l).
Proof. intros Hm s a s' HP H. unfold log_is. by rewrite (Hm _ _ _ H). Qed.

Ltac log_frame_prim :=
  let s := fresh "s" in let a := fresh "a" in let s' := fresh "s'" in
  let H := fresh "H" in
  intros s a s' H; cbv beta delta
    [with_module alloc generateLabel loop_contexts_top
     loop_contexts_push loop_contexts_pop setCurrentFunction newFunction
     getCurrentFunction findFunction findVarValue getFunction
     enterScope leaveScope] in H;
  repeat case_match; simplify_eq; reflexivity.

Lemma log_frame_alloc : log_frame alloc.
Proof. log_frame_prim. Qed.
Lemma log_frame_generateLabel : log_frame generateLabel.
Proof. log_frame_prim. Qed.
Lemma log_frame_loop_contexts_top : log_frame loop_contexts_top.
Proof. log_frame_prim. Qed.
Lemma log_frame_loop_contexts_push c : log_frame (loop_contexts_push c).
Proof. log_frame_prim. Qed.
Lemma log_frame_loop_contexts_pop : log_frame loop_contexts_pop.
Proof. log_frame_prim. Qed.
Lemma log_frame_getCurrentFunction : log_frame getCurrentFunction.
Proof. log_frame_prim. Qed.
Lemma log_frame_setCurrentFunction f : log_frame (setCurrentFunction f).
Proof. log_frame_prim. Qed.
Lemma log_frame_newFunction n t : log_frame (newFunction n t).
Proof.
  intros s a s' H. unfold newFunction in H.
  destruct (functions (module s) !! n); simplify_eq; reflexivity.
Qed.
Lemma log_frame_findFunction n : log_frame (findFunction n).
Proof. log_frame_prim. Qed.
Lemma log_frame_findVarValue n : log_frame (findVarValue n).
Proof. log_frame_prim. Qed.
Lemma log_frame_getFunction f : log_frame (getFunction f).
Proof. log_frame_prim. Qed.
Lemma log_frame_enterScope : log_frame enterScope.
Proof. log_frame_prim. Qed.
Lemma log_frame_leaveScope : log_frame leaveScope.
Proof. log_frame_prim. Qed.

Lemma log_frame_update_function f g : log_frame (update_function f g).
Proof.
  unfold update_function. apply log_frame_bind; [apply log_frame_getFunction |].
  intros fn. destruct f; [| apply log_frame_crash]. log_frame_prim.
Qed.

Lemma log_frame_newVarValue t id : log_frame (newVarValue t id).
Proof.
  unfold newVarValue.
  apply log_frame_bind; [apply log_frame_alloc | intros a].
  apply log_frame_bind; [apply log_frame_getCurrentFunction | intros cur].
  apply log_frame_bind; [| intros ?; apply log_frame_ret].
  destruct (String.eqb id ""); [apply log_frame_ret | log_frame_prim].
Qed.

Create HintDb log_frame.
#[export] Hint Resolve log_frame_ret log_frame_crash log_frame_alloc
  log_frame_generateLabel log_frame_loop_contexts_top
  log_frame_loop_contexts_push log_frame_loop_contexts_pop
  log_frame_getCurrentFunction log_frame_setCurrentFunction
  log_frame_newFunction log_frame_findFunction log_frame_findVarValue
  log_frame_getFunction log_frame_update_function log_frame_enterScope
  log_frame_leaveScope log_frame_newVarValue : log_frame.

Ltac log_frame_auto :=
  first
    [ solve [auto with log_frame]
    | apply log_frame_bind; [log_frame_auto | intros ?; log_frame_auto]
    | match goal with
      | |- log_frame (if ?b then _ else _) => destruct b; log_frame_auto
      | |- log_frame (match ?x with _ => _ end) => destruct x; log_frame_auto
      end ].

Lemma hoare_any {A} (P : GenState -> Prop) (m : M A) : hoare P m (fun _ _ => True).
Proof. intros s a s' _ _. exact I. Qed.

Ltac sil_prim := apply log_frame_hoare; solve [log_frame_auto].

(** A handler that returns [false] has nothing to show. *)
Ltac sil_failed :=
  apply hoare_ret_weak; cbn [ok]; intros; discriminate.

Ltac sil_done :=
  apply hoare_ret_weak; cbn [ok]; intros ? ? ?; first [assumption | discriminate].

Ltac sil_go :=
  lazymatch goal with
  | |- hoare _ (bind _ _) _ =>
      eapply hoare_bind; [ first [sil_prim | sil_go] | intros ?; cbv beta; sil_go ]
  | |- hoare _ (ret _) _ => apply hoare_ret
  | |- hoare _ crash _ => apply hoare_crash
  | |- hoare _ (match ?x with _ => _ end) _ => destruct x eqn:?; simplify_eq; sil_go
  | |- _ => sil_prim
  end.

(** After a child visited with log [l]: on failure the handler is about to
    return [false]; on success the log is still [l]. *)
Ltac sil_visit Hc :=
  eapply hoare_bind; [apply Hc | intros ?; cbv beta];
  match goal with
  | |- hoare _ (if negb (ok ?o) then _ else _) _ =>
      destruct (ok o) eqn:?; cbn [negb];
      [ eapply (hoare_pre (log_is _)); [intros ? ?; auto |]
      | sil_failed ]
  end.

Ltac sil_step :=
  lazymatch goal with
  | |- hoare _ (bind (minic_log _ _) _) _ =>
      eapply hoare_bind; [apply hoare_any | intros ?; cbv beta; sil_failed]
  | |- hoare _ (bind _ _) _ =>
      eapply hoare_bind; [ first [sil_prim | sil_go] | intros ?; cbv beta ]
  | |- hoare _ (ret _) _ => sil_done
  | |- hoare _ crash _ => apply hoare_crash
  | |- hoare _ (match ?x with _ => _ end) _ => destruct x eqn:?; simplify_eq
  end.

Section HandlersSilent.

Variable visit : ast_node -> M NodeOut.

Lemma silent_ir_block_loop l insts lg :
  (forall c, c ∈ l -> silent_on_success (visit c)) ->
  hoare (log_is lg) (ir_block_loop visit l insts)
    (fun r s => fst r = true -> log_is lg s).
Proof.
  revert insts. induction l as [| c l IH]; intros insts Hl; cbn [ir_block_loop].
  - apply hoare_ret_weak. auto.
  - eapply hoare_bind; [apply Hl; set_solver | intros r; cbv beta].
    destruct (ok r).
    + eapply (hoare_pre (log_is _)); [intros ? ?; auto |].
      apply IH. intros e He. apply Hl. set_solver.
    + apply hoare_ret_weak. cbn [fst]. intros; discriminate.
Qed.

Lemma silent_ir_function_call_loop l ps insts lg :
  (forall c, c ∈ l -> silent_on_success (visit c)) ->
  hoare (log_is lg) (ir_function_call_loop visit l ps insts)
    (fun r s => fst r = true -> log_is lg s).
Proof.
  revert ps insts. induction l as [| c l IH]; intros ps insts Hl;
    cbn [ir_function_call_loop].
  - apply hoare_ret_weak. auto.
  - eapply hoare_bind; [apply Hl; set_solver | intros r; cbv beta].
    destruct (ok r).
    + eapply (hoare_pre (log_is _)); [intros ? ?; auto |].
      apply IH. intros e He. apply Hl. set_solver.
    + apply hoare_ret_weak. cbn [fst]. intros; discriminate.
Qed.

Lemma silent_ir_compile_unit_loop l lg :
  (forall c, c ∈ l -> silent_on_success (visit c)) ->
  hoare (log_is lg) (ir_compile_unit_loop visit l)
    (fun r s => r = true -> log_is lg s).
Proof.
  induction l as [| c l IH]; intros Hl; cbn [ir_compile_unit_loop].
  - apply hoare_ret_weak. auto.
  - eapply hoare_bind; [apply Hl; set_solver | intros r; cbv beta].
    destruct (ok r).
    + eapply (hoare_pre (log_is _)); [intros ? ?; auto |].
      apply IH. intros e He. apply Hl. set_solver.
    + apply hoare_ret_weak. intros; discriminate.
Qed.

Lemma log_frame_ir_variable_declare node : log_frame (ir_variable_declare node).
Proof. unfold ir_variable_declare. log_frame_auto. Qed.

Lemma log_frame_ir_declare_statment_loop l b :
  log_frame (ir_declare_statment_loop l b).
Proof.
  revert b. induction l as [| c l IH]; intros b; cbn [ir_declare_statment_loop].
  - apply log_frame_ret.
  - apply log_frame_bind; [apply log_frame_ir_variable_declare | intros r].
    destruct (ok r); [apply IH | apply log_frame_ret].
Qed.

Lemma silent_ir_block ns node :
  (forall c, c ∈ sons node -> silent_on_success (visit c)) ->
  silent_on_success (ir_block visit ns node).
Proof.
  intros Hs lg. unfold ir_block.
  eapply hoare_bind; [sil_prim | intros ?; cbv beta].
  eapply hoare_bind; [apply silent_ir_block_loop, Hs | intros r; cbv beta].
  destruct (fst r).
  - eapply (hoare_pre (log_is _)); [intros ? ?; auto |].
    eapply hoare_bind; [sil_prim | intros ?; cbv beta]. sil_done.
  - sil_failed.
Qed.

Lemma silent_dispatch node :
  ignores_failure (node_type node) = false ->
  (forall c, c ∈ sons node -> silent_on_success (visit c)) ->
  (forall c d, c ∈ sons node -> d ∈ sons c -> silent_on_success (visit d)) ->
  silent_on_success (dispatch visit node).
Proof.
  intros Htag Hsons Hgrand lg. unfold dispatch.
  destruct (node_type node); try discriminate Htag;
    unfold ir_leaf_node_uint, ir_leaf_node_var_id, ir_leaf_node_type,
      ir_sub, ir_add, ir_mul, ir_div, ir_mod, ir_arith, ir_neg,
      ir_not, ir_eq, ir_ne, ir_lt, ir_le, ir_gt, ir_ge, ir_relop, ir_assign,
      ir_return, ir_break, ir_continue,
      ir_function_formal_params, ir_declare_statment, ir_compile_unit, ir_default;
    scope_unfold;
    try (apply silent_ir_block; exact Hsons);
    try solve [repeat sil_step];
    (* the arithmetic handlers and ASSIGN *)
    try solve
      [ destruct (sons node) as [| c1 [| c2 rest]] eqn:Hs; try apply hoare_crash;
        sil_visit (Hsons c1 ltac:(set_solver));
        sil_visit (Hsons c2 ltac:(set_solver));
        repeat sil_step ];
    (* the relational handlers *)
    try solve
      [ sil_step; destruct a; [| sil_done];
        destruct (sons node) as [| c1 [| c2 rest]] eqn:Hs; try apply hoare_crash;
        eapply hoare_bind; [apply (Hsons c1 ltac:(set_solver)) | intros o1; cbv beta];
        destruct (ok o1) eqn:Hok1; cbn [negb orb];
        [ eapply (hoare_pre (log_is _)); [intros ? ?; auto |];
          sil_visit (Hsons c2 ltac:(set_solver)); repeat sil_step
        | eapply hoare_bind; [apply hoare_any | intros o2; cbv beta]; sil_failed ] ].
  - (* NEG *)
    destruct (sons node) as [| c1 rest] eqn:Hs; try apply hoare_crash.
    sil_visit (Hsons c1 ltac:(set_solver)). repeat sil_step.
  - (* NOT *)
    sil_step. destruct a; [| sil_done].
    destruct (sons node) as [| c1 rest] eqn:Hs; try apply hoare_crash.
    eapply hoare_bind; [apply (Hsons c1 ltac:(set_solver)) | intros o1; cbv beta].
    apply hoare_ret_weak. cbn [ok]. auto.
  - (* RETURN *)
    destruct (sons node) as [| c1 rest] eqn:Hs; [repeat sil_step |].
    sil_visit (Hsons c1 ltac:(set_solver)). repeat sil_step.
  - (* FUNC_CALL *)
    unfold ir_function_call. scope_unfold. sil_step.
    destruct (sons node) as [| name_node [| paramsNode rest]] eqn:Hs;
      try apply hoare_crash.
    sil_step. destruct a0; [| repeat sil_step].
    sil_step.
    eapply hoare_bind with (Q := fun r s => fst r = true -> log_is lg s).
    { destruct (sons paramsNode) as [| x xs] eqn:Hargs;
        [apply hoare_ret_weak; auto |].
      do 2 sil_step.
      apply silent_ir_function_call_loop. intros e He.
      apply (Hgrand paramsNode e); [| by rewrite Hargs].
      apply list_elem_of_further, list_elem_of_here. }
    intros r. cbv beta. destruct (fst r); cbn [negb].
    + eapply (hoare_pre (log_is _)); [intros ? ?; auto |]. repeat sil_step.
    + sil_failed.
  - (* FUNC_DEF *)
    unfold ir_function_define. scope_unfold. unfold ir_function_formal_params.
    sil_step. destruct a; [sil_done |].
    destruct (sons node) as [| t [| nm [| p [| b rest]]]] eqn:Hs;
      try apply hoare_crash.
    sil_step. destruct a; [| sil_done].
    do 6 sil_step.
    change (bind (ret ?a) ?k) with (k a). cbv beta. cbn [ok negb blockInsts].
    do 2 sil_step.
    eapply hoare_bind.
    { apply silent_ir_block. intros e He. apply (Hgrand b e); [| exact He].
      do 3 apply list_elem_of_further. apply list_elem_of_here. }
    intros br. cbv beta. destruct (ok br); cbn [negb].
    + eapply (hoare_pre (log_is _)); [intros ? ?; auto |]. repeat sil_step.
    + sil_failed.
  - (* DECL_STMT *)
    eapply hoare_bind;
      [apply log_frame_hoare, log_frame_ir_declare_statment_loop | intros r; cbv beta].
    sil_done.
  - (* VAR_DECL *)
    unfold ir_variable_declare. repeat sil_step.
  - (* COMPILE_UNIT *)
    sil_step.
    eapply hoare_bind; [apply silent_ir_compile_unit_loop, Hsons | intros r; cbv beta].
    apply hoare_ret_weak. cbn [ok]. auto.
Qed.

End HandlersSilent.

Lemma silent_ir_visit_ast_node node :
  propagates_failure node = true -> silent_on_success (ir_visit_ast_node node).
Proof.
  assert (forall h node, (height node <= h)%nat -> propagates_failure node = true ->
            silent_on_success (ir_visit_ast_node node)) as H.
  { induction h as [| h IH]; intros nd Hh Hp.
    - destruct nd; simpl in Hh; lia.
    - rewrite ir_visit_ast_node_unfold. apply silent_dispatch.
      + rewrite propagates_failure_unfold in Hp.
        apply andb_prop in Hp as [Hp _]. by apply negb_true_iff in Hp.
      + intros c Hc. apply IH; [apply height_sons in Hc; lia |].
        eapply propagates_failure_sons; eauto.
      + intros c e Hc He. apply IH.
        * apply height_sons in Hc. apply height_sons in He. lia.
        * eapply propagates_failure_sons; [| exact He].
          eapply propagates_failure_sons; eauto. }
  intros Hp. exact (H (height node) node (le_n _) Hp).
Qed.

(** X8. Without IF, WHILE, AND and OR nodes in the tree (the handlers
    that ignore a failed child), success means that no error was logged:
    a visit that reports success, and so a [run] that returns true, leaves
    the log as it was.  [minic_log] is only called on paths that return
    false, and every other handler hands a child's failure up. *)
Theorem success_logs_nothing node s :
  propagates_failure node = true ->
  (forall out s',
     ir_visit_ast_node node s = Some (out, s') -> ok out = true ->
     log s' = log s) /\
  (forall s', run node s = Some (true, s') -> log s' = log s).
Proof.
  intros Hp.
  assert (forall out s',
            ir_visit_ast_node node s = Some (out, s') -> ok out = true ->
            log s' = log s) as H.
  { intros out s' Hv Hok.
    exact (silent_ir_visit_ast_node node Hp (log s) s out s' eq_refl Hv Hok). }
  split; [exact H |].
  intros s' Hrun. unfold run in Hrun.
  apply bind_Some in Hrun as (out & s1 & Hv & [Hok ->]%ret_Some).
  exact (H out s1 Hv (eq_sym Hok)).
Qed.

(** ** Single handlers *)

Lemma state_eta s :
  mkGenState (module s) (labelCount s) (loop_contexts s) (next_addr s) (log s) = s.
Proof. by destruct s. Qed.

Lemma module_eta m :
  mkModule (functions m) (scopeStack m) (currentFunc m) = m.
Proof. by destruct m. Qed.

(** X12. The handlers of IF, WHILE, AND, OR, NOT and the six comparisons
    fail when there is no current function, without visiting a child,
    emitting an instruction or changing the state. *)
Theorem guarded_handlers_fail_outside_function node s :
  needs_function (node_type node) = true ->
  currentFunc (module s) = None ->
  ir_visit_ast_node node s = Some (mkOut false [] None, s).
Proof.
  intros Htag Hcur. rewrite ir_visit_ast_node_unfold. unfold dispatch.
  destruct (node_type node); try discriminate Htag;
    unfold ir_if, ir_while, ir_and, ir_or, ir_not,
      ir_eq, ir_ne, ir_lt, ir_le, ir_gt, ir_ge, ir_relop, bind, getCurrentFunction;
    rewrite Hcur; reflexivity.
Qed.

(** X13. A function definition is rejected, with nothing changed, when it is
    nested in another function, and at top level when its name is already
    registered. *)
Theorem ir_function_define_rejects node s :
  node_type node = AST_OP_FUNC_DEF ->
  (is_Some (currentFunc (module s)) ->
   ir_visit_ast_node node s = Some (mkOut false [] None, s)) /\
  (forall type_node name_node param_node block_node rest,
     currentFunc (module s) = None ->
     sons node = type_node :: name_node :: param_node :: block_node :: rest ->
     is_Some (functions (module s) !! name name_node) ->
     ir_visit_ast_node node s = Some (mkOut false [] None, s)).
Proof.
  intros Htag. rewrite ir_visit_ast_node_unfold. unfold dispatch. rewrite Htag.
  unfold ir_function_define, bind, getCurrentFunction, newFunction. split.
  - intros [f Hf]. rewrite Hf. reflexivity.
  - intros t n p b rest Hcur Hs [fn Hfn]. rewrite Hcur, Hs, Hfn. reflexivity.
Qed.

(** X19. [ir_not] inside a function visits its operand and reports the
    operand's success, but leaves the buffer and the value of the NOT node
    empty: no instruction negates anything. *)
Theorem ir_not_drops_operand node s operand rest out s' :
  node_type node = AST_OP_NOT ->
  sons node = operand :: rest ->
  is_Some (currentFunc (module s)) ->
  ir_visit_ast_node node s = Some (out, s') ->
  exists o, ir_visit_ast_node operand s = Some (o, s') /\
            out = mkOut (ok o) [] None.
Proof.
  intros Htag Hs [f Hf] H.
  rewrite ir_visit_ast_node_unfold in H. unfold dispatch in H. rewrite Htag in H.
  unfold ir_not, bind, getCurrentFunction in H. rewrite Hf, Hs in H.
  destruct (ir_visit_ast_node operand s) as [[o s1] |] eqn:E; [| discriminate].
  injection H as <- <-. eauto.
Qed.

(** X20. The handlers of +, -, *, / and % visit the left operand first and
    stop there when it fails, the right operand is then not visited; when
    both succeed the buffer is left, right, and one binary instruction of
    the matching operator, which is the value of the node. *)
Theorem ir_arith_order node s op src1_node src2_node rest out s' :
  arith_op (node_type node) = Some op ->
  sons node = src1_node :: src2_node :: rest ->
  ir_visit_ast_node node s = Some (out, s') ->
  exists left_ s1,
    ir_visit_ast_node src1_node s = Some (left_, s1) /\
    ((ok left_ = false /\ out = mkOut false [] None /\ s' = s1) \/
     (ok left_ = true /\
      exists right_ s2,
        ir_visit_ast_node src2_node s1 = Some (right_, s2) /\
        ((ok right_ = false /\ out = mkOut false [] None /\ s' = s2) \/
         (ok right_ = true /\
          out = mkOut true
                  (blockInsts left_ ++ blockInsts right_ ++
                   [BinaryInstruction (next_addr s2) (currentFunc (module s2)) op
                      (val left_) (val right_) IntegerType_Int])
                  (Some (InstValue (next_addr s2))) /\
          s' = allocated 1 s2)))).
Proof.
  intros Hop Hs H.
  rewrite ir_visit_ast_node_unfold in H. unfold dispatch in H.
  assert (ir_arith ir_visit_ast_node op node s = Some (out, s')) as H'.
  { destruct (node_type node); try discriminate Hop;
      injection Hop as <-; exact H. }
  clear H. unfold ir_arith in H'. rewrite Hs in H'.
  apply bind_Some in H' as (lo & s1 & Hl & H). exists lo, s1. split; [exact Hl |].
  destruct (ok lo) eqn:Hok; cbn [negb] in H.
  - right. split; [reflexivity |].
    apply bind_Some in H as (ro & s2 & Hr & H). exists ro, s2. split; [exact Hr |].
    destruct (ok ro) eqn:Hok2; cbn [negb] in H.
    + right. split; [reflexivity |]. exec_in H. injection H as <- <-. auto.
    + left. apply ret_Some in H as [-> ->]. auto.
  - left. apply ret_Some in H as [-> ->]. auto.
Qed.

(** X21. The handlers of the six comparisons visit both operands, the right
    one also when the left one has failed; when both succeed the buffer is
    left, right, and one Boolean binary instruction of the matching
    operator, and otherwise the node fails with an empty buffer. *)
Theorem ir_relop_visits_both node s f op src1_node src2_node rest out s' :
  rel_op (node_type node) = Some op ->
  sons node = src1_node :: src2_node :: rest ->
  currentFunc (module s) = Some f ->
  ir_visit_ast_node node s = Some (out, s') ->
  exists left_ s1 right_ s2,
    ir_visit_ast_node src1_node s = Some (left_, s1) /\
    ir_visit_ast_node src2_node s1 = Some (right_, s2) /\
    if ok left_ && ok right_ then
      out = mkOut true
              (blockInsts left_ ++ blockInsts right_ ++
               [BinaryInstruction (next_addr s2) (Some f) op
                  (val left_) (val right_) IntegerType_Bool])
              (Some (InstValue (next_addr s2))) /\
      s' = allocated 1 s2
    else out = mkOut false [] None /\ s' = s2.
Proof.
  intros Hop Hs Hf H.
  rewrite ir_visit_ast_node_unfold in H. unfold dispatch in H.
  assert (ir_relop ir_visit_ast_node op node s = Some (out, s')) as H'.
  { destruct (node_type node); try discriminate Hop;
      injection Hop as <-; exact H. }
  clear H. unfold ir_relop in H'.
  apply bind_Some in H' as (cur & s0 & Hcur & H).
  unfold getCurrentFunction in Hcur. simplify_eq. rewrite Hf, Hs in H.
  apply bind_Some in H as (lo & s1 & Hl & H).
  apply bind_Some in H as (ro & s2 & Hr & H).
  exists lo, s1, ro, s2. split; [exact Hl |]. split; [exact Hr |].
  destruct (ok lo), (ok ro); cbn [negb orb andb] in *.
  1: { exec_in H. injection H as <- <-. auto. }
  all: apply ret_Some in H as [-> ->]; auto.
Qed.

(** X15. [ir_return].  Without an expression it emits one goto to the exit
    label of the current function.  With an expression it fails when the
    expression fails, and otherwise emits the instructions of the
    expression, a move into the return-value slot and the goto, and the
    value of the node is the value of the expression.  Where it emits the
    goto it needs the current function: without one it dereferences a null
    pointer. *)
Theorem ir_return_cases node s :
  node_type node = AST_OP_RETURN ->
  (sons node = [] ->
   (forall f fn,
      currentFunc (module s) = Some f -> functions (module s) !! f = Some fn ->
      ir_visit_ast_node node s =
        Some (mkOut true [GotoInstruction (next_addr s) (Some f) (exitLabel fn)] None,
              allocated 1 s)) /\
   (currentFunc (module s) = None -> ir_visit_ast_node node s = None)) /\
  (forall son_node rest right_ s1,
     sons node = son_node :: rest ->
     ir_visit_ast_node son_node s = Some (right_, s1) ->
     (ok right_ = false ->
      ir_visit_ast_node node s = Some (mkOut false [] None, s1)) /\
     (ok right_ = true ->
      (forall f fn,
         currentFunc (module s1) = Some f -> functions (module s1) !! f = Some fn ->
         ir_visit_ast_node node s =
           Some (mkOut true
                   (blockInsts right_ ++
                    [MoveInstruction (next_addr s1) (Some f) (returnValue fn) (val right_);
                     GotoInstruction (S (next_addr s1)) (Some f) (exitLabel fn)])
                   (val right_),
                 allocated 2 s1)) /\
      (currentFunc (module s1) = None -> ir_visit_ast_node node s = None))).
Proof.
  intros Htag. rewrite ir_visit_ast_node_unfold. unfold dispatch. rewrite Htag.
  unfold ir_return. split.
  - intros Hs. rewrite Hs. split.
    + intros f fn Hf Hfn.
      unfold bind, getCurrentFunction, getExitLabel, getFunction, bind.
      rewrite Hf, Hfn. reflexivity.
    + intros Hf. unfold bind, getCurrentFunction, getExitLabel, getFunction, bind.
      rewrite Hf. reflexivity.
  - intros e rest ro s1 Hs Hr. rewrite Hs. unfold bind. rewrite Hr. cbv beta iota.
    split; [intros Hok; rewrite Hok; reflexivity |].
    intros Hok. rewrite Hok. cbn [negb]. split.
    + intros f fn Hf Hfn.
      unfold getCurrentFunction, getReturnValue, getExitLabel, getFunction, bind.
      rewrite Hf, Hfn. cbn. rewrite Hfn. cbn. rewrite <- app_assoc. reflexivity.
    + intros Hf.
      unfold getCurrentFunction, getReturnValue, getFunction, bind.
      rewrite Hf. reflexivity.
Qed.

(** X14. A call of a registered function while there is no current function
    (a call at top level) has no defined result: the handler marks the
    current function through a null pointer. *)
Theorem ir_function_call_outside_function node s name_node paramsNode rest :
  node_type node = AST_OP_FUNC_CALL ->
  sons node = name_node :: paramsNode :: rest ->
  currentFunc (module s) = None ->
  is_Some (functions (module s) !! name name_node) ->
  ir_visit_ast_node node s = None.
Proof.
  intros Htag Hs Hcur [fn Hfn].
  rewrite ir_visit_ast_node_unfold. unfold dispatch. rewrite Htag.
  unfold ir_function_call. rewrite Hs.
  unfold bind, getCurrentFunction, findFunction, setExistFuncCall, update_function,
    bind, getFunction.
  rewrite Hcur, Hfn. reflexivity.
Qed.

(** X17. Assigning to a variable that no scope declares is not an error:
    the handler succeeds and emits a move whose destination is null. *)
Theorem ir_assign_to_undeclared node s son1_node son2_node rest right_ s1 :
  node_type node = AST_OP_ASSIGN ->
  sons node = son1_node :: son2_node :: rest ->
  node_type son1_node = AST_OP_LEAF_VAR_ID ->
  lookup_scopes (name son1_node) (scopeStack (module s)) = None ->
  ir_visit_ast_node son2_node s = Some (right_, s1) ->
  ok right_ = true ->
  ir_visit_ast_node node s =
    Some (mkOut true
            (blockInsts right_ ++
             [MoveInstruction (next_addr s1) (currentFunc (module s1)) None (val right_)])
            (Some (InstValue (next_addr s1))),
          allocated 1 s1).
Proof.
  intros Htag Hs Hleaf Hx Hr Hok.
  rewrite ir_visit_ast_node_unfold. unfold dispatch. rewrite Htag.
  unfold ir_assign. rewrite Hs. unfold bind at 1.
  rewrite (ir_visit_ast_node_unfold son1_node). unfold dispatch. rewrite Hleaf.
  unfold ir_leaf_node_var_id, bind at 1, findVarValue. rewrite Hx.
  cbn [ret ok negb]. unfold bind at 1. rewrite Hr. cbv beta iota.
  rewrite Hok. cbn [negb]. reflexivity.
Qed.

(** X18. An integer literal never fails and emits nothing; its value is the
    32-bit two's complement reading of the literal: congruent to it modulo
    2^32, within the range of [int32_t], and the literal itself when it is
    in that range. *)
Theorem ir_leaf_node_uint_wraps node s :
  node_type node = AST_OP_LEAF_LITERAL_UINT ->
  exists v,
    ir_visit_ast_node node s = Some (mkOut true [] (Some (ConstInt v)), s) /\
    -2147483648 <= v <= 2147483647 /\
    (v - integer_val node) mod 4294967296 = 0 /\
    (-2147483648 <= integer_val node <= 2147483647 -> v = integer_val node).
Proof.
  intros Htag. exists (to_int32 (integer_val node)). split.
  { rewrite ir_visit_ast_node_unfold. unfold dispatch. rewrite Htag. reflexivity. }
  unfold to_int32.
  pose proof (Z.div_mod (integer_val node + 2147483648) 4294967296 ltac:(lia)) as Hdm.
  pose proof (Z.mod_pos_bound (integer_val node + 2147483648) 4294967296 ltac:(lia)) as Hb.
  set (q := (integer_val node + 2147483648) / 4294967296) in *.
  set (r := (integer_val node + 2147483648) mod 4294967296) in *.
  split; [lia |]. split.
  - replace (r - 2147483648 - integer_val node) with ((- q) * 4294967296) by lia.
    apply Z_mod_mult.
  - intros Hrange. assert (q = 0) by lia. lia.
Qed.

(** X16. [ir_break] and [ir_continue].  Outside a function or outside a
    loop they fail and log an error; inside a loop they emit a single goto
    to a fresh label instruction, itself not put in the buffer, that carries
    the name of the exit label, for break, or of the entry label, for
    continue, of the innermost loop. *)
Theorem ir_break_continue_cases node s target msg :
  loop_jump (node_type node) = Some (target, msg) ->
  (currentFunc (module s) = None \/ loop_contexts s = [] ->
   ir_visit_ast_node node s =
     Some (mkOut false [] None, logged (LOG_ERROR msg []) s)) /\
  (forall f context L,
     currentFunc (module s) = Some f -> loop_contexts s = context :: L ->
     ir_visit_ast_node node s =
       Some (mkOut true
               [GotoInstruction (S (next_addr s)) (Some f)
                  (Some (mkLabel (next_addr s) (Some f) (Some (target context))))]
               None,
             allocated 2 s)).
Proof.
  intros Hj. rewrite ir_visit_ast_node_unfold. unfold dispatch.
  destruct (node_type node); try discriminate Hj; injection Hj as <- <-;
    unfold ir_break, ir_continue, bind, getCurrentFunction, loop_contexts_top;
    (split;
     [ intros [Hc | Hl]; [rewrite Hc | rewrite Hl; destruct (currentFunc (module s))];
       reflexivity
     | intros f ctx L Hc Hl; rewrite Hc, Hl; reflexivity ]).
Qed.

(** X22. [ir_if] inside a function reports success whenever it returns,
    whatever its children reported, and its buffer is: the condition, bf to the false label, the true label, the then
    branch, a goto to the end label, the false label, the else branch (if
    there is one), a goto to the end label, the end label; the three labels
    carry the next three names of the counter. *)
Theorem ir_if_sequence node s out s' :
  node_type node = AST_OP_IF ->
  is_Some (currentFunc (module s)) ->
  ir_visit_ast_node node s = Some (out, s') ->
  exists condNode thenNode rest c t else_insts s1 s2 s3 s4
         Ltrue Lfalse Lend a_bf a_goto1 a_goto2,
    sons node = condNode :: thenNode :: rest /\
    label_name Ltrue = Some ("L" +:+ pretty (labelCount s)) /\
    label_name Lfalse = Some ("L" +:+ pretty (labelCount s + 1)) /\
    label_name Lend = Some ("L" +:+ pretty (labelCount s + 2)) /\
    ir_visit_ast_node condNode s1 = Some (c, s2) /\
    ir_visit_ast_node thenNode s3 = Some (t, s4) /\
    match rest with
    | [] => else_insts = []
    | elseNode :: _ =>
        exists e s5 s6,
          ir_visit_ast_node elseNode s5 = Some (e, s6) /\ else_insts = blockInsts e
    end /\
    out = mkOut true
            (blockInsts c ++
             [BranchInstruction a_bf (currentFunc (module s)) IRINST_OP_BF (val c)
                None None (Some Lfalse);
              LabelInstruction Ltrue] ++
             blockInsts t ++
             [GotoInstruction a_goto1 (currentFunc (module s)) (Some Lend);
              LabelInstruction Lfalse] ++
             else_insts ++
             [GotoInstruction a_goto2 (currentFunc (module s)) (Some Lend);
              LabelInstruction Lend])
            None.
Proof.
  intros Htag [cur Hcur] H.
  rewrite ir_visit_ast_node_unfold in H. unfold dispatch in H. rewrite Htag in H.
  unfold ir_if in H.
  apply bind_Some in H as (cf & s0 & Hcf & H).
  unfold getCurrentFunction in Hcf. simplify_eq. rewrite Hcur in H.
  apply bind_Some in H as (lt & sa & Hlt & H).
  apply bind_Some in H as (lf & sb & Hlf & H).
  apply bind_Some in H as (le & sc & Hle & H).
  apply generateLabel_Some in Hlt as (-> & _ & ->).
  apply generateLabel_Some in Hlf as (-> & _ & ->).
  apply generateLabel_Some in Hle as (-> & _ & ->).
  cbn [labelCount] in H.
  replace (labelCount s0 + 1 + 1) with (labelCount s0 + 2) in * by lia.
  exec_in H; simplify_eq.
  - eexists _, _, [], _, _, [], _, _, _, _,
      (mkLabel _ _ _), (mkLabel _ _ _), (mkLabel _ _ _), _, _, _.
    split; [reflexivity |]. do 3 (split; [reflexivity |]).
    split; [eassumption |]. split; [eassumption |]. split; [reflexivity |].
    rewrite Hcur. f_equal. rewrite <- !app_assoc. reflexivity.
  - eexists _, _, (_ :: _), _, _, _, _, _, _, _,
      (mkLabel _ _ _), (mkLabel _ _ _), (mkLabel _ _ _), _, _, _.
    split; [reflexivity |]. do 3 (split; [reflexivity |]).
    split; [eassumption |]. split; [eassumption |].
    split; [eexists _, _, _; split; [eassumption | reflexivity] |].
    rewrite Hcur. f_equal. rewrite <- !app_assoc. reflexivity.
Qed.

(** X23. [ir_or] inside a function reports success whenever it returns,
    and its buffer is: the left operand, bt to the true label, the false label, the right
    operand, bt to the true label, the true label, result = 1, a goto to the
    end label, a second label instruction with the name of the end label,
    result = 0.  The move of 0 comes after the end label, and the end label
    the goto aims at is not the label instruction in the buffer. *)
Theorem ir_or_sequence node s out s' :
  node_type node = AST_OP_OR ->
  is_Some (currentFunc (module s)) ->
  ir_visit_ast_node node s = Some (out, s') ->
  exists left_node right_node rest l r s1 s2 s3 s4
         Ltrue Lfalse Lend Lend2 result a_bt1 a_bt2 a_move1 a_goto a_move0,
    sons node = left_node :: right_node :: rest /\
    label_name Ltrue = Some ("L" +:+ pretty (labelCount s)) /\
    label_name Lfalse = Some ("L" +:+ pretty (labelCount s + 1)) /\
    label_name Lend = Some ("L" +:+ pretty (labelCount s + 2)) /\
    label_name Lend2 = label_name Lend /\
    (label_addr Lend < label_addr Lend2)%nat /\
    ir_visit_ast_node left_node s1 = Some (l, s2) /\
    ir_visit_ast_node right_node s3 = Some (r, s4) /\
    out = mkOut true
            (blockInsts l ++
             [BranchInstruction a_bt1 (currentFunc (module s)) IRINST_OP_BT (val l)
                None None (Some Ltrue);
              LabelInstruction Lfalse] ++
             blockInsts r ++
             [BranchInstruction a_bt2 (currentFunc (module s)) IRINST_OP_BT (val r)
                None None (Some Ltrue);
              LabelInstruction Ltrue;
              MoveInstruction a_move1 (currentFunc (module s)) (Some result)
                (Some (ConstInt 1));
              GotoInstruction a_goto (currentFunc (module s)) (Some Lend);
              LabelInstruction Lend2;
              MoveInstruction a_move0 (currentFunc (module s)) (Some result)
                (Some (ConstInt 0))])
            (Some result).
Proof.
  intros Htag [cur Hcur] H.
  rewrite ir_visit_ast_node_unfold in H. unfold dispatch in H. rewrite Htag in H.
  unfold ir_or in H.
  apply bind_Some in H as (cf & s0 & Hcf & H).
  unfold getCurrentFunction in Hcf. simplify_eq. rewrite Hcur in H.
  apply bind_Some in H as (lt & sa & Hlt & H).
  apply bind_Some in H as (lf & sb & Hlf & H).
  apply bind_Some in H as (le & sc & Hle & H).
  apply generateLabel_Some in Hlt as (-> & _ & ->).
  apply generateLabel_Some in Hlf as (-> & _ & ->).
  apply generateLabel_Some in Hle as (-> & _ & ->).
  cbn [labelCount] in H.
  replace (labelCount s0 + 1 + 1) with (labelCount s0 + 2) in * by lia.
  exec_with ltac:(fun E => try (apply newVarValue_temp in E as [-> ->])) H.
  injection H as <- <-.
  lazymatch goal with
  | E2 : ir_visit_ast_node _ ?sr = Some (_, ?g0) |- _ =>
      lazymatch sr with
      | mkGenState _ _ _ _ _ =>
          pose proof (growing_ir_visit_ast_node _ _ _ _ E2) as (_ & Hmono & _);
          cbn [next_addr] in Hmono
      end
  end.
  eexists _, _, _, _, _, _, _, _, _,
    (mkLabel _ _ _), (mkLabel _ _ _), (mkLabel _ _ _), (mkLabel _ _ _),
    _, _, _, _, _, _.
  split; [reflexivity |]. do 3 (split; [cbn [label_name]; reflexivity |]).
  split; [cbn [label_name]; reflexivity |].
  split; [| split; [eassumption |]; split; [eassumption |];
            rewrite Hcur; f_equal; rewrite <- !app_assoc; reflexivity].
  cbn [label_addr]. lia.
Qed.

(** X24. [ir_and] inside a function reports success whenever it returns,
    and its buffer is: the left operand, bf to the false label, the true label, the right
    operand, bf to the false label, the true label again, result = 1, a goto
    to the end label, the false label, result = 0, a goto to the end label,
    and a second label instruction with the name of the end label. *)
Theorem ir_and_sequence node s out s' :
  node_type node = AST_OP_AND ->
  is_Some (currentFunc (module s)) ->
  ir_visit_ast_node node s = Some (out, s') ->
  exists left_node right_node rest l r s1 s2 s3 s4
         Ltrue Lfalse Lend Lend2 result a_bf1 a_bf2 a_move1 a_goto1 a_move0 a_goto0,
    sons node = left_node :: right_node :: rest /\
    label_name Ltrue = Some ("L" +:+ pretty (labelCount s)) /\
    label_name Lfalse = Some ("L" +:+ pretty (labelCount s + 1)) /\
    label_name Lend = Some ("L" +:+ pretty (labelCount s + 2)) /\
    label_name Lend2 = label_name Lend /\
    (label_addr Lend < label_addr Lend2)%nat /\
    ir_visit_ast_node left_node s1 = Some (l, s2) /\
    ir_visit_ast_node right_node s3 = Some (r, s4) /\
    out = mkOut true
            (blockInsts l ++
             [BranchInstruction a_bf1 (currentFunc (module s)) IRINST_OP_BF (val l)
                None None (Some Lfalse);
              LabelInstruction Ltrue] ++
             blockInsts r ++
             [BranchInstruction a_bf2 (currentFunc (module s)) IRINST_OP_BF (val r)
                None None (Some Lfalse);
              LabelInstruction Ltrue;
              MoveInstruction a_move1 (currentFunc (module s)) (Some result)
                (Some (ConstInt 1));
              GotoInstruction a_goto1 (currentFunc (module s)) (Some Lend);
              LabelInstruction Lfalse;
              MoveInstruction a_move0 (currentFunc (module s)) (Some result)
                (Some (ConstInt 0));
              GotoInstruction a_goto0 (currentFunc (module s)) (Some Lend);
              LabelInstruction Lend2])
            (Some result).
Proof.
  intros Htag [cur Hcur] H.
  rewrite ir_visit_ast_node_unfold in H. unfold dispatch in H. rewrite Htag in H.
  unfold ir_and in H.
  apply bind_Some in H as (cf & s0 & Hcf & H).
  unfold getCurrentFunction in Hcf. simplify_eq. rewrite Hcur in H.
  apply bind_Some in H as (lt & sa & Hlt & H).
  apply bind_Some in H as (lf & sb & Hlf & H).
  apply bind_Some in H as (le & sc & Hle & H).
  apply generateLabel_Some in Hlt as (-> & _ & ->).
  apply generateLabel_Some in Hlf as (-> & _ & ->).
  apply generateLabel_Some in Hle as (-> & _ & ->).
  cbn [labelCount] in H.
  replace (labelCount s0 + 1 + 1) with (labelCount s0 + 2) in * by lia.
  exec_with ltac:(fun E => try (apply newVarValue_temp in E as [-> ->])) H.
  injection H as <- <-.
  lazymatch goal with
  | E2 : ir_visit_ast_node _ ?sr = Some (_, ?g0) |- _ =>
      lazymatch sr with
      | mkGenState _ _ _ _ _ =>
          pose proof (growing_ir_visit_ast_node _ _ _ _ E2) as (_ & Hmono & _);
          cbn [next_addr] in Hmono
      end
  end.
  eexists _, _, _, _, _, _, _, _, _,
    (mkLabel _ _ _), (mkLabel _ _ _), (mkLabel _ _ _), (mkLabel _ _ _),
    _, _, _, _, _, _, _.
  split; [reflexivity |]. do 3 (split; [cbn [label_name]; reflexivity |]).
  split; [cbn [label_name]; reflexivity |].
  split; [| split; [eassumption |]; split; [eassumption |];
            rewrite Hcur; f_equal; rewrite <- !app_assoc; reflexivity].
  cbn [label_addr]. lia.
Qed.

Lemma ir_block_loop_inv l : forall insts s b is' s2,
  ir_block_loop ir_visit_ast_node l insts s = Some ((b, is'), s2) ->
  exists outs sm,
    visit_seq (take (length outs) l) s outs sm /\
    is' = insts ++ concat (blockInsts <$> outs) /\
    ((b = true /\ length outs = length l /\ sm = s2) \/
     (b = false /\
      exists c o, l !! length outs = Some c /\
        ir_visit_ast_node c sm = Some (o, s2) /\ ok o = false)).
Proof.
  induction l as [| c l IH]; intros insts s b is' s2 H; cbn [ir_block_loop] in H.
  - apply ret_Some in H as [[= -> ->] ->].
    exists [], s. simpl. rewrite app_nil_r. repeat split; [constructor | auto].
  - apply bind_Some in H as (o & s1 & Ho & H).
    destruct (ok o) eqn:Hok.
    + apply IH in H as (outs & sm & Hseq & -> & Hend).
      exists (o :: outs), sm. simpl. rewrite <- app_assoc.
      split; [econstructor; eauto |]. split; [reflexivity |].
      destruct Hend as [(-> & Hlen & ->) | (-> & d & od & Hd & Hv & Hf)].
      * left. auto.
      * right. split; [reflexivity |]. exists d, od. auto.
    + apply ret_Some in H as [[= -> ->] ->].
      exists [], s. simpl. rewrite app_nil_r. split; [constructor |].
      split; [reflexivity |]. right. split; [reflexivity |]. exists c, o. auto.
Qed.

Lemma ir_compile_unit_loop_inv l : forall s b s2,
  ir_compile_unit_loop ir_visit_ast_node l s = Some (b, s2) ->
  exists outs sm,
    visit_seq (take (length outs) l) s outs sm /\
    ((b = true /\ length outs = length l /\ sm = s2) \/
     (b = false /\
      exists c o, l !! length outs = Some c /\
        ir_visit_ast_node c sm = Some (o, s2) /\ ok o = false)).
Proof.
  induction l as [| c l IH]; intros s b s2 H; cbn [ir_compile_unit_loop] in H.
  - apply ret_Some in H as [-> ->].
    exists [], s. simpl. split; [constructor | auto].
  - apply bind_Some in H as (o & s1 & Ho & H).
    destruct (ok o) eqn:Hok.
    + apply IH in H as (outs & sm & Hseq & Hend).
      exists (o :: outs), sm. simpl.
      split; [econstructor; eauto |].
      destruct Hend as [(-> & Hlen & ->) | (-> & d & od & Hd & Hv & Hf)].
      * left. auto.
      * right. split; [reflexivity |]. exists d, od. auto.
    + apply ret_Some in H as [-> ->].
      exists [], s. simpl. split; [constructor |].
      right. split; [reflexivity |]. exists c, o. auto.
Qed.

(** X25. [ir_block] visits its children in order, inside a new scope when
    the block needs one, and collects their instructions.  It stops at the
    first child that fails: it then fails itself, keeps the instructions of
    the children before, and does not leave the scope it entered.  When all
    children succeed it leaves the scope. *)
Theorem ir_block_cases node s out s' :
  node_type node = AST_OP_BLOCK ->
  ir_visit_ast_node node s = Some (out, s') ->
  exists outs s2,
    visit_seq (take (length outs) (sons node))
      (if needScope node then scope_entered s else s) outs s2 /\
    blockInsts out = concat (blockInsts <$> outs) /\
    val out = None /\
    ((ok out = true /\ length outs = length (sons node) /\
      s' = if needScope node then scope_left s2 else s2) \/
     (ok out = false /\
      exists c o, sons node !! length outs = Some c /\
        ir_visit_ast_node c s2 = Some (o, s') /\ ok o = false)).
Proof.
  intros Htag H.
  rewrite ir_visit_ast_node_unfold in H. unfold dispatch in H. rewrite Htag in H.
  unfold ir_block in H.
  apply bind_Some in H as (u & s1 & Henter & H).
  apply bind_Some in H as ([b insts] & s2 & Hloop & H).
  apply ir_block_loop_inv in Hloop as (outs & sm & Hseq & -> & Hend).
  assert (s1 = if needScope node then scope_entered s else s) as ->.
  { destruct (needScope node); [by injection Henter as _ <- | by apply ret_Some in Henter as [_ ->]]. }
  exists outs, sm. split; [exact Hseq |]. cbn [fst snd app] in H.
  destruct Hend as [(-> & Hlen & ->) | (-> & c & o & Hc & Hv & Hf)].
  - apply bind_Some in H as (u' & s3 & Hleave & [-> ->]%ret_Some).
    cbn [blockInsts val ok]. repeat split. left. repeat split; [exact Hlen |].
    destruct (needScope node); [by injection Hleave as _ <- | by apply ret_Some in Hleave as [_ ->]].
  - apply ret_Some in H as [-> ->]. cbn [blockInsts val ok]. repeat split.
    right. split; [reflexivity |]. exists c, o. auto.
Qed.

(** X26. [run] on a compile unit clears the current function and visits the
    children in order; it returns true when all of them succeed, and
    returns false at the first one that fails, without visiting the
    rest. *)
Theorem run_compile_unit_cases root s b s' :
  node_type root = AST_OP_COMPILE_UNIT ->
  run root s = Some (b, s') ->
  exists outs s2,
    visit_seq (take (length outs) (sons root)) (with_current_function None s) outs s2 /\
    ((b = true /\ length outs = length (sons root) /\ s' = s2) \/
     (b = false /\
      exists c o, sons root !! length outs = Some c /\
        ir_visit_ast_node c s2 = Some (o, s') /\ ok o = false)).
Proof.
  intros Htag H. unfold run in H.
  apply bind_Some in H as (out & s1 & H & [-> ->]%ret_Some).
  rewrite ir_visit_ast_node_unfold in H. unfold dispatch in H. rewrite Htag in H.
  unfold ir_compile_unit in H.
  apply bind_Some in H as (u & s0 & Hset & H).
  injection Hset as _ <-.
  apply bind_Some in H as (r & s2 & Hloop & [-> ->]%ret_Some).
  apply ir_compile_unit_loop_inv in Hloop as (outs & sm & Hseq & Hend).
  exists outs, sm. split; [exact Hseq |]. cbn [ok].
  destruct Hend as [(-> & Hlen & ->) | Hend]; [left | right]; auto.
Qed.

(** ** Declaration statements *)










(** ** The whole visit *)

(** X3. A visit never unregisters or redefines a function: every function
    registered before is registered after, with the same name, return type
    and parameters; only its body, its bookkeeping for calls and its locals
    may have grown. *)
Theorem registered_functions_sealed node s out s' n fn :
  ir_visit_ast_node node s = Some (out, s') ->
  functions (module s) !! n = Some fn ->
  exists fn', functions (module s') !! n = Some fn' /\ Function_le fn fn'.
Proof.
  intros H Hfn.
  destruct (keeps_funcs_le _ _ _ _ (keeps_ir_visit_ast_node node) H) as [Hle _].
  exact (Hle n fn Hfn).
Qed.

(** X4. Every visit that returns, failed or not, leaves the stack of loop
    contexts as it found it: what [ir_while] pushes it pops. *)
Theorem visit_restores_loop_contexts node s out s' :
  ir_visit_ast_node node s = Some (out, s') ->
  loop_contexts s' = loop_contexts s.
Proof.
  intros H.
  destruct (keeps_funcs_le _ _ _ _ (keeps_ir_visit_ast_node node) H) as [_ HL].
  exact HL.
Qed.

(** X5. A visit never pops a scope it did not push and never unbinds a name:
    the scopes below the top one are still at the bottom of the stack
    afterwards, and the scope above them binds every name the top scope
    bound. *)
Theorem visit_keeps_enclosing_scopes node s out s' top T :
  scopeStack (module s) = top :: T ->
  ir_visit_ast_node node s = Some (out, s') ->
  exists pre top',
    scopeStack (module s') = pre ++ top' :: T /\
    (forall id, is_Some (top !! id) -> is_Some (top' !! id)).
Proof.
  intros E H.
  destruct (keeps_scopes_ir_visit_ast_node top T node 0%nat s out s')
    as (pre & top' & E' & _ & Hd); [| exact H | eauto].
  exists [], top. rewrite E. repeat split; auto.
Qed.

(** X6. On a tree without IF, WHILE, AND and OR nodes (the handlers that
    ignore a failed child), a visit that reports success leaves the scope
    stack at the depth it had: the same scopes below, and a top scope that
    binds at least the names it bound. *)
Theorem successful_visit_restores_scopes node s out s' top T :
  propagates_failure node = true ->
  scopeStack (module s) = top :: T ->
  ir_visit_ast_node node s = Some (out, s') ->
  ok out = true ->
  exists top',
    scopeStack (module s') = top' :: T /\
    (forall id, is_Some (top !! id) -> is_Some (top' !! id)).
Proof.
  intros Hp E H Hok.
  destruct (keeps_scopes_ir_visit_ast_node top T node 0%nat s out s')
    as (pre & top' & E' & _ & Hd); [| exact H |].
  { exists [], top. rewrite E. repeat split; auto. }
  destruct (balanced_ir_visit_ast_node node Hp _ s out s' eq_refl H) as [_ Hdepth].
  specialize (Hdepth Hok). unfold depth_is in Hdepth.
  rewrite E, E', length_app in Hdepth. simpl in Hdepth.
  destruct pre; [| simpl in Hdepth; lia]. eauto.
Qed.

(** X7. [generateLabel] does not hand out a name twice: a name generated
    before a visit differs from a name generated after it, and the counter
    has strictly advanced in between. *)
Theorem label_names_never_repeat node s0 l1 s1 out s2 l2 s3 :
  generateLabel s0 = Some (l1, s1) ->
  ir_visit_ast_node node s1 = Some (out, s2) ->
  generateLabel s2 = Some (l2, s3) ->
  labelCount s0 < labelCount s2 /\ l1 <> l2.
Proof.
  intros (-> & _ & ->)%generateLabel_Some H (-> & _ & ->)%generateLabel_Some.
  destruct (growing_ir_visit_ast_node _ _ _ _ H) as (Hc & _ & _).
  cbn [labelCount] in Hc. split; [lia |].
  intros Heq. injection Heq as Heq.
  change (pretty (labelCount s0) = pretty (labelCount s2)) in Heq.
  apply (inj pretty) in Heq. lia.
Qed.

Section Printable.

Variable Value_getIRName : Value -> string.
Variable Instruction_getIRName : Label -> string.
Variable Instruction_toString : Branch -> string.

(** X10. Every branch in the buffer of a visited node is a bt or a bf built
    by the one-target constructor: [getTrueTarget] and [getFalseTarget] are
    null, [getTarget] is not, and [toString] is defined on it exactly when
    its condition is not null. *)
Theorem emitted_branches_printable node s out s' i b :
  ir_visit_ast_node node s = Some (out, s') ->
  i ∈ blockInsts out ->
  as_branch i = Some b ->
  (br_op b = IRINST_OP_BT \/ br_op b = IRINST_OP_BF) /\
  getTrueTarget b = None /\ getFalseTarget b = None /\ is_Some (getTarget b) /\
  (is_Some (toString Value_getIRName Instruction_getIRName Instruction_toString b) <->
   is_Some (getCondVar b)).
Proof.
  intros H Hi Hb.
  pose proof (emits_ir_visit_ast_node node s out s' H) as Hall.
  rewrite Forall_forall in Hall. specialize (Hall i Hi).
  destruct i as [| | | | | | a0 fu op c t fl tg | |]; try discriminate Hb.
  injection Hb as <-.
  destruct Hall as [Hop (l & Hl)]. injection Hl as -> -> ->.
  unfold getTrueTarget, getFalseTarget, getTarget, getCondVar, toString.
  cbn [br_op trueTarget falseTarget Target condVar].
  repeat split; eauto;
    destruct Hop as [-> | ->]; destruct c; cbn; intros [x Hx];
      try discriminate; eauto.
Qed.

End Printable.

(** X2. Inside a registered function, visiting a well-formed node returns:
    it has a result, the current function is the same afterwards, and the
    label counter has advanced by at most three per label-making node. *)
Theorem visit_defined_inside_function node s f :
  well_formed node = true ->
  currentFunc (module s) = Some f ->
  is_Some (functions (module s) !! f) ->
  labelCount s + 3 * Z.of_nat (label_nodes node) <= INT_MAX ->
  exists out s',
    ir_visit_ast_node node s = Some (out, s') /\
    currentFunc (module s') = Some f /\
    labelCount s' <= labelCount s + 3 * Z.of_nat (label_nodes node).
Proof.
  intros Hwf Hcur Hf Hk.
  destruct (ir_visit_ast_node_defined node Hwf f
              (fun n => is_Some (functions (module s) !! n)) (labelCount s) Hf Hk s)
    as (out & s' & H & Hc & _ & Hl).
  { repeat split; auto. lia. }
  eauto.
Qed.

(** ** The properties at concrete nodes *)

Lemma guarded_handlers_fail_outside_function_witness :
  let node := while_i_lt_10 in
  let s := init_state ∅ in
  needs_function (node_type node) = true /\
  currentFunc (module s) = None /\
  ir_visit_ast_node node s = Some (mkOut false [] None, s).
Proof.
  intros node s. split; [reflexivity |]. split; [reflexivity |].
  exact (guarded_handlers_fail_outside_function node s eq_refl eq_refl).
Defined.

Lemma ir_function_define_rejects_witness :
  let node := func_with_formal in
  node_type node = AST_OP_FUNC_DEF /\
  is_Some (currentFunc (module state_in_main)) /\
  ir_visit_ast_node node state_in_main = Some (mkOut false [] None, state_in_main) /\
  currentFunc (module state_top_with_f) = None /\
  is_Some (functions (module state_top_with_f) !! "f") /\
  ir_visit_ast_node node state_top_with_f =
    Some (mkOut false [] None, state_top_with_f).
Proof.
  intros node.
  assert (is_Some (currentFunc (module state_in_main))) as H1 by (eexists; reflexivity).
  assert (is_Some (functions (module state_top_with_f) !! "f")) as H2
    by (eexists; vm_compute; reflexivity).
  split; [reflexivity |]. split; [exact H1 |].
  split; [exact (proj1 (ir_function_define_rejects node state_in_main eq_refl) H1) |].
  split; [reflexivity |]. split; [exact H2 |].
  exact (proj2 (ir_function_define_rejects node state_top_with_f eq_refl)
           _ _ _ _ _ eq_refl eq_refl H2).
Defined.

Lemma ir_not_drops_operand_witness :
  let node := not_a in
  let s := state_in_main in
  let out := out_of (ir_visit_ast_node node s) in
  let s' := state_of (ir_visit_ast_node node s) in
  node_type node = AST_OP_NOT /\
  sons node = [new_ast_leaf_var_id "a" 1] /\
  is_Some (currentFunc (module s)) /\
  ir_visit_ast_node node s = Some (out, s') /\
  exists o, ir_visit_ast_node (new_ast_leaf_var_id "a" 1) s = Some (o, s') /\
            out = mkOut (ok o) [] None.
Proof.
  intros node s out s'.
  assert (is_Some (currentFunc (module s))) as H1 by (eexists; reflexivity).
  assert (ir_visit_ast_node node s = Some (out, s')) as H2 by (vm_compute; reflexivity).
  split; [reflexivity |]. split; [reflexivity |]. split; [exact H1 |].
  split; [exact H2 |].
  exact (ir_not_drops_operand node s _ _ out s' eq_refl eq_refl H1 H2).
Defined.

Lemma ir_arith_order_witness :
  let node := add_a_1 in
  let s := state_in_main in
  let out := out_of (ir_visit_ast_node node s) in
  let s' := state_of (ir_visit_ast_node node s) in
  let src1_node := new_ast_leaf_var_id "a" 1 in
  let src2_node := new_ast_leaf_uint 1 1 in
  arith_op (node_type node) = Some IRINST_OP_ADD_I /\
  sons node = [src1_node; src2_node] /\
  ir_visit_ast_node node s = Some (out, s') /\
  exists left_ s1,
    ir_visit_ast_node src1_node s = Some (left_, s1) /\
    ((ok left_ = false /\ out = mkOut false [] None /\ s' = s1) \/
     (ok left_ = true /\
      exists right_ s2,
        ir_visit_ast_node src2_node s1 = Some (right_, s2) /\
        ((ok right_ = false /\ out = mkOut false [] None /\ s' = s2) \/
         (ok right_ = true /\
          out = mkOut true
                  (blockInsts left_ ++ blockInsts right_ ++
                   [BinaryInstruction (next_addr s2) (currentFunc (module s2))
                      IRINST_OP_ADD_I (val left_) (val right_) IntegerType_Int])
                  (Some (InstValue (next_addr s2))) /\
          s' = allocated 1 s2)))).
Proof.
  intros node s out s' src1_node src2_node.
  assert (ir_visit_ast_node node s = Some (out, s')) as H by (vm_compute; reflexivity).
  split; [reflexivity |]. split; [reflexivity |]. split; [exact H |].
  exact (ir_arith_order node s _ _ _ _ out s' eq_refl eq_refl H).
Defined.

Lemma ir_relop_visits_both_witness :
  let node := lt_i_10 in
  let s := state_in_main in
  let out := out_of (ir_visit_ast_node node s) in
  let s' := state_of (ir_visit_ast_node node s) in
  let src1_node := new_ast_leaf_var_id "i" 1 in
  let src2_node := new_ast_leaf_uint 10 1 in
  rel_op (node_type node) = Some IRINST_OP_LT_I /\
  sons node = [src1_node; src2_node] /\
  currentFunc (module s) = Some "main" /\
  ir_visit_ast_node node s = Some (out, s') /\
  exists left_ s1 right_ s2,
    ir_visit_ast_node src1_node s = Some (left_, s1) /\
    ir_visit_ast_node src2_node s1 = Some (right_, s2) /\
    if ok left_ && ok right_ then
      out = mkOut true
              (blockInsts left_ ++ blockInsts right_ ++
               [BinaryInstruction (next_addr s2) (Some "main") IRINST_OP_LT_I
                  (val left_) (val right_) IntegerType_Bool])
              (Some (InstValue (next_addr s2))) /\
      s' = allocated 1 s2
    else out = mkOut false [] None /\ s' = s2.
Proof.
  intros node s out s' src1_node src2_node.
  assert (ir_visit_ast_node node s = Some (out, s')) as H by (vm_compute; reflexivity).
  split; [reflexivity |]. split; [reflexivity |]. split; [reflexivity |].
  split; [exact H |].
  exact (ir_relop_visits_both node s _ _ _ _ _ out s' eq_refl eq_refl eq_refl H).
Defined.

Lemma ir_return_cases_witness :
  let node := return_a in
  let s := state_in_main in
  let son_node := new_ast_leaf_var_id "a" 1 in
  let right_ := out_of (ir_visit_ast_node son_node s) in
  let s1 := state_of (ir_visit_ast_node son_node s) in
  let fn := function_of "main" s1 in
  node_type node = AST_OP_RETURN /\
  sons node = [son_node] /\
  ir_visit_ast_node son_node s = Some (right_, s1) /\
  ok right_ = true /\
  currentFunc (module s1) = Some "main" /\
  functions (module s1) !! "main" = Some fn /\
  ir_visit_ast_node node s =
    Some (mkOut true
            (blockInsts right_ ++
             [MoveInstruction (next_addr s1) (Some "main") (returnValue fn) (val right_);
              GotoInstruction (S (next_addr s1)) (Some "main") (exitLabel fn)])
            (val right_),
          allocated 2 s1).
Proof.
  intros node s son_node right_ s1 fn.
  assert (ir_visit_ast_node son_node s = Some (right_, s1)) as H1
    by (vm_compute; reflexivity).
  assert (ok right_ = true) as H2 by reflexivity.
  assert (currentFunc (module s1) = Some "main") as H3 by reflexivity.
  assert (functions (module s1) !! "main" = Some fn) as H4 by (vm_compute; reflexivity).
  split; [reflexivity |]. split; [reflexivity |]. split; [exact H1 |].
  split; [exact H2 |]. split; [exact H3 |]. split; [exact H4 |].
  exact (proj1 (proj2 (proj2 (ir_return_cases node s eq_refl) son_node [] right_ s1
                        eq_refl H1) H2) "main" fn H3 H4).
Defined.

Lemma ir_function_call_outside_function_witness :
  let node := call_f_1_2 in
  let s := state_top_with_f in
  let name_node := new_ast_leaf_var_id "f" 7 in
  let paramsNode :=
    new_ast_node (AST_OP_OTHER 0) [new_ast_leaf_uint 1 7; new_ast_leaf_uint 2 7] in
  node_type node = AST_OP_FUNC_CALL /\
  sons node = [name_node; paramsNode] /\
  currentFunc (module s) = None /\
  is_Some (functions (module s) !! name name_node) /\
  ir_visit_ast_node node s = None.
Proof.
  intros node s name_node paramsNode.
  assert (is_Some (functions (module s) !! name name_node)) as H
    by (eexists; vm_compute; reflexivity).
  split; [reflexivity |]. split; [reflexivity |]. split; [reflexivity |].
  split; [exact H |].
  exact (ir_function_call_outside_function node s name_node paramsNode []
           eq_refl eq_refl eq_refl H).
Defined.

Lemma ir_assign_to_undeclared_witness :
  let node := assign_x_1 in
  let s := state_in_main in
  let son1_node := new_ast_leaf_var_id "x" 1 in
  let son2_node := new_ast_leaf_uint 1 1 in
  let right_ := out_of (ir_visit_ast_node son2_node s) in
  let s1 := state_of (ir_visit_ast_node son2_node s) in
  node_type node = AST_OP_ASSIGN /\
  sons node = [son1_node; son2_node] /\
  node_type son1_node = AST_OP_LEAF_VAR_ID /\
  lookup_scopes (name son1_node) (scopeStack (module s)) = None /\
  ir_visit_ast_node son2_node s = Some (right_, s1) /\
  ok right_ = true /\
  ir_visit_ast_node node s =
    Some (mkOut true
            (blockInsts right_ ++
             [MoveInstruction (next_addr s1) (currentFunc (module s1)) None (val right_)])
            (Some (InstValue (next_addr s1))),
          allocated 1 s1).
Proof.
  intros node s son1_node son2_node right_ s1.
  assert (lookup_scopes (name son1_node) (scopeStack (module s)) = None) as H1
    by (vm_compute; reflexivity).
  assert (ir_visit_ast_node son2_node s = Some (right_, s1)) as H2
    by (vm_compute; reflexivity).
  split; [reflexivity |]. split; [reflexivity |]. split; [reflexivity |].
  split; [exact H1 |]. split; [exact H2 |]. split; [reflexivity |].
  exact (ir_assign_to_undeclared node s son1_node son2_node [] right_ s1
           eq_refl eq_refl eq_refl H1 H2 eq_refl).
Defined.

Lemma ir_leaf_node_uint_wraps_witness :
  let node := literal_4294967295 in
  let s := init_state ∅ in
  node_type node = AST_OP_LEAF_LITERAL_UINT /\
  exists v,
    ir_visit_ast_node node s = Some (mkOut true [] (Some (ConstInt v)), s) /\
    -2147483648 <= v <= 2147483647 /\
    (v - integer_val node) mod 4294967296 = 0 /\
    (-2147483648 <= integer_val node <= 2147483647 -> v = integer_val node).
Proof.
  intros node s. split; [reflexivity |].
  exact (ir_leaf_node_uint_wraps node s eq_refl).
Defined.

Lemma ir_break_continue_cases_witness :
  let node := break_node in
  let s := state_in_main in
  let msg := "break语句不在循环内部" in
  loop_jump (node_type node) = Some (loop_exit_label, msg) /\
  loop_contexts s = [] /\
  ir_visit_ast_node node s = Some (mkOut false [] None, logged (LOG_ERROR msg []) s).
Proof.
  intros node s msg. split; [reflexivity |]. split; [reflexivity |].
  exact (proj1 (ir_break_continue_cases node s loop_exit_label msg eq_refl)
           (or_intror eq_refl)).
Defined.

Lemma ir_if_sequence_witness :
  let node := if_a_assign in
  let s := state_in_main in
  let out := out_of (ir_visit_ast_node node s) in
  let s' := state_of (ir_visit_ast_node node s) in
  node_type node = AST_OP_IF /\
  is_Some (currentFunc (module s)) /\
  ir_visit_ast_node node s = Some (out, s') /\
  exists condNode thenNode rest c t else_insts s1 s2 s3 s4
         Ltrue Lfalse Lend a_bf a_goto1 a_goto2,
    sons node = condNode :: thenNode :: rest /\
    label_name Ltrue = Some ("L" +:+ pretty (labelCount s)) /\
    label_name Lfalse = Some ("L" +:+ pretty (labelCount s + 1)) /\
    label_name Lend = Some ("L" +:+ pretty (labelCount s + 2)) /\
    ir_visit_ast_node condNode s1 = Some (c, s2) /\
    ir_visit_ast_node thenNode s3 = Some (t, s4) /\
    match rest with
    | [] => else_insts = []
    | elseNode :: _ =>
        exists e s5 s6,
          ir_visit_ast_node elseNode s5 = Some (e, s6) /\ else_insts = blockInsts e
    end /\
    out = mkOut true
            (blockInsts c ++
             [BranchInstruction a_bf (currentFunc (module s)) IRINST_OP_BF (val c)
                None None (Some Lfalse);
              LabelInstruction Ltrue] ++
             blockInsts t ++
             [GotoInstruction a_goto1 (currentFunc (module s)) (Some Lend);
              LabelInstruction Lfalse] ++
             else_insts ++
             [GotoInstruction a_goto2 (currentFunc (module s)) (Some Lend);
              LabelInstruction Lend])
            None.
Proof.
  intros node s out s'.
  assert (is_Some (currentFunc (module s))) as H1 by (eexists; reflexivity).
  assert (ir_visit_ast_node node s = Some (out, s')) as H2 by (vm_compute; reflexivity).
  split; [reflexivity |]. split; [exact H1 |]. split; [exact H2 |].
  exact (ir_if_sequence node s out s' eq_refl H1 H2).
Defined.

Lemma ir_or_sequence_witness :
  let node := or_a_i in
  let s := state_in_main in
  let out := out_of (ir_visit_ast_node node s) in
  let s' := state_of (ir_visit_ast_node node s) in
  node_type node = AST_OP_OR /\
  is_Some (currentFunc (module s)) /\
  ir_visit_ast_node node s = Some (out, s') /\
  exists left_node right_node rest l r s1 s2 s3 s4
         Ltrue Lfalse Lend Lend2 result a_bt1 a_bt2 a_move1 a_goto a_move0,
    sons node = left_node :: right_node :: rest /\
    label_name Ltrue = Some ("L" +:+ pretty (labelCount s)) /\
    label_name Lfalse = Some ("L" +:+ pretty (labelCount s + 1)) /\
    label_name Lend = Some ("L" +:+ pretty (labelCount s + 2)) /\
    label_name Lend2 = label_name Lend /\
    (label_addr Lend < label_addr Lend2)%nat /\
    ir_visit_ast_node left_node s1 = Some (l, s2) /\
    ir_visit_ast_node right_node s3 = Some (r, s4) /\
    out = mkOut true
            (blockInsts l ++
             [BranchInstruction a_bt1 (currentFunc (module s)) IRINST_OP_BT (val l)
                None None (Some Ltrue);
              LabelInstruction Lfalse] ++
             blockInsts r ++
             [BranchInstruction a_bt2 (currentFunc (module s)) IRINST_OP_BT (val r)
                None None (Some Ltrue);
              LabelInstruction Ltrue;
              MoveInstruction a_move1 (currentFunc (module s)) (Some result)
                (Some (ConstInt 1));
              GotoInstruction a_goto (currentFunc (module s)) (Some Lend);
              LabelInstruction Lend2;
              MoveInstruction a_move0 (currentFunc (module s)) (Some result)
                (Some (ConstInt 0))])
            (Some result).
Proof.
  intros node s out s'.
  assert (is_Some (currentFunc (module s))) as H1 by (eexists; reflexivity).
  assert (ir_visit_ast_node node s = Some (out, s')) as H2 by (vm_compute; reflexivity).
  split; [reflexivity |]. split; [exact H1 |]. split; [exact H2 |].
  exact (ir_or_sequence node s out s' eq_refl H1 H2).
Defined.

Lemma ir_and_sequence_witness :
  let node := and_a_i in
  let s := state_in_main in
  let out := out_of (ir_visit_ast_node node s) in
  let s' := state_of (ir_visit_ast_node node s) in
  node_type node = AST_OP_AND /\
  is_Some (currentFunc (module s)) /\
  ir_visit_ast_node node s = Some (out, s') /\
  exists left_node right_node rest l r s1 s2 s3 s4
         Ltrue Lfalse Lend Lend2 result a_bf1 a_bf2 a_move1 a_goto1 a_move0 a_goto0,
    sons node = left_node :: right_node :: rest /\
    label_name Ltrue = Some ("L" +:+ pretty (labelCount s)) /\
    label_name Lfalse = Some ("L" +:+ pretty (labelCount s + 1)) /\
    label_name Lend = Some ("L" +:+ pretty (labelCount s + 2)) /\
    label_name Lend2 = label_name Lend /\
    (label_addr Lend < label_addr Lend2)%nat /\
    ir_visit_ast_node left_node s1 = Some (l, s2) /\
    ir_visit_ast_node right_node s3 = Some (r, s4) /\
    out = mkOut true
            (blockInsts l ++
             [BranchInstruction a_bf1 (currentFunc (module s)) IRINST_OP_BF (val l)
                None None (Some Lfalse);
              LabelInstruction Ltrue] ++
             blockInsts r ++
             [BranchInstruction a_bf2 (currentFunc (module s)) IRINST_OP_BF (val r)
                None None (Some Lfalse);
              LabelInstruction Ltrue;
              MoveInstruction a_move1 (currentFunc (module s)) (Some result)
                (Some (ConstInt 1));
              GotoInstruction a_goto1 (currentFunc (module s)) (Some Lend);
              LabelInstruction Lfalse;
              MoveInstruction a_move0 (currentFunc (module s)) (Some result)
                (Some (ConstInt 0));
              GotoInstruction a_goto0 (currentFunc (module s)) (Some Lend);
              LabelInstruction Lend2])
            (Some result).
Proof.
  intros node s out s'.
  assert (is_Some (currentFunc (module s))) as H1 by (eexists; reflexivity).
  assert (ir_visit_ast_node node s = Some (out, s')) as H2 by (vm_compute; reflexivity).
  split; [reflexivity |]. split; [exact H1 |]. split; [exact H2 |].
  exact (ir_and_sequence node s out s' eq_refl H1 H2).
Defined.

Lemma ir_block_cases_witness :
  let node := block_two_assigns in
  let s := state_in_main in
  let out := out_of (ir_visit_ast_node node s) in
  let s' := state_of (ir_visit_ast_node node s) in
  node_type node = AST_OP_BLOCK /\
  ir_visit_ast_node node s = Some (out, s') /\
  exists outs s2,
    visit_seq (take (length outs) (sons node))
      (if needScope node then scope_entered s else s) outs s2 /\
    blockInsts out = concat (blockInsts <$> outs) /\
    val out = None /\
    ((ok out = true /\ length outs = length (sons node) /\
      s' = if needScope node then scope_left s2 else s2) \/
     (ok out = false /\
      exists c o, sons node !! length outs = Some c /\
        ir_visit_ast_node c s2 = Some (o, s') /\ ok o = false)).
Proof.
  intros node s out s'.
  assert (ir_visit_ast_node node s = Some (out, s')) as H by (vm_compute; reflexivity).
  split; [reflexivity |]. split; [exact H |].
  exact (ir_block_cases node s out s' eq_refl H).
Defined.

Lemma run_compile_unit_cases_witness :
  let root := prog_break in
  let s := init_state ∅ in
  let s' := run_state root s in
  node_type root = AST_OP_COMPILE_UNIT /\
  run root s = Some (false, s') /\
  exists outs s2,
    visit_seq (take (length outs) (sons root)) (with_current_function None s) outs s2 /\
    ((false = true /\ length outs = length (sons root) /\ s' = s2) \/
     (false = false /\
      exists c o, sons root !! length outs = Some c /\
        ir_visit_ast_node c s2 = Some (o, s') /\ ok o = false)).
Proof.
  intros root s s'.
  assert (run root s = Some (false, s')) as H by (vm_compute; reflexivity).
  split; [reflexivity |]. split; [exact H |].
  exact (run_compile_unit_cases root s false s' eq_refl H).
Defined.

Lemma emitted_calls_match_callee_witness :
  let node := call_f_1_2 in
  let s := state_in_main in
  let out := out_of (ir_visit_ast_node node s) in
  let s' := state_of (ir_visit_ast_node node s) in
  let args := [Some (ConstInt 1); Some (ConstInt 2)] in
  ir_visit_ast_node node s = Some (out, s') /\
  FuncCallInstruction 2%nat (Some "main") "f" args IntegerType_Int ∈ blockInsts out /\
  exists fn,
    functions (module s') !! "f" = Some fn /\
    length args = length (params fn) /\ IntegerType_Int = returnType fn.
Proof.
  intros node s out s' args.
  assert (ir_visit_ast_node node s = Some (out, s')) as H1 by (vm_compute; reflexivity).
  assert (FuncCallInstruction 2%nat (Some "main") "f" args IntegerType_Int
            ∈ blockInsts out) as H2 by (vm_compute; apply list_elem_of_here).
  split; [exact H1 |]. split; [exact H2 |].
  exact (emitted_calls_match_callee node s out s' _ _ _ _ _ H1 H2).
Defined.

Lemma emitted_branches_printable_witness :
  let node := while_i_lt_10 in
  let s := state_in_main in
  let out := out_of (ir_visit_ast_node node s) in
  let s' := state_of (ir_visit_ast_node node s) in
  let Lbody := mkLabel 4%nat (Some "main") (Some "L1") in
  let i := BranchInstruction 5%nat (Some "main") IRINST_OP_BT (Some (InstValue 3%nat))
             None None (Some Lbody) in
  let b := BranchInstruction_bt_bf (Some "main") IRINST_OP_BT (Some (InstValue 3%nat))
             (Some Lbody) in
  let to_string :=
    toString (fun _ => "%t") (fun l => default "" (label_name l)) (fun _ => "") in
  ir_visit_ast_node node s = Some (out, s') /\
  i ∈ blockInsts out /\
  as_branch i = Some b /\
  (br_op b = IRINST_OP_BT \/ br_op b = IRINST_OP_BF) /\
  getTrueTarget b = None /\ getFalseTarget b = None /\ is_Some (getTarget b) /\
  (is_Some (to_string b) <-> is_Some (getCondVar b)).
Proof.
  intros node s out s' Lbody i b to_string.
  assert (ir_visit_ast_node node s = Some (out, s')) as H1 by (vm_compute; reflexivity).
  assert (i ∈ blockInsts out) as H2
    by (vm_compute; do 2 apply list_elem_of_further; apply list_elem_of_here).
  split; [exact H1 |]. split; [exact H2 |]. split; [reflexivity |].
  exact (emitted_branches_printable _ _ _ node s out s' i b H1 H2 eq_refl).
Defined.

Lemma registered_functions_sealed_witness :
  let node := call_f_1 in
  let s := state_in_main in
  let out := out_of (ir_visit_ast_node node s) in
  let s' := state_of (ir_visit_ast_node node s) in
  let fn := function_of "main" s in
  ir_visit_ast_node node s = Some (out, s') /\
  functions (module s) !! "main" = Some fn /\
  exists fn', functions (module s') !! "main" = Some fn' /\ Function_le fn fn'.
Proof.
  intros node s out s' fn.
  assert (ir_visit_ast_node node s = Some (out, s')) as H1 by (vm_compute; reflexivity).
  assert (functions (module s) !! "main" = Some fn) as H2 by (vm_compute; reflexivity).
  split; [exact H1 |]. split; [exact H2 |].
  exact (registered_functions_sealed node s out s' "main" fn H1 H2).
Defined.

Lemma visit_restores_loop_contexts_witness :
  let node := while_i_lt_10 in
  let s := state_in_main in
  let out := out_of (ir_visit_ast_node node s) in
  let s' := state_of (ir_visit_ast_node node s) in
  ir_visit_ast_node node s = Some (out, s') /\
  loop_contexts s' = loop_contexts s.
Proof.
  intros node s out s'.
  assert (ir_visit_ast_node node s = Some (out, s')) as H by (vm_compute; reflexivity).
  split; [exact H |]. exact (visit_restores_loop_contexts node s out s' H).
Defined.

Lemma visit_keeps_enclosing_scopes_witness :
  let root_if := new_ast_node AST_OP_IF
                   [new_ast_leaf_uint 1 1;
                    new_ast_node AST_OP_BLOCK [decl_b; break_node]] in
  let s := state_in_main in
  let out := out_of (ir_visit_ast_node root_if s) in
  let s' := state_of (ir_visit_ast_node root_if s) in
  let top := hd ∅ (scopeStack (module s)) in
  let T := tail (scopeStack (module s)) in
  scopeStack (module s) = top :: T /\
  ir_visit_ast_node root_if s = Some (out, s') /\
  exists pre top',
    scopeStack (module s') = pre ++ top' :: T /\
    (forall id, is_Some (top !! id) -> is_Some (top' !! id)).
Proof.
  intros root_if s out s' top T.
  assert (ir_visit_ast_node root_if s = Some (out, s')) as H by (vm_compute; reflexivity).
  split; [reflexivity |]. split; [exact H |].
  exact (visit_keeps_enclosing_scopes root_if s out s' top T eq_refl H).
Defined.

Lemma successful_visit_restores_scopes_witness :
  let node := new_ast_node AST_OP_BLOCK [decl_b; assign_a_1] in
  let s := state_in_main in
  let out := out_of (ir_visit_ast_node node s) in
  let s' := state_of (ir_visit_ast_node node s) in
  let top := hd ∅ (scopeStack (module s)) in
  let T := tail (scopeStack (module s)) in
  propagates_failure node = true /\
  scopeStack (module s) = top :: T /\
  ir_visit_ast_node node s = Some (out, s') /\
  ok out = true /\
  exists top',
    scopeStack (module s') = top' :: T /\
    (forall id, is_Some (top !! id) -> is_Some (top' !! id)).
Proof.
  intros node s out s' top T.
  assert (ir_visit_ast_node node s = Some (out, s')) as H by (vm_compute; reflexivity).
  split; [reflexivity |]. split; [reflexivity |]. split; [exact H |].
  split; [reflexivity |].
  exact (successful_visit_restores_scopes node s out s' top T eq_refl eq_refl H eq_refl).
Defined.

Lemma label_names_never_repeat_witness :
  let node := while_i_lt_10 in
  let s0 := state_in_main in
  let s1 := mkGenState (module s0) 1 (loop_contexts s0) (next_addr s0) (log s0) in
  let out := out_of (ir_visit_ast_node node s1) in
  let s2 := state_of (ir_visit_ast_node node s1) in
  let s3 := mkGenState (module s2) 5 (loop_contexts s2) (next_addr s2) (log s2) in
  generateLabel s0 = Some ("L0", s1) /\
  ir_visit_ast_node node s1 = Some (out, s2) /\
  generateLabel s2 = Some ("L4", s3) /\
  labelCount s0 < labelCount s2 /\ "L0" <> "L4".
Proof.
  intros node s0 s1 out s2 s3.
  assert (generateLabel s0 = Some ("L0", s1)) as H1 by (vm_compute; reflexivity).
  assert (ir_visit_ast_node node s1 = Some (out, s2)) as H2 by (vm_compute; reflexivity).
  assert (generateLabel s2 = Some ("L4", s3)) as H3 by (vm_compute; reflexivity).
  split; [exact H1 |]. split; [exact H2 |]. split; [exact H3 |].
  exact (label_names_never_repeat node s0 "L0" s1 out s2 "L4" s3 H1 H2 H3).
Defined.


Lemma visit_defined_inside_function_witness :
  let node := while_i_lt_10 in
  let s := state_in_main in
  well_formed node = true /\
  currentFunc (module s) = Some "main" /\
  is_Some (functions (module s) !! "main") /\
  labelCount s + 3 * Z.of_nat (label_nodes node) <= INT_MAX /\
  exists out s',
    ir_visit_ast_node node s = Some (out, s') /\
    currentFunc (module s') = Some "main" /\
    labelCount s' <= labelCount s + 3 * Z.of_nat (label_nodes node).
Proof.
  intros node s.
  assert (is_Some (functions (module s) !! "main")) as H1
    by (eexists; vm_compute; reflexivity).
  assert (labelCount s + 3 * Z.of_nat (label_nodes node) <= INT_MAX) as H2
    by (vm_compute; discriminate).
  split; [reflexivity |]. split; [reflexivity |]. split; [exact H1 |].
  split; [exact H2 |].
  exact (visit_defined_inside_function node s "main" eq_refl eq_refl H1 H2).
Defined.

Lemma run_defined_witness :
  let root := prog_and in
  let s := init_state ∅ in
  node_type root = AST_OP_COMPILE_UNIT /\
  forallb well_formed_top (sons root) = true /\
  labelCount s + 3 * Z.of_nat (label_nodes root) <= INT_MAX /\
  exists b s', run root s = Some (b, s').
Proof.
  intros root s.
  assert (labelCount s + 3 * Z.of_nat (label_nodes root) <= INT_MAX) as H
    by (vm_compute; discriminate).
  split; [reflexivity |]. split; [reflexivity |]. split; [exact H |].
  exact (run_defined root s eq_refl eq_refl H).
Defined.

Lemma success_logs_nothing_witness :
  let root := prog_decl_return in
  let s := init_state ∅ in
  let s' := run_state root s in
  propagates_failure root = true /\
  run root s = Some (true, s') /\
  log s' = log s.
Proof.
  intros root s s'.
  assert (run root s = Some (true, s')) as H by (vm_compute; reflexivity).
  split; [reflexivity |]. split; [exact H |].
  exact (proj2 (success_logs_nothing root s eq_refl) s' H).
Defined.
